(** * Matrix factorisation by momentum gradient descent (mf.py)

    A shallow embedding of [MatrixFactorization/mf.py] and the properties of
    its ID encoder, sparse matrix builder, masked predictor, cost, gradient
    and trainer.

    Modelling conventions.
    - numpy's float64 is idealised: a finite value is an exact rational
      ([Qc]), rounding, overflow and signed zeros are not modelled, but the
      two infinities and NaN are, with numpy's rules for them (so that a
      division by a zero count is visible).
    - a pandas DataFrame is a record of its two key columns and a finite map
      from column names to float columns; the functions that assign to a
      column of their argument return the updated frame next to their result.
      The key columns of a [DataFrame nat] are integer arrays; where the
      dtype of a key column decides (an empty table), a [keyed_frame]
      carries the two dtypes.
    - the one place where the version of pandas decides, the in-place
      replace in [encode_new_data], takes the behaviour as an argument
      ([pandas]).
    - a scipy sparse matrix is its shape and the finite map of its stored
      entries; a Python exception is an [Err] result. *)

From Stdlib Require Import QArith Qcanon.
From stdpp Require Import gmap strings list fin_maps.

Set Default Proof Using "Type".
Set Warnings "-clear-no-such-hyp".

(** * The program *)

(** ** Exceptions *)

(** The exceptions the modelled calls can raise: [KeyError] (a missing
    dict key or column), [IndexError] (numpy fancy indexing out of bounds,
    or with an index array that is not of integer type),
    [IndexOutOfRange] (scipy's ValueError "row/column index exceeds matrix
    dimensions") and [ShapeMismatch] (numpy's and scipy's ValueError on
    operands whose shapes do not fit). *)
Inductive exn := KeyError | IndexError | IndexOutOfRange | ShapeMismatch.

Inductive result (A : Type) :=
| Ok (a : A)
| Err (e : exn).
Arguments Ok {A} a.
Arguments Err {A} e.

Definition rbind {A B} (r : result A) (k : A → result B) : result B :=
  match r with
  | Ok a => k a
  | Err e => Err e
  end.

Notation "x ←r e ; k" := (rbind e (λ x, k))
  (at level 100, e at next level, k at level 200, right associativity).

Definition of_option {A} (e : exn) (o : option A) : result A :=
  match o with
  | Some a => Ok a
  | None => Err e
  end.

Definition is_ok {A} (r : result A) : Prop := ∃ a, r = Ok a.

(** ** Floats *)

(** An idealised float64: an exact rational, an infinity with its sign
    ([Inf true] is the negative one) or NaN. *)
Inductive float :=
| Fin (q : Qc)
| Inf (neg : bool)
| NaN.

Definition zq (z : Z) : Qc := Q2Qc (inject_Z z).

(** The float of a Python int that is a count. *)
Definition of_nat (n : nat) : float := Fin (zq (Z.of_nat n)).

Definition qzero (q : Qc) : bool := Qeq_bool q 0.

Definition qneg (q : Qc) : bool :=
  match (q ?= 0)%Qc with
  | Lt => true
  | _ => false
  end.

(** [x != 0] is false exactly on a zero. *)
Definition fzero (x : float) : bool :=
  match x with
  | Fin q => qzero q
  | _ => false
  end.

Definition fneg (x : float) : float :=
  match x with
  | Fin q => Fin (- q)
  | Inf s => Inf (negb s)
  | NaN => NaN
  end.

Definition fadd (x y : float) : float :=
  match x, y with
  | NaN, _ | _, NaN => NaN
  | Fin a, Fin b => Fin (a + b)
  | Fin _, Inf s | Inf s, Fin _ => Inf s
  | Inf s, Inf t => if Bool.eqb s t then Inf s else NaN
  end.

Definition fsub (x y : float) : float := fadd x (fneg y).

Definition fmul (x y : float) : float :=
  match x, y with
  | NaN, _ | _, NaN => NaN
  | Fin a, Fin b => Fin (a * b)
  | Fin a, Inf s | Inf s, Fin a =>
      if qzero a then NaN else Inf (xorb s (qneg a))
  | Inf s, Inf t => Inf (xorb s t)
  end.

(** numpy's true division: a division by zero is no exception, it gives NaN
    for a zero numerator and an infinity otherwise. *)
Definition fdiv (x y : float) : float :=
  match x, y with
  | NaN, _ | _, NaN => NaN
  | Fin a, Fin b =>
      if qzero b then (if qzero a then NaN else Inf (qneg a))
      else Fin (a / b)
  | Fin _, Inf _ => Fin 0
  | Inf s, Fin b => Inf (xorb s (qneg b))
  | Inf _, Inf _ => NaN
  end.

(** [x ** n] for a count [n]. *)
Definition fpow (x : float) (n : nat) : float := Nat.iter n (fmul x) (Fin 1).

(** ** Dense arrays *)

(** A two-dimensional numpy array: its rows and [shape[1]] (which the rows
    do not determine when there are none). *)
Record ndarray := mk_ndarray { ncol : nat; data : list (list float) }.

Definition shape0 (a : ndarray) : nat := length (data a).

(** An array is well formed when each row has [ncol] cells. *)
Definition array_wf (a : ndarray) : Prop :=
  Forall (λ row, length row = ncol a) (data a).

Definition cell (a : ndarray) (i k : nat) : float :=
  default NaN (data a !! i ≫= λ row, row !! k).

Definition tabulate {A} (n : nat) (f : nat → A) : list A := f <$> seq 0 n.

(** [a[idx]] for an index array: the chosen rows, IndexError when an index
    is out of bounds. *)
Fixpoint gather_rows (rows : list (list float)) (idx : list nat)
  : result (list (list float)) :=
  match idx with
  | [] => Ok []
  | i :: idx' =>
      row ←r of_option IndexError (rows !! i);
      tl ←r gather_rows rows idx';
      Ok (row :: tl)
  end.

Definition gather (a : ndarray) (idx : list nat) : result ndarray :=
  rows ←r gather_rows (data a) idx;
  Ok (mk_ndarray (ncol a) rows).

(** numpy broadcasting of one dimension: equal sizes, or one of them 1. *)
Definition bdim (a b : nat) : option nat :=
  if decide (a = b) then Some a
  else if decide (a = 1) then Some b
  else if decide (b = 1) then Some a
  else None.

Definition bidx (n i : nat) : nat := if decide (n = 1) then 0 else i.

(** An elementwise binary operation on two arrays, with broadcasting. *)
Definition ew (f : float → float → float) (a b : ndarray) : result ndarray :=
  match bdim (shape0 a) (shape0 b), bdim (ncol a) (ncol b) with
  | Some r, Some c =>
      Ok (mk_ndarray c
            (tabulate r (λ i, tabulate c (λ k,
               f (cell a (bidx (shape0 a) i) (bidx (ncol a) k))
                 (cell b (bidx (shape0 b) i) (bidx (ncol b) k))))))
  | _, _ => Err ShapeMismatch
  end.

(** [np.sum(a, axis=1)] *)
Definition sum_axis1 (a : ndarray) : list float :=
  foldl fadd (Fin 0) <$> data a.

(** An operation between an array and a scalar. *)
Definition amap (f : float → float) (a : ndarray) : ndarray :=
  mk_ndarray (ncol a) (map f <$> data a).

(** What a velocity variable holds: the Python number it starts as, or an
    array. *)
Inductive value :=
| Scalar (x : float)
| Array (a : ndarray).

(** [c * v] for a float [c] *)
Definition vscale (c : float) (v : value) : value :=
  match v with
  | Scalar x => Scalar (fmul c x)
  | Array a => Array (amap (fmul c) a)
  end.

(** [v + a] and [a - v] for an array [a] *)
Definition vadd (v : value) (a : ndarray) : result ndarray :=
  match v with
  | Scalar x => Ok (amap (fadd x) a)
  | Array b => ew fadd b a
  end.

Definition asub (a : ndarray) (v : value) : result ndarray :=
  match v with
  | Scalar x => Ok (amap (λ y, fsub y x) a)
  | Array b => ew fsub a b
  end.

(** ** Sparse matrices *)

(** A scipy.sparse matrix in canonical form: its shape and its stored
    entries (explicit zeros included). *)
Record csc_matrix := mk_csc {
  shape : nat * nat;
  stored : gmap (nat * nat) float
}.

Definition nnz (m : csc_matrix) : nat := size (stored m).

(** One (row, column, value) triple of the coordinate format enters the
    matrix: scipy sums the values of a repeated position. *)
Definition add_entry (m : gmap (nat * nat) float) (e : nat * nat * float)
  : gmap (nat * nat) float :=
  partial_alter
    (λ o, Some (match o with Some x => fadd x e.2 | None => e.2 end)) e.1 m.

(** [sparse.csc_matrix((values, (rows, cols)), shape=shape)] *)
Definition csc_build (values : list float) (rows cols : list nat)
    (shp : nat * nat) : result csc_matrix :=
  if negb (bool_decide (length rows = length values
                        ∧ length cols = length values))
  then Err ShapeMismatch
  else if forallb (λ i, i <? shp.1) rows && forallb (λ j, j <? shp.2) cols
  then Ok (mk_csc shp (foldl add_entry ∅ (zip (zip rows cols) values)))
  else Err IndexOutOfRange.

(** One position of [A - B]: an absent entry counts as zero and a zero
    result is not stored. *)
Definition sub_cell (ox oy : option float) : option float :=
  match ox, oy with
  | None, None => None
  | _, _ =>
      let r := fsub (default (Fin 0) ox) (default (Fin 0) oy) in
      if fzero r then None else Some r
  end.

Definition sp_sub (a b : csc_matrix) : result csc_matrix :=
  if decide (shape a = shape b)
  then Ok (mk_csc (shape a) (merge sub_cell (stored a) (stored b)))
  else Err ShapeMismatch.

(** [c * A] for a scalar [c] *)
Definition sp_scale (c : float) (a : csc_matrix) : csc_matrix :=
  mk_csc (shape a) (fmul c <$> stored a).

(** [np.transpose(A)] *)
Definition sp_transpose (a : csc_matrix) : csc_matrix :=
  mk_csc (prod_swap (shape a)) (kmap prod_swap (stored a)).

(** [sparse.csc_matrix.power(A, n)] *)
Definition sp_power (a : csc_matrix) (n : nat) : csc_matrix :=
  mk_csc (shape a) ((λ x, fpow x n) <$> stored a).

(** [np.sum(A)] *)
Definition sp_sum (a : csc_matrix) : float :=
  map_fold (λ _ x acc, fadd acc x) (Fin 0) (stored a).

(** [A * D] for a dense [D]: the matrix product; cell (i, k) adds up
    [A[i, j] * D[j, k]] over the stored entries of row [i]. *)
Definition sp_row_dot (a : gmap (nat * nat) float) (d : ndarray) (i k : nat)
  : float :=
  map_fold (λ p x acc, if decide (p.1 = i)
                       then fadd acc (fmul x (cell d p.2 k)) else acc)
           (Fin 0) a.

Definition sp_matmul (a : csc_matrix) (d : ndarray) : result ndarray :=
  if decide ((shape a).2 = shape0 d)
  then Ok (mk_ndarray (ncol d)
             (tabulate (shape a).1 (λ i,
                tabulate (ncol d) (λ k, sp_row_dot (stored a) d i k))))
  else Err ShapeMismatch.

(** ** Data frames *)

(** A ratings table: the two key columns and the float columns by name
    (["rating"], ["Prediction"], ...). *)
Record DataFrame (K : Type) := mk_df {
  userId : list K;
  movieId : list K;
  columns : gmap string (list float)
}.
Arguments mk_df {K} _ _ _.
Arguments userId {K} _.
Arguments movieId {K} _.
Arguments columns {K} _.

(** All columns of a frame have one length. *)
Definition df_wf {K} (df : DataFrame K) : Prop :=
  length (movieId df) = length (userId df)
  ∧ map_Forall (λ _ c, length c = length (userId df)) (columns df).

(** [df[name].values] on an encoded frame *)
Definition column_values (df : DataFrame nat) (name : string)
  : result (list float) :=
  if decide (name = "userId") then Ok (of_nat <$> userId df)
  else if decide (name = "movieId") then Ok (of_nat <$> movieId df)
  else of_option KeyError (columns df !! name).

(** [df[name] = c] for a float column *)
Definition set_column {K} (df : DataFrame K) (name : string) (c : list float)
  : DataFrame K :=
  mk_df (userId df) (movieId df) (<[name := c]> (columns df)).

(** ** The ID encoder *)

(** What pandas does with [df.col.replace(d, inplace=True)], an in-place
    call on the Series that the attribute access [df.col] returns. Before
    pandas 3 the call writes through to the frame. From pandas 3 on
    (copy-on-write) that Series is an object of its own: the call changes
    it alone and the frame is left as it was. The repository pins no
    version of pandas. *)
Inductive pandas :=
| WriteThrough
| CopyOnWrite.

Section encoder.
Context `{Countable K}.

(** [col.unique()]: the distinct values in order of first appearance. *)
Fixpoint unique_from (seen : gset K) (col : list K) : list K :=
  match col with
  | [] => []
  | x :: col' =>
      if decide (x ∈ seen) then unique_from seen col'
      else x :: unique_from ({[x]} ∪ seen) col'
  end.

Definition unique (col : list K) : list K := unique_from ∅ col.

(** [enumerate(uniq)] *)
Definition enumerate (l : list K) : list (nat * K) :=
  zip (seq 0 (length l)) l.

(** [{o: i for i, o in enumerate(uniq)}]: keys are inserted in turn, a
    later pair replaces an earlier one with the same key. *)
Definition dict_of (ps : list (nat * K)) : gmap K nat :=
  foldl (λ d p, <[p.2 := p.1]> d) ∅ ps.

(** [[name2idx[x] for x in col]] *)
Fixpoint translate (name2idx : gmap K nat) (col : list K)
  : result (list nat) :=
  match col with
  | [] => Ok []
  | x :: col' =>
      i ←r of_option KeyError (name2idx !! x);
      tl ←r translate name2idx col';
      Ok (i :: tl)
  end.

Definition proc_col (col : list K) : result (gmap K nat * list nat * nat) :=
  let uniq := unique col in
  let name2idx := dict_of (enumerate uniq) in
  idx ←r translate name2idx col;
  Ok (name2idx, idx, length uniq).

(** [encode_data]: both key columns of the frame are replaced by their
    codes. *)
Definition encode_data (df : DataFrame K)
  : result (DataFrame nat * nat * nat) :=
  u ←r proc_col (userId df);
  m ←r proc_col (movieId df);
  Ok (mk_df u.1.2 m.1.2 (columns df), u.2, m.2).

(** [s.isin(d)]: the mask of the cells that are keys of the dict. *)
Definition isin (s : list K) (d : gmap K nat) : list bool :=
  (λ x, bool_decide (is_Some (d !! x))) <$> s.

(** [df[mask]]: the rows whose mask is set, in order. *)
Fixpoint select {A} (mask : list bool) (c : list A) : list A :=
  match mask, c with
  | b :: mask', x :: c' => if b then x :: select mask' c' else select mask' c'
  | _, _ => []
  end.

(** [s.replace(d)]: a cell that is a key of the dict becomes its code
    ([inr]), any other cell is left as it is ([inl]); all cells are looked
    up in the column as it was before the call. *)
Definition replace (d : gmap K nat) (s : list K) : list (K + nat) :=
  (λ x, match d !! x with Some i => inr i | None => inl x end) <$> s.

(** [df.col.replace(d, inplace=True)]: the column of the frame after the
    call. *)
Definition replace_inplace (p : pandas) (d : gmap K nat) (s : list K)
  : list (K + nat) :=
  match p with
  | WriteThrough => replace d s
  | CopyOnWrite => inl <$> s
  end.

(** [encode_new_data]: returns the training frame (whose key columns the
    call encodes in place) and the validation frame it builds from the
    kept rows. *)
Definition encode_new_data (p : pandas) (df_val df_train : DataFrame K)
  : result (DataFrame nat * DataFrame (K + nat)) :=
  u ←r proc_col (userId df_train);
  m ←r proc_col (movieId df_train);
  let user2idx := u.1.1 in
  let mov2idx := m.1.1 in
  let df_train' := mk_df u.1.2 m.1.2 (columns df_train) in
  let mask := zip_with andb (isin (userId df_val) user2idx)
                            (isin (movieId df_val) mov2idx) in
  Ok (df_train',
      mk_df (replace_inplace p user2idx (select mask (userId df_val)))
            (replace_inplace p mov2idx (select mask (movieId df_val)))
            (select mask <$> columns df_val)).

End encoder.

(** ** The sparse matrix builder, the predictor, the cost and the gradient *)

(** [df2matrix] *)
Definition df2matrix (df : DataFrame nat) (nrows ncols : nat)
    (column_name : string) : result csc_matrix :=
  values ←r column_values df column_name;
  let ind_movie := movieId df in
  let ind_user := userId df in
  csc_build values ind_user ind_movie (nrows, ncols).

(** The dot products [np.sum(emb_user[users] * emb_movie[movies], axis=1)] *)
Definition predictions (df : DataFrame nat) (emb_user emb_movie : ndarray)
  : result (list float) :=
  gu ←r gather emb_user (userId df);
  gm ←r gather emb_movie (movieId df);
  prod ←r ew fmul gu gm;
  Ok (sum_axis1 prod).

(** [sparse_multiply]: returns the frame as the call leaves it, and the
    result. *)
Definition sparse_multiply (df : DataFrame nat) (emb_user emb_movie : ndarray)
  : DataFrame nat * result csc_matrix :=
  match predictions df emb_user emb_movie with
  | Err e => (df, Err e)
  | Ok pred =>
      let df' := set_column df "Prediction" pred in
      (df', df2matrix df' (shape0 emb_user) (shape0 emb_movie) "Prediction")
  end.

(** [cost]: [None] stands for Python's None, for the frame and for the
    result. *)
Definition cost (df : option (DataFrame nat)) (emb_user emb_movie : ndarray)
  : option (DataFrame nat) * result (option float) :=
  match df with
  | None => (None, Ok None)
  | Some df =>
      match df2matrix df (shape0 emb_user) (shape0 emb_movie) "rating" with
      | Err e => (Some df, Err e)
      | Ok df_rating =>
          let '(df', r) := sparse_multiply df emb_user emb_movie in
          (Some df',
           df_pred ←r r;
           let N := nnz df_rating in
           diff ←r sp_sub df_rating df_pred;
           Ok (Some (fdiv (sp_sum (sp_power diff 2)) (of_nat N))))
      end
  end.

(** [gradient] *)
Definition gradient (df : DataFrame nat) (Y : csc_matrix)
    (emb_user emb_movie : ndarray)
  : DataFrame nat * result (ndarray * ndarray) :=
  let N := nnz Y in
  let '(df', r) := sparse_multiply df emb_user emb_movie in
  (df',
   pred ←r r;
   d1 ←r sp_sub Y pred;
   gu ←r sp_matmul (sp_scale (Fin (zq (-2))) d1) emb_movie;
   let grad_user := amap (λ x, fdiv x (of_nat N)) gu in
   d2 ←r sp_sub Y pred;
   gm ←r sp_matmul (sp_scale (Fin (zq (-2))) (sp_transpose d2)) emb_user;
   let grad_movie := amap (λ x, fdiv x (of_nat N)) gm in
   Ok (grad_user, grad_movie)).

(** ** The dtype of the key columns *)

(** A [DataFrame nat] stands for a frame whose key columns are integer
    arrays. The arrays [proc_col] builds with [np.array([...])] are integer
    arrays when the column has a row, but [np.array([])] is a float64
    array. numpy takes an integer array as an index and raises IndexError
    for a float64 one; scipy casts the coordinates it is given to its index
    type. The functions below are the functions above on a frame that comes
    with the dtypes of its two key columns. *)
Inductive dtype :=
| Int64
| Float64.

(** The dtype of [np.array(l)] for a list [l] of Python ints. *)
Definition np_array_dtype (l : list nat) : dtype :=
  match l with
  | [] => Float64
  | _ :: _ => Int64
  end.

Record keyed_frame := mk_keyed {
  kf_frame : DataFrame nat;
  kf_user : dtype;
  kf_movie : dtype
}.

(** [a[idx]] for an index array of dtype [dt]. *)
Definition gather_dt (dt : dtype) (a : ndarray) (idx : list nat)
  : result ndarray :=
  match dt with
  | Int64 => gather a idx
  | Float64 => Err IndexError
  end.

Definition predictions_dt (kf : keyed_frame) (emb_user emb_movie : ndarray)
  : result (list float) :=
  gu ←r gather_dt (kf_user kf) emb_user (userId (kf_frame kf));
  gm ←r gather_dt (kf_movie kf) emb_movie (movieId (kf_frame kf));
  prod ←r ew fmul gu gm;
  Ok (sum_axis1 prod).

(** [df[name] = c]: the key columns and their dtypes stay. *)
Definition kf_set_column (kf : keyed_frame) (name : string) (c : list float)
  : keyed_frame :=
  mk_keyed (set_column (kf_frame kf) name c) (kf_user kf) (kf_movie kf).

Definition sparse_multiply_dt (kf : keyed_frame)
    (emb_user emb_movie : ndarray) : keyed_frame * result csc_matrix :=
  match predictions_dt kf emb_user emb_movie with
  | Err e => (kf, Err e)
  | Ok pred =>
      let kf' := kf_set_column kf "Prediction" pred in
      (kf', df2matrix (kf_frame kf') (shape0 emb_user) (shape0 emb_movie)
              "Prediction")
  end.

Definition cost_dt (kf : option keyed_frame) (emb_user emb_movie : ndarray)
  : option keyed_frame * result (option float) :=
  match kf with
  | None => (None, Ok None)
  | Some kf =>
      match df2matrix (kf_frame kf) (shape0 emb_user) (shape0 emb_movie)
              "rating" with
      | Err e => (Some kf, Err e)
      | Ok df_rating =>
          let '(kf', r) := sparse_multiply_dt kf emb_user emb_movie in
          (Some kf',
           df_pred ←r r;
           let N := nnz df_rating in
           diff ←r sp_sub df_rating df_pred;
           Ok (Some (fdiv (sp_sum (sp_power diff 2)) (of_nat N))))
      end
  end.

Definition gradient_dt (kf : keyed_frame) (Y : csc_matrix)
    (emb_user emb_movie : ndarray)
  : keyed_frame * result (ndarray * ndarray) :=
  let N := nnz Y in
  let '(kf', r) := sparse_multiply_dt kf emb_user emb_movie in
  (kf',
   pred ←r r;
   d1 ←r sp_sub Y pred;
   gu ←r sp_matmul (sp_scale (Fin (zq (-2))) d1) emb_movie;
   let grad_user := amap (λ x, fdiv x (of_nat N)) gu in
   d2 ←r sp_sub Y pred;
   gm ←r sp_matmul (sp_scale (Fin (zq (-2))) (sp_transpose d2)) emb_user;
   let grad_movie := amap (λ x, fdiv x (of_nat N)) gm in
   Ok (grad_user, grad_movie)).

Section encoder_dtype.
Context `{Countable K}.

(** [encode_data] with the dtypes of the two arrays that [proc_col]
    returns. *)
Definition encode_data_dt (df : DataFrame K)
  : result (keyed_frame * nat * nat) :=
  u ←r proc_col (userId df);
  m ←r proc_col (movieId df);
  Ok (mk_keyed (mk_df u.1.2 m.1.2 (columns df))
        (np_array_dtype u.1.2) (np_array_dtype m.1.2),
      u.2, m.2).

End encoder_dtype.

(** ** The trainer *)

(** The variables of the loop of [gradient_descent], the two frames the
    calls write to (taken to be two objects), and what was printed. When an
    exception leaves the function its local variables are gone: of the
    state returned next to an [Err] only the frames and the output are
    what a caller can see. *)
Record gd_state := mk_gd {
  st_df : DataFrame nat;
  st_val : option (DataFrame nat);
  st_user : ndarray;
  st_movie : ndarray;
  st_v_user : value;
  st_v_movie : value;
  st_out : list (nat * option float * option float)
}.

Definition beta : float := Fin (Q2Qc (9 # 10)).

(** One pass through the loop body, for the counter [i]. *)
Definition gd_body (Y : csc_matrix) (learning_rate : float) (s : gd_state)
    (i : nat) : gd_state * result unit :=
  let '(df1, g) := gradient (st_df s) Y (st_user s) (st_movie s) in
  let s1 := mk_gd df1 (st_val s) (st_user s) (st_movie s)
                  (st_v_user s) (st_v_movie s) (st_out s) in
  match g with
  | Err e => (s1, Err e)
  | Ok (grad_user, grad_movie) =>
      let upd :=
        v_user ←r vadd (vscale beta (st_v_user s))
                       (amap (fmul (fsub (Fin 1) beta)) grad_user);
        v_movie ←r vadd (vscale beta (st_v_movie s))
                        (amap (fmul (fsub (Fin 1) beta)) grad_movie);
        emb_user ←r asub (st_user s) (vscale learning_rate (Array v_user));
        emb_movie ←r asub (st_movie s) (vscale learning_rate (Array v_movie));
        Ok (v_user, v_movie, emb_user, emb_movie) in
      match upd with
      | Err e => (s1, Err e)
      | Ok (v_user, v_movie, emb_user, emb_movie) =>
          let s2 := mk_gd df1 (st_val s) emb_user emb_movie
                          (Array v_user) (Array v_movie) (st_out s) in
          if decide (i mod 50 = 0) then
            let '(df2, c) := cost (Some df1) emb_user emb_movie in
            let s3 := mk_gd (default df1 df2) (st_val s) emb_user emb_movie
                            (Array v_user) (Array v_movie) (st_out s) in
            match c with
            | Err e => (s3, Err e)
            | Ok c_train =>
                let '(val2, cv) := cost (st_val s) emb_user emb_movie in
                match cv with
                | Err e =>
                    (mk_gd (default df1 df2) val2 emb_user emb_movie
                           (Array v_user) (Array v_movie) (st_out s), Err e)
                | Ok c_val =>
                    (mk_gd (default df1 df2) val2 emb_user emb_movie
                           (Array v_user) (Array v_movie)
                           (st_out s ++ [(i, c_train, c_val)]), Ok ())
                end
            end
          else (s2, Ok ())
      end
  end.

(** [for i in range(iterations)]: the body runs for each counter in turn
    and an exception leaves the loop. *)
Fixpoint gd_loop (Y : csc_matrix) (learning_rate : float) (s : gd_state)
    (range : list nat) : gd_state * result unit :=
  match range with
  | [] => (s, Ok ())
  | i :: range' =>
      match gd_body Y learning_rate s i with
      | (s', Ok _) => gd_loop Y learning_rate s' range'
      | (s', Err e) => (s', Err e)
      end
  end.

(** [gradient_descent] *)
Definition gradient_descent (df : DataFrame nat) (emb_user emb_movie : ndarray)
    (iterations : nat) (learning_rate : float)
    (df_val : option (DataFrame nat))
  : gd_state * result (ndarray * ndarray) :=
  let s0 := mk_gd df df_val emb_user emb_movie
                  (Scalar (Fin 0)) (Scalar (Fin 0)) [] in
  match df2matrix df (shape0 emb_user) (shape0 emb_movie) "rating" with
  | Err e => (s0, Err e)
  | Ok Y =>
      let '(s, r) := gd_loop Y learning_rate s0 (seq 0 iterations) in
      (s, _ ←r r; Ok (st_user s, st_movie s))
  end.

(** ** Notions used in the statements *)

(** *** Tables *)

(** The (user, item) pairs of a table, and its triples for a column of
    values. *)
Definition pairs (df : DataFrame nat) : list (nat * nat) :=
  zip (userId df) (movieId df).

Definition triples (df : DataFrame nat) (values : list float)
  : list (nat * nat * float) :=
  zip (pairs df) values.

(** Every index of the table is below its bound. *)
Definition in_range (df : DataFrame nat) (nrows ncols : nat) : Prop :=
  (∀ i, i ∈ userId df → i < nrows) ∧ (∀ j, j ∈ movieId df → j < ncols).

(** The values of the triples at a position, in the order of the rows. *)
Definition values_at (p : nat * nat) (es : list (nat * nat * float))
  : list float :=
  (filter (λ e, e.1 = p) es).*2.

(** *** Arrays *)

(** The dot product of two rows. *)
Definition dot (u v : list float) : float :=
  foldl fadd (Fin 0) (zip_with fmul u v).

(** [a] is an [n] by [k] array. *)
Definition has_shape (a : ndarray) (n k : nat) : Prop :=
  shape0 a = n ∧ ncol a = k ∧ array_wf a.

(** The cells of two arrays of one shape, paired by [f]. *)
Definition zip_cells (f : float → float → float) (a b : ndarray) : ndarray :=
  mk_ndarray (ncol a) (zip_with (zip_with f) (data a) (data b)).

(** *** The writes to a frame *)

(** Between [df] and [df'] no column but ["Prediction"] differs. *)
Definition only_prediction_changed (df df' : DataFrame nat) : Prop :=
  userId df' = userId df ∧ movieId df' = movieId df
  ∧ ∀ name, name ≠ "Prediction" → columns df' !! name = columns df !! name.

(** [df'] holds the dot products of [df] in its column ["Prediction"]. *)
Definition prediction_written (df df' : DataFrame nat) (U V : ndarray) : Prop :=
  ∃ pred, predictions df U V = Ok pred
          ∧ columns df' !! "Prediction" = Some pred.

(** *** Exact arithmetic *)

(** Exact sums and dot products of rationals. *)
Definition qsum (l : list Qc) : Qc := foldr Qcplus 0%Qc l.

Definition qdot (u v : list Qc) : Qc := qsum (zip_with Qcmult u v).

(** The sum of a list of floats. *)
Definition fsum (l : list float) : float := foldr fadd (Fin 0) l.

(** The array of a list of rows of rationals, and its rows and cells. *)
Definition qarray (k : nat) (rows : list (list Qc)) : ndarray :=
  mk_ndarray k (map Fin <$> rows).

Definition qrow (a : list (list Qc)) (i : nat) : list Qc :=
  default [] (a !! i).

Definition qcell (a : list (list Qc)) (i k : nat) : Qc :=
  default 0%Qc (qrow a i !! k).

(** The rational a stored entry stands for, zero for an absent entry. *)
Definition qv (o : option float) : Qc :=
  match o with
  | Some (Fin q) => q
  | _ => 0%Qc
  end.

(** The residual [Y - P] at a position. *)
Definition residual (Y P : csc_matrix) (i j : nat) : Qc :=
  (qv (stored Y !! (i, j)) - qv (stored P !! (i, j)))%Qc.

(** All stored entries of a map are finite. *)
Definition finite_map (M : gmap (nat * nat) float) : Prop :=
  ∀ p v, M !! p = Some v → ∃ q, v = Fin q.

(** The exact prediction at a pair, and the column of them for a table. *)
Definition qpred (Uq Vq : list (list Qc)) (p : nat * nat) : Qc :=
  qdot (qrow Uq p.1) (qrow Vq p.2).

Definition qpreds (df : DataFrame nat) (Uq Vq : list (list Qc)) : list Qc :=
  qpred Uq Vq <$> pairs df.

(** The squared error of one row (user, item, rating). *)
Definition sq_error (Uq Vq : list (list Qc)) (t : nat * nat * Qc) : Qc :=
  let e := (t.2 - qpred Uq Vq t.1)%Qc in (e * e)%Qc.

(** *** The trainer *)

(** The momentum update [0.9 v + 0.1 g] of a velocity, which is a number
    (that every cell of [g] meets) or an array of the shape of [g]. *)
Definition momentum (v : value) (g : ndarray) : ndarray :=
  let mix x c := fadd (fmul (Fin (Q2Qc (9 # 10))) x)
                      (fmul (Fin (Q2Qc (1 # 10))) c) in
  match v with
  | Scalar x => amap (mix x) g
  | Array a => zip_cells mix a g
  end.

(** The descent update [e - η v] of an embedding. *)
Definition descend (η : float) (e v : ndarray) : ndarray :=
  zip_cells (λ x c, fsub x (fmul η c)) e v.

(** One transition of the trainer on (U, V, v_U, v_V): the gradients of the
    table against the matrix [Y], then the two momentum updates, then the
    two descent updates. *)
Inductive momentum_step (df : DataFrame nat) (Y : csc_matrix) (η : float)
  : ndarray * ndarray * value * value → ndarray * ndarray * value * value
    → Prop :=
| momentum_step_intro U V vU vV gU gV :
    (gradient df Y U V).2 = Ok (gU, gV) →
    momentum_step df Y η (U, V, vU, vV)
      (descend η U (momentum vU gU), descend η V (momentum vV gV),
       Array (momentum vU gU), Array (momentum vV gV)).

(** The velocity of the program is an array of the shape of its
    embedding, or the number it starts as. *)
Definition velocity_ok (v : value) (n k : nat) : Prop :=
  match v with
  | Scalar _ => True
  | Array a => has_shape a n k
  end.

(** What holds of the variables of the loop before each pass: the frame
    keeps its key columns and its ratings, the embeddings keep their shapes,
    and a validation frame stays in range. *)
Definition trainer_inv (df : DataFrame nat) (n m k : nat) (s : gd_state)
  : Prop :=
  df_wf (st_df s)
  ∧ userId (st_df s) = userId df ∧ movieId (st_df s) = movieId df
  ∧ is_Some (columns (st_df s) !! "rating")
  ∧ has_shape (st_user s) n k ∧ has_shape (st_movie s) m k
  ∧ velocity_ok (st_v_user s) n k ∧ velocity_ok (st_v_movie s) m k
  ∧ ∀ dv, st_val s = Some dv →
      df_wf dv ∧ in_range dv n m ∧ is_Some (columns dv !! "rating").

(** The embeddings and velocities of a state of the loop. *)
Definition gd_view (s : gd_state) : ndarray * ndarray * value * value :=
  (st_user s, st_movie s, st_v_user s, st_v_movie s).

(** ** Sample inputs *)

(** Sample tables. *)
Definition fz (z : Z) : float := Fin (zq z).

Definition df_two : DataFrame nat :=
  mk_df [0; 1] [0; 1] {[ "rating" := [fz 5; fz 3] ]}.

Definition df_dup : DataFrame nat :=
  mk_df [0; 0] [0; 0] {[ "rating" := [fz 5; fz 3] ]}.

Definition df_empty : DataFrame nat := mk_df [] [] {[ "rating" := [] ]}.

(** Sample embeddings: the 2 by 2 identity. *)
Definition eye2 : ndarray := mk_ndarray 2 [[fz 1; fz 0]; [fz 0; fz 1]].

(** Sample embeddings: one user, one item, one factor of value 1. *)
Definition one1 : ndarray := mk_ndarray 1 [[fz 1]].

(** A training table with the users u1, u2 and a validation table with a
    row of the user u3. *)
Definition df_train_s : DataFrame string :=
  mk_df ["u1"; "u2"] ["m1"; "m2"] {[ "rating" := [fz 4; fz 2] ]}.

Definition df_val_s : DataFrame string :=
  mk_df ["u3"; "u1"] ["m1"; "m1"] {[ "rating" := [fz 1; fz 5] ]}.

(** ** Further notions and sample inputs *)

(** The cells of an encoded validation column that are codes below [n]. *)
Definition codes_below {K} (n : nat) (s : list (K + nat)) : Prop :=
  ∀ q, q ∈ s → ∃ i, q = inr i ∧ i < n.

(** The cells of a validation column that are raw keys, each one a key of
    the training column. *)
Definition raw_keys_of {K} (train : list K) (s : list (K + nat)) : Prop :=
  ∀ q, q ∈ s → ∃ k, q = inl k ∧ k ∈ train.

(** A float that is not negative: a number that is zero or more, the
    positive infinity, or NaN (which is on neither side of zero). *)
Definition not_negative (x : float) : Prop :=
  match x with
  | Fin q => (0 <= q)%Qc
  | Inf neg => neg = false
  | NaN => True
  end.

(** What one printed line of the trainer holds for a validation frame
    [df_val]: a training cost, and a validation cost exactly when there is a
    validation frame. *)
Definition report_ok (df_val : option (DataFrame nat))
    (e : nat * option float * option float) : Prop :=
  is_Some e.1.2 ∧ (is_Some e.2 ↔ is_Some df_val).

(** [np.zeros((n, k))] *)
Definition zeros (n k : nat) : ndarray :=
  mk_ndarray k (replicate n (replicate k (Fin 0))).

(** A velocity that is zero: the number 0 or an array of zeros. *)
Definition zero_velocity (v : value) (n k : nat) : Prop :=
  v = Scalar (Fin 0) ∨ v = Array (zeros n k).

(** Further sample inputs: a 2 by 3 array, a frame without ratings, and a
    table that the identity embeddings fit. *)
Definition wide2 : ndarray :=
  mk_ndarray 3 [[fz 1; fz 0; fz 0]; [fz 0; fz 1; fz 0]].

Definition df_norating : DataFrame nat := mk_df [0] [0] ∅.

(** The empty table as [encode_data] leaves it: no row, float64 keys. *)
Definition kf_empty : keyed_frame := mk_keyed df_empty Float64 Float64.

Definition df_fit : DataFrame nat :=
  mk_df [0; 1] [0; 1] {[ "rating" := [fz 1; fz 1] ]}.

(** ** The finite difference *)

(** [np.zeros_like(a)] *)
Definition zeros_like (a : ndarray) : ndarray := zeros (shape0 a) (ncol a).

(** [row[k] = e] on a row of an array. An index that is None is numpy's
    new axis: the assignment then reaches every cell of the row. *)
Definition poke_row (row : list float) (k : option nat) (e : float)
  : result (list float) :=
  match k with
  | Some c =>
      if decide (c < length row) then Ok (<[c := e]> row) else Err IndexError
  | None => Ok (replicate (length row) e)
  end.

(** [a[i][k] = e]. [a[i]] is a view of row [i]; for [i] None it is a view
    of the whole array under a new first axis of length 1, for which the
    only index in bounds is 0. *)
Definition poke (a : ndarray) (i k : option nat) (e : float)
  : result ndarray :=
  match i with
  | Some r =>
      row ←r of_option IndexError (data a !! r);
      row' ←r poke_row row k e;
      Ok (mk_ndarray (ncol a) (<[r := row']> (data a)))
  | None =>
      match k with
      | Some (S _) => Err IndexError
      | _ => Ok (amap (λ _, e) a)
      end
  end.

(** The step [e = 0.000000001]. *)
Definition fd_step : Qc := Q2Qc (1 # 1000000000).

(** The arguments [emb_user + x] and [emb_movie + y] of the second call of
    [cost]: one cell of [x], or else of [y], holds [e]. *)
Definition perturbed (emb_user emb_movie : ndarray)
    (ind_u ind_m k : option nat) (e : float) : result (ndarray * ndarray) :=
  let x := zeros_like emb_user in
  let y := zeros_like emb_movie in
  xy ←r match ind_u with
        | Some _ => x' ←r poke x ind_u k e; Ok (x', y)
        | None => y' ←r poke y ind_m k e; Ok (x, y')
        end;
  eu ←r ew fadd emb_user xy.1;
  em ←r ew fadd emb_movie xy.2;
  Ok (eu, em).

(** [finite_difference] on a frame: returns the frame as the two calls of
    [cost] leave it, and the result. The cost of a frame is a float, never
    None, so the branches for None are not taken. *)
Definition finite_difference (df : DataFrame nat)
    (emb_user emb_movie : ndarray) (ind_u ind_m k : option nat)
  : DataFrame nat * result float :=
  let e := Fin fd_step in
  match cost (Some df) emb_user emb_movie with
  | (Some df1, Ok (Some c1)) =>
      match perturbed emb_user emb_movie ind_u ind_m k e with
      | Err ex => (df1, Err ex)
      | Ok (eu, em) =>
          match cost (Some df1) eu em with
          | (Some df2, Ok (Some c2)) => (df2, Ok (fdiv (fsub c2 c1) e))
          | (Some df2, Err ex) => (df2, Err ex)
          | (_, _) => (df1, Err ShapeMismatch)
          end
      end
  | (Some df1, Err ex) => (df1, Err ex)
  | (_, _) => (df, Err ShapeMismatch)
  end.

(** The rows [a] with [e] added to the cell ([i], [f]). *)
Definition bump (a : list (list Qc)) (i f : nat) (e : Qc) : list (list Qc) :=
  <[i := <[f := (qcell a i f + e)%Qc]> (qrow a i)]> a.

(** The indices [a[i][f]] that are in bounds for an [n] by [k] array. *)
Definition poke_in_bounds (n k : nat) (i f : option nat) : Prop :=
  match i, f with
  | Some r, Some c => r < n ∧ c < k
  | Some r, None => r < n
  | None, Some c => c = 0
  | None, None => True
  end.

(** The indices that [finite_difference] can use on embeddings of [n]
    users and [m] items with [k] factors. *)
Definition fd_in_bounds (n m k : nat) (ind_u ind_m f : option nat) : Prop :=
  match ind_u with
  | Some _ => poke_in_bounds n k ind_u f
  | None => poke_in_bounds m k ind_m f
  end.

(** * Properties *)

(** ** The ID encoder *)

Section encoder_facts.
Context `{Countable K}.
Implicit Types (seen : gset K) (col pre post l : list K) (d m : gmap K nat).

Lemma elem_of_unique_from seen col x :
  x ∈ unique_from seen col ↔ x ∈ col ∧ x ∉ seen.
Proof.
  revert seen. induction col as [|y col IH]; intros seen; simpl.
  - rewrite elem_of_nil. set_solver.
  - destruct (decide (y ∈ seen)).
    + rewrite IH. set_solver.
    + rewrite elem_of_cons, IH. destruct (decide (x = y)); set_solver.
Qed.

Lemma unique_elem col x : x ∈ unique col ↔ x ∈ col.
Proof. unfold unique. rewrite elem_of_unique_from. set_solver. Qed.

Lemma NoDup_unique_from seen col : NoDup (unique_from seen col).
Proof.
  revert seen. induction col as [|y col IH]; intros seen; simpl.
  - constructor.
  - destruct (decide (y ∈ seen)); [apply IH|].
    constructor; [|apply IH].
    rewrite elem_of_unique_from. set_solver.
Qed.

Lemma length_unique_from seen col :
  length (unique_from seen col) = size (list_to_set col ∖ seen : gset K).
Proof.
  revert seen. induction col as [|y col IH]; intros seen; cbn [unique_from].
  - rewrite list_to_set_nil.
    assert (∅ ∖ seen = (∅ : gset K)) as -> by set_solver.
    by rewrite size_empty.
  - rewrite list_to_set_cons. destruct (decide (y ∈ seen)).
    + rewrite IH. f_equal. set_solver.
    + cbn [length]. rewrite IH.
      assert (({[y]} ∪ list_to_set col) ∖ seen
              = ({[y]} ∪ (list_to_set col ∖ ({[y]} ∪ seen)) : gset K)) as ->.
      { apply set_eq. intros z. destruct (decide (z = y)); set_solver. }
      rewrite (size_union (C:=gset K) {[y]}) by set_solver.
      by rewrite size_singleton.
Qed.

Lemma length_unique col : length (unique col) = size (list_to_set col : gset K).
Proof.
  unfold unique. rewrite length_unique_from. f_equal. set_solver.
Qed.

Lemma unique_from_app seen pre post :
  unique_from seen (pre ++ post)
  = unique_from seen pre ++ unique_from (list_to_set pre ∪ seen) post.
Proof.
  revert seen. induction pre as [|y pre IH]; intros seen; simpl.
  - f_equal. set_solver.
  - destruct (decide (y ∈ seen)).
    + rewrite IH. do 2 f_equal. set_solver.
    + simpl. rewrite IH. do 3 f_equal. set_solver.
Qed.

(** The position of a key in [unique col] is the number of distinct keys
    that occur before its first occurrence in [col]. *)
Lemma unique_first_occurrence pre k post :
  k ∉ pre →
  unique (pre ++ k :: post) !! size (list_to_set pre : gset K) = Some k.
Proof.
  intros Hk. rewrite <- length_unique. unfold unique.
  rewrite unique_from_app. cbn [unique_from].
  rewrite decide_False by set_solver.
  rewrite lookup_app_r by done. by rewrite Nat.sub_diag.
Qed.

Lemma dict_of_go_notin d s l k :
  k ∉ l →
  foldl (λ d p, <[p.2 := p.1]> d) d (zip (seq s (length l)) l) !! k = d !! k.
Proof.
  revert d s. induction l as [|x l IH]; intros d s Hk; simpl; [done|].
  rewrite IH by set_solver. rewrite lookup_insert_ne; [done|set_solver].
Qed.

Lemma dict_of_go_lookup d s l i k :
  NoDup l → l !! i = Some k →
  foldl (λ d p, <[p.2 := p.1]> d) d (zip (seq s (length l)) l) !! k
  = Some (s + i).
Proof.
  revert d s i. induction l as [|x l IH]; intros d s i Hnd Hi; [done|].
  apply NoDup_cons in Hnd as [Hx Hnd]. simpl.
  destruct i as [|i]; simpl in Hi.
  - injection Hi as ->. rewrite dict_of_go_notin by done.
    rewrite lookup_insert_eq. f_equal. lia.
  - rewrite (IH _ _ i) by done. f_equal. lia.
Qed.

(** The dict built from [enumerate l] is the inverse of the lookup in [l]. *)
Lemma dict_of_enumerate_Some l k i :
  NoDup l → (dict_of (enumerate l) !! k = Some i ↔ l !! i = Some k).
Proof.
  intros Hnd. unfold dict_of, enumerate. split.
  - intros Hk. destruct (decide (k ∈ l)) as [Hin|Hin].
    + apply list_elem_of_lookup in Hin as [j Hj].
      rewrite (dict_of_go_lookup _ _ _ j) in Hk by done.
      simpl in Hk. by injection Hk as <-.
    + rewrite dict_of_go_notin in Hk by done. by rewrite lookup_empty in Hk.
  - intros Hi. by rewrite (dict_of_go_lookup _ _ _ i).
Qed.

Lemma translate_ok m col :
  (∀ x, x ∈ col → is_Some (m !! x)) →
  ∃ idx, translate m col = Ok idx ∧ length idx = length col
         ∧ ∀ r k, col !! r = Some k → idx !! r = m !! k.
Proof.
  induction col as [|x col IH]; intros Hdom; simpl.
  - exists []. split_and!; [done..|]. intros r k Hr. done.
  - destruct (Hdom x) as [i Hi]; [set_solver|]. rewrite Hi. simpl.
    destruct IH as (idx & -> & Hlen & Hidx); [set_solver|]. simpl.
    exists (i :: idx). split_and!; [done|simpl; lia|].
    intros [|r] k Hr; simpl in *.
    + injection Hr as <-. done.
    + by apply Hidx.
Qed.

(** What [proc_col] returns, in terms of [unique]. *)
Lemma proc_col_unique col :
  ∃ m idx,
    proc_col col = Ok (m, idx, size (list_to_set col : gset K))
    ∧ (∀ k i, m !! k = Some i ↔ unique col !! i = Some k)
    ∧ length idx = length col
    ∧ (∀ r k, col !! r = Some k → idx !! r = m !! k).
Proof.
  unfold proc_col.
  pose proof (NoDup_unique_from ∅ col) as Hnd. fold (unique col) in Hnd.
  destruct (translate_ok (dict_of (enumerate (unique col))) col)
    as (idx & Hidx & Hlen & Htr).
  { intros x Hx. apply unique_elem in Hx.
    apply list_elem_of_lookup in Hx as [i Hi].
    exists i. by apply dict_of_enumerate_Some. }
  exists (dict_of (enumerate (unique col))), idx.
  rewrite Hidx. simpl. split_and!;
    [|intros k i; by apply dict_of_enumerate_Some|done..].
  by rewrite length_unique.
Qed.

(** The keys of the map are the keys of the column. *)
Lemma proc_col_keys col :
  ∃ m idx,
    proc_col col = Ok (m, idx, size (list_to_set col : gset K))
    ∧ ∀ k, is_Some (m !! k) ↔ k ∈ col.
Proof.
  destruct (proc_col_unique col) as (m & idx & Hp & Hm & _).
  exists m, idx. split; [done|].
  intros k. rewrite <- unique_elem, list_elem_of_lookup.
  split; intros [i Hi]; exists i; by apply Hm.
Qed.

(** C7. For every sequence of raw keys, [proc_col] returns without an
    exception (a) a map that sends the key first seen after [pre] to the
    number of distinct keys of [pre] (first-occurrence order from 0), whose
    keys are the keys of the sequence, and that gives no index to two keys;
    (b) the sequence translated through the map; (c) the number of distinct
    keys. A second call on an equal sequence returns the same three. *)
Theorem proc_col_first_occurrence_order col :
  ∃ name2idx idx,
    proc_col col = Ok (name2idx, idx, size (list_to_set col : gset K))
    ∧ (∀ pre k post, col = pre ++ k :: post → k ∉ pre →
         name2idx !! k = Some (size (list_to_set pre : gset K)))
    ∧ (∀ k, is_Some (name2idx !! k) ↔ k ∈ col)
    ∧ (∀ k1 k2 i, name2idx !! k1 = Some i → name2idx !! k2 = Some i → k1 = k2)
    ∧ (∀ k i, name2idx !! k = Some i → i < size (list_to_set col : gset K))
    ∧ length idx = length col
    ∧ (∀ r k, col !! r = Some k → idx !! r = name2idx !! k)
    ∧ (∀ col', col' = col →
         proc_col col' = Ok (name2idx, idx, size (list_to_set col : gset K))).
Proof.
  destruct (proc_col_unique col) as (m & idx & Hp & Hm & Hlen & Htr).
  exists m, idx. split_and!; [done| | | | |done|done|by intros ? ->].
  - intros pre k post -> Hk. apply Hm. by apply unique_first_occurrence.
  - intros k. rewrite <- unique_elem, list_elem_of_lookup.
    split; intros [i Hi]; exists i; by apply Hm.
  - intros k1 k2 i H1 H2. apply Hm in H1, H2. congruence.
  - intros k i Hk. apply Hm in Hk. apply lookup_lt_Some in Hk.
    by rewrite length_unique in Hk.
Qed.

End encoder_facts.

(** ** Encoding a validation frame *)

Section select_facts.
Context {A B : Type}.

Lemma select_fmap (f : A → B) mask (l : list A) :
  select mask (f <$> l) = f <$> select mask l.
Proof.
  revert l. induction mask as [|b mask IH]; intros [|x l]; simpl; try done.
  destruct b; simpl; by rewrite IH.
Qed.

Lemma select_filter (P : A → Prop) `{!∀ x, Decision (P x)} (l : list A) :
  select ((λ x, bool_decide (P x)) <$> l) l = filter P l.
Proof.
  induction l as [|x l IH]; [done|].
  rewrite filter_cons, fmap_cons. cbn [select].
  destruct (decide (P x)).
  - rewrite bool_decide_eq_true_2 by done. by rewrite IH.
  - rewrite bool_decide_eq_false_2 by done. by rewrite IH.
Qed.

End select_facts.

Section encode_new_data_facts.
Context `{Countable K}.
Implicit Types (d : gmap K nat) (us ms : list K).

Lemma mask_zip d1 d2 us ms :
  zip_with andb (isin us d1) (isin ms d2)
  = (λ p, bool_decide (is_Some (d1 !! p.1) ∧ is_Some (d2 !! p.2)))
      <$> zip us ms.
Proof.
  revert ms. induction us as [|u us IH]; intros [|m ms]; simpl; try done.
  rewrite <- IH. f_equal.
  destruct (decide (is_Some (d1 !! u))), (decide (is_Some (d2 !! m)));
    rewrite ?(bool_decide_eq_true_2 (is_Some (d1 !! u))),
            ?(bool_decide_eq_false_2 (is_Some (d1 !! u))),
            ?(bool_decide_eq_true_2 (is_Some (d2 !! m))),
            ?(bool_decide_eq_false_2 (is_Some (d2 !! m))) by done;
    simpl; symmetry;
    (apply bool_decide_eq_true_2 || apply bool_decide_eq_false_2); tauto.
Qed.

Lemma replace_zip_filtered (p : pandas) d1 d2 (ps : list (K * K)) :
  Forall (λ pr, is_Some (d1 !! pr.1) ∧ is_Some (d2 !! pr.2)) ps →
  Forall2 (λ pr q, ∃ i j, d1 !! pr.1 = Some i ∧ d2 !! pr.2 = Some j
                          ∧ q = match p with
                                | WriteThrough => (inr i, inr j)
                                | CopyOnWrite => (inl pr.1, inl pr.2)
                                end)
    ps (zip (replace_inplace p d1 ps.*1) (replace_inplace p d2 ps.*2)).
Proof.
  induction 1 as [|pr ps [[i Hi] [j Hj]] _ IH]; destruct p; simpl in *;
    constructor; try done; exists i, j; by rewrite ?Hi, ?Hj.
Qed.

(** Encoding a validation frame against a training frame raises no
    exception; its rows are the validation rows whose user key and movie key
    both occur in the training frame, in order, and each float column keeps
    the cells of those rows. Where the in-place replace writes through,
    each key is replaced by the index the training map gives it; under
    copy-on-write each key is left as it is. Either way a row of a user that
    the training frame does not have is not in the result. *)
Lemma encode_new_data_rows (p : pandas) (df_val df_train : DataFrame K) :
  df_wf df_val →
  let seen := λ pr : K * K,
                pr.1 ∈ userId df_train ∧ pr.2 ∈ movieId df_train in
  ∃ user2idx uidx nu mov2idx midx nm df_train' df_val',
    proc_col (userId df_train) = Ok (user2idx, uidx, nu)
    ∧ proc_col (movieId df_train) = Ok (mov2idx, midx, nm)
    ∧ encode_new_data p df_val df_train = Ok (df_train', df_val')
    ∧ Forall2 (λ pr q, ∃ i j, user2idx !! pr.1 = Some i
                              ∧ mov2idx !! pr.2 = Some j
                              ∧ q = match p with
                                    | WriteThrough => (inr i, inr j)
                                    | CopyOnWrite => (inl pr.1, inl pr.2)
                                    end)
        (filter seen (zip (userId df_val) (movieId df_val)))
        (zip (userId df_val') (movieId df_val'))
    ∧ length (userId df_val')
      = length (filter seen (zip (userId df_val) (movieId df_val)))
    ∧ length (movieId df_val') = length (userId df_val')
    ∧ (∀ name,
         columns df_val' !! name
         = (λ c, (filter (λ t, seen t.1)
                    (zip (zip (userId df_val) (movieId df_val)) c)).*2)
             <$> columns df_val !! name)
    ∧ (∀ u q, u ∉ userId df_train → q ∈ userId df_val' → q ≠ inl u).
Proof.
  intros [Hlen Hcols] seen.
  destruct (proc_col_keys (userId df_train)) as (d1 & uidx & Hp1 & Hd1).
  destruct (proc_col_keys (movieId df_train)) as (d2 & midx & Hp2 & Hd2).
  eexists d1, uidx, _, d2, midx, _, _, _.
  split; [exact Hp1|]. split; [exact Hp2|].
  unfold encode_new_data. rewrite Hp1, Hp2. simpl.
  split; [reflexivity|]. simpl.
  set (ps := zip (userId df_val) (movieId df_val)).
  assert (Hmask : zip_with andb (isin (userId df_val) d1)
                                (isin (movieId df_val) d2)
                  = (λ pr, bool_decide (seen pr)) <$> ps).
  { rewrite mask_zip. apply list_fmap_ext. intros _ pr _.
    apply bool_decide_ext. unfold seen. by rewrite Hd1, Hd2. }
  rewrite Hmask.
  assert (Hus : select ((λ pr, bool_decide (seen pr)) <$> ps) (userId df_val)
                = (filter seen ps).*1).
  { rewrite <- (select_filter seen ps), <- select_fmap.
    unfold ps. by rewrite fst_zip by lia. }
  assert (Hms : select ((λ pr, bool_decide (seen pr)) <$> ps) (movieId df_val)
                = (filter seen ps).*2).
  { rewrite <- (select_filter seen ps), <- select_fmap.
    unfold ps. by rewrite snd_zip by lia. }
  rewrite Hus, Hms.
  assert (Hall : Forall (λ pr, is_Some (d1 !! pr.1) ∧ is_Some (d2 !! pr.2))
                        (filter seen ps)).
  { apply Forall_forall. intros pr [Hpr _]%list_elem_of_filter.
    unfold seen in Hpr. by rewrite Hd1, Hd2. }
  assert (Hlr : ∀ d (l : list K), length (replace_inplace p d l) = length l).
  { intros d l. destruct p; simpl; [unfold replace|]; by rewrite length_fmap. }
  split_and!.
  - by apply replace_zip_filtered.
  - by rewrite Hlr, length_fmap.
  - by rewrite !Hlr, !length_fmap.
  - intros name. rewrite lookup_fmap.
    destruct (columns df_val !! name) as [c|] eqn:Hc; simpl; [|done].
    f_equal. specialize (Hcols _ _ Hc). simpl in Hcols.
    assert (length ps = length c) as Hpc.
    { unfold ps. rewrite length_zip. lia. }
    rewrite <- (snd_zip ps c) at 1 by lia.
    rewrite select_fmap. f_equal.
    rewrite <- (select_filter (λ t, seen t.1) (zip ps c)).
    f_equal. rewrite <- (fst_zip ps c) at 1 by lia.
    rewrite <- list_fmap_compose. done.
  - intros u q Hu Hq.
    assert (∃ u', u' ∈ userId df_train
                  ∧ (q = inl u' ∨ ∃ i, q = inr i)) as (u' & Hu' & Hq').
    { destruct p; simpl in Hq; [unfold replace in Hq|];
        apply list_elem_of_fmap in Hq as (u' & -> & Hq);
        apply list_elem_of_fmap in Hq as (pr & -> & Hpr);
        apply list_elem_of_filter in Hpr as [[Hpr1 _] _];
        exists pr.1; (split; [done|]).
      - apply Hd1 in Hpr1 as [i Hi]. rewrite Hi. right. by exists i.
      - by left. }
    destruct Hq' as [->|[i ->]]; [|done].
    intros [= <-]. by apply Hu.
Qed.

End encode_new_data_facts.

(** C8, at a concrete input: the training users u1, u2 and items m1, m2,
    and the validation rows (u3, m1, 1) and (u1, m1, 5). In both cases the
    row of the unseen user u3 is dropped and no exception is raised. Where
    the in-place replace writes through (before pandas 3) the kept row
    comes back with the training codes (0, 0); under copy-on-write
    (pandas 3) it comes back with its raw keys (u1, m1), not encoded as the
    docstring of [encode_new_data] says. *)
Theorem encode_new_data_keys_by_pandas :
  encode_new_data CopyOnWrite df_val_s df_train_s
  = Ok (mk_df [0; 1] [0; 1] {[ "rating" := [fz 4; fz 2] ]},
        mk_df [inl "u1"] [inl "m1"] {[ "rating" := [fz 5] ]})
  ∧ encode_new_data WriteThrough df_val_s df_train_s
    = Ok (mk_df [0; 1] [0; 1] {[ "rating" := [fz 4; fz 2] ]},
          mk_df [inr 0] [inr 0] {[ "rating" := [fz 5] ]}).
Proof. split; reflexivity. Qed.

(** ** Floats *)

Lemma qzero_true q : qzero q = true ↔ q = 0%Qc.
Proof.
  unfold qzero. rewrite Qeq_bool_iff. split.
  - intros Hq. apply Qc_is_canon. exact Hq.
  - by intros ->.
Qed.

Lemma fadd_comm x y : fadd x y = fadd y x.
Proof.
  destruct x as [a|[]|], y as [b|[]|]; simpl; try done.
  f_equal. ring.
Qed.

Lemma fadd_assoc x y z : fadd (fadd x y) z = fadd x (fadd y z).
Proof.
  destruct x as [a|[]|], y as [b|[]|], z as [c|[]|]; simpl; try done.
  f_equal. ring.
Qed.

Lemma fadd_0_l x : fadd (Fin 0) x = x.
Proof. destruct x as [a| |]; simpl; try done. f_equal. ring. Qed.

Lemma fadd_0_r x : fadd x (Fin 0) = x.
Proof. by rewrite fadd_comm, fadd_0_l. Qed.

(** ** The sparse matrix builder *)

Section builder_facts.
Implicit Types (m : gmap (nat * nat) float) (p : nat * nat)
  (es : list (nat * nat * float)).

Lemma values_at_cons p e es :
  values_at p (e :: es)
  = if decide (e.1 = p) then e.2 :: values_at p es else values_at p es.
Proof.
  unfold values_at. rewrite filter_cons. by destruct (decide (e.1 = p)).
Qed.

Lemma lookup_add_entry m e p :
  add_entry m e !! p
  = if decide (e.1 = p)
    then Some (match m !! p with Some x => fadd x e.2 | None => e.2 end)
    else m !! p.
Proof.
  unfold add_entry. destruct (decide (e.1 = p)) as [<-|Hne].
  - by rewrite lookup_partial_alter_eq.
  - by rewrite lookup_partial_alter_ne.
Qed.

(** The entry the build stores at a position: the sum of the values of the
    triples there, none when there is no such triple. *)
Lemma lookup_build m es p :
  foldl add_entry m es !! p
  = match values_at p es with
    | [] => m !! p
    | v :: vs =>
        Some (foldl fadd (match m !! p with Some x => fadd x v | None => v end)
                    vs)
    end.
Proof.
  revert m. induction es as [|e es IH]; intros m; [done|].
  cbn [foldl]. rewrite IH, values_at_cons, !lookup_add_entry.
  destruct (decide (e.1 = p)) as [He|He]; [|done].
  destruct (values_at p es) as [|v vs]; [done|].
  destruct (m !! p); simpl; done.
Qed.

Lemma values_at_nil_iff p es : values_at p es = [] ↔ p ∉ es.*1.
Proof.
  unfold values_at. split.
  - intros Hf%fmap_nil_inv Hin.
    apply list_elem_of_fmap in Hin as (e & -> & He).
    assert (e ∈ filter (λ e0, e0.1 = e.1) es) as Hin
      by by apply list_elem_of_filter.
    rewrite Hf in Hin. by apply elem_of_nil in Hin.
  - intros Hni. destruct (filter _ es) as [|e l] eqn:Hf; [done|].
    exfalso. apply Hni.
    assert (e ∈ filter (λ e0, e0.1 = p) es) as Hin by (rewrite Hf; left).
    apply list_elem_of_filter in Hin as [<- Hin].
    apply list_elem_of_fmap. by exists e.
Qed.

Lemma dom_build es :
  dom (foldl add_entry ∅ es) = (list_to_set es.*1 : gset (nat * nat)).
Proof.
  apply set_eq. intros p. rewrite elem_of_dom, elem_of_list_to_set.
  rewrite lookup_build, lookup_empty.
  destruct (values_at p es) as [|v vs] eqn:Hv.
  - apply values_at_nil_iff in Hv. split; [by intros [? ?]|done].
  - split; [|by eauto]. intros _.
    destruct (decide (p ∈ es.*1)) as [|Hni]; [done|].
    apply values_at_nil_iff in Hni. congruence.
Qed.

Lemma fst_zip3 (rows cols : list nat) (values : list float) :
  length rows = length values → length cols = length values →
  (zip (zip rows cols) values).*1 = zip rows cols.
Proof. intros Hr Hc. apply fst_zip. rewrite length_zip. lia. Qed.

Lemma forallb_lt_true (l : list nat) n :
  forallb (λ i, i <? n) l = true ↔ ∀ i, i ∈ l → i < n.
Proof.
  rewrite forallb_forall. setoid_rewrite list_elem_of_In.
  by setoid_rewrite Nat.ltb_lt.
Qed.

(** When the build succeeds and when it fails with an index out of range. *)
Lemma csc_build_ok values rows cols shp :
  length rows = length values → length cols = length values →
  (∀ i, i ∈ rows → i < shp.1) → (∀ j, j ∈ cols → j < shp.2) →
  csc_build values rows cols shp
  = Ok (mk_csc shp (foldl add_entry ∅ (zip (zip rows cols) values))).
Proof.
  intros Hr Hc Hi Hj. unfold csc_build.
  rewrite bool_decide_eq_true_2 by done. simpl.
  apply (proj2 (forallb_lt_true _ _)) in Hi.
  apply (proj2 (forallb_lt_true _ _)) in Hj. by rewrite Hi, Hj.
Qed.

Lemma csc_build_inv values rows cols shp Y :
  csc_build values rows cols shp = Ok Y →
  length rows = length values ∧ length cols = length values
  ∧ (∀ i, i ∈ rows → i < shp.1) ∧ (∀ j, j ∈ cols → j < shp.2)
  ∧ Y = mk_csc shp (foldl add_entry ∅ (zip (zip rows cols) values)).
Proof.
  unfold csc_build. case_bool_decide as Hlen; simpl; [|done].
  destruct (forallb _ rows) eqn:Hi; simpl; [|done].
  destruct (forallb _ cols) eqn:Hj; simpl; [|done].
  intros [= <-]. pose proof (proj1 (forallb_lt_true _ _) Hi) as Hi'.
  pose proof (proj1 (forallb_lt_true _ _) Hj) as Hj'. naive_solver.
Qed.

Lemma csc_build_out_of_range values rows cols shp :
  length rows = length values → length cols = length values →
  (∃ i, i ∈ rows ∧ shp.1 ≤ i) ∨ (∃ j, j ∈ cols ∧ shp.2 ≤ j) →
  csc_build values rows cols shp = Err IndexOutOfRange.
Proof.
  intros Hr Hc Hout. unfold csc_build.
  rewrite bool_decide_eq_true_2 by done. simpl.
  destruct (forallb _ rows) eqn:Hi; simpl; [|done].
  destruct (forallb _ cols) eqn:Hj; simpl; [|done].
  pose proof (proj1 (forallb_lt_true _ _) Hi) as Hi'.
  pose proof (proj1 (forallb_lt_true _ _) Hj) as Hj'.
  destruct Hout as [(i & Hin & Hle)|(j & Hin & Hle)].
  - apply Hi' in Hin. lia.
  - apply Hj' in Hin. lia.
Qed.

End builder_facts.

Section df2matrix_facts.
Implicit Types (df : DataFrame nat) (c : list float) (Y : csc_matrix).

Lemma column_values_length df name c :
  df_wf df → column_values df name = Ok c → length c = length (userId df).
Proof.
  intros [Hlen Hcols]. unfold column_values.
  repeat case_decide.
  - intros [= <-]. by rewrite length_fmap.
  - intros [= <-]. by rewrite length_fmap.
  - destruct (columns df !! name) as [c'|] eqn:Hc; simpl; [|done].
    intros [= <-]. by apply (Hcols _ _ Hc).
Qed.

Lemma df2matrix_ok df nrows ncols name c :
  df_wf df → column_values df name = Ok c → in_range df nrows ncols →
  df2matrix df nrows ncols name
  = Ok (mk_csc (nrows, ncols) (foldl add_entry ∅ (triples df c))).
Proof.
  intros Hwf Hc [Hi Hj]. unfold df2matrix. rewrite Hc. simpl.
  pose proof (column_values_length _ _ _ Hwf Hc) as Hlen.
  destruct Hwf as [Hm _].
  rewrite csc_build_ok; [done|lia|lia|done..].
Qed.

Lemma df2matrix_inv df nrows ncols name Y :
  df2matrix df nrows ncols name = Ok Y →
  ∃ c, column_values df name = Ok c
       ∧ length (userId df) = length c ∧ length (movieId df) = length c
       ∧ in_range df nrows ncols
       ∧ Y = mk_csc (nrows, ncols) (foldl add_entry ∅ (triples df c)).
Proof.
  unfold df2matrix. destruct (column_values df name) as [c|] eqn:Hc; [|done].
  simpl. intros (? & ? & ? & ? & ->)%csc_build_inv.
  exists c. by repeat split.
Qed.

Lemma triples_fst df c :
  length (userId df) = length c → length (movieId df) = length c →
  (triples df c).*1 = pairs df.
Proof. intros. by apply fst_zip3. Qed.

Lemma wf_is_ok_lengths df name :
  df_wf df → is_ok (column_values df name) →
  ∃ c, column_values df name = Ok c
       ∧ length (userId df) = length c ∧ length (movieId df) = length c.
Proof.
  intros Hwf [c Hc]. exists c. split; [done|].
  pose proof (column_values_length _ _ _ Hwf Hc). destruct Hwf. lia.
Qed.

(** C9. When some user index or item index of the table is not below its
    bound, the build raises the out-of-range error (for a frame that has the
    column of values): no matrix is returned. The error ends the callers
    too: on such a table of ratings [cost] returns it with the frame
    untouched, and [gradient_descent] returns it before the first pass of
    its loop, with nothing printed. *)
Theorem df2matrix_index_out_of_range df nrows ncols name :
  df_wf df → is_ok (column_values df name) →
  (∃ i, i ∈ userId df ∧ nrows ≤ i) ∨ (∃ j, j ∈ movieId df ∧ ncols ≤ j) →
  df2matrix df nrows ncols name = Err IndexOutOfRange
  ∧ (∀ Y, df2matrix df nrows ncols name ≠ Ok Y)
  ∧ ∀ U V T η df_val,
      shape0 U = nrows → shape0 V = ncols → name = "rating" →
      cost (Some df) U V = (Some df, Err IndexOutOfRange)
      ∧ (gradient_descent df U V T η df_val).2 = Err IndexOutOfRange
      ∧ st_out (gradient_descent df U V T η df_val).1 = [].
Proof.
  intros Hwf Hok Hout.
  destruct (wf_is_ok_lengths _ _ Hwf Hok) as (c & Hc & Hu & Hm).
  assert (df2matrix df nrows ncols name = Err IndexOutOfRange) as Herr.
  { unfold df2matrix. rewrite Hc. simpl. by apply csc_build_out_of_range. }
  split; [done|]. split; [by rewrite Herr|].
  intros U V T η df_val HU HV ->.
  unfold cost, gradient_descent. by rewrite HU, HV, Herr.
Qed.

(** C1, as the program has it. The build of a table whose indices are in
    range stores one entry per distinct (user, item) pair, so as many entries
    as the table has rows when no pair repeats, and the entry at a position
    is the sum of the values of all the rows with that position. *)
Theorem df2matrix_sums_repeated_pairs df nrows ncols name :
  df_wf df → is_ok (column_values df name) → in_range df nrows ncols →
  ∃ c Y, column_values df name = Ok c
    ∧ df2matrix df nrows ncols name = Ok Y
    ∧ shape Y = (nrows, ncols)
    ∧ nnz Y = size (list_to_set (pairs df) : gset (nat * nat))
    ∧ (NoDup (pairs df) → nnz Y = length (userId df))
    ∧ ∀ p, stored Y !! p
           = match values_at p (triples df c) with
             | [] => None
             | v :: vs => Some (foldl fadd v vs)
             end.
Proof.
  intros Hwf Hok Hin.
  destruct (wf_is_ok_lengths _ _ Hwf Hok) as (c & Hc & Hu & Hm).
  eexists c, _. split; [done|]. split; [by apply df2matrix_ok|].
  simpl. split; [done|].
  assert (Hnnz : nnz (mk_csc (nrows, ncols) (foldl add_entry ∅ (triples df c)))
                 = size (list_to_set (pairs df) : gset (nat * nat))).
  { unfold nnz. simpl. rewrite <- size_dom, dom_build.
    by rewrite triples_fst. }
  split_and!; [done| |].
  - intros Hnd. rewrite Hnnz, size_list_to_set by done.
    unfold pairs. rewrite length_zip. lia.
  - intros p. rewrite lookup_build, lookup_empty. done.
Qed.

End df2matrix_facts.

Lemma df_two_wf : df_wf df_two.
Proof. split; [done|]. by apply map_Forall_singleton. Defined.

Lemma df_dup_wf : df_wf df_dup.
Proof. split; [done|]. by apply map_Forall_singleton. Defined.

Lemma df_two_in_range : in_range df_two 2 2.
Proof.
  split; intros i Hi; simpl in Hi;
    repeat (apply elem_of_cons in Hi as [->|Hi]; [lia|]);
    by apply elem_of_nil in Hi.
Defined.

Lemma df_two_rating : is_ok (column_values df_two "rating").
Proof. eexists. reflexivity. Defined.

(** C1, as stated, fails on a table with a repeated pair: the two rows
    (0, 0, 5) and (0, 0, 3) give one stored entry, not two, and its value is
    8, not the last value 3. *)
Lemma df2matrix_repeated_pair_counterexample :
  ∃ Y, df2matrix df_dup 1 1 "rating" = Ok Y
       ∧ length (userId df_dup) = 2
       ∧ nnz Y = 1
       ∧ stored Y !! (0, 0) = Some (fadd (fz 5) (fz 3))
       ∧ stored Y !! (0, 0) ≠ Some (fz 3).
Proof.
  eexists. split; [reflexivity|]. split; [reflexivity|].
  split; [reflexivity|]. split; [reflexivity|].
  intros Heq.
  apply (f_equal (λ o, match o with
                       | Some (Fin q) => Qnum (this q)
                       | _ => 0%Z
                       end)) in Heq.
  vm_compute in Heq. discriminate.
Qed.

Lemma df2matrix_index_out_of_range_witness :
  df_wf df_two ∧ is_ok (column_values df_two "rating")
  ∧ df2matrix df_two 1 2 "rating" = Err IndexOutOfRange.
Proof.
  split; [exact df_two_wf|]. split; [exact df_two_rating|].
  apply (df2matrix_index_out_of_range df_two 1 2 "rating"
           df_two_wf df_two_rating).
  left. exists 1. split; [|lia].
  apply elem_of_cons. right. apply elem_of_cons. by left.
Defined.

Lemma df2matrix_sums_repeated_pairs_witness :
  df_wf df_two ∧ is_ok (column_values df_two "rating") ∧ in_range df_two 2 2
  ∧ is_ok (df2matrix df_two 2 2 "rating").
Proof.
  split; [exact df_two_wf|]. split; [exact df_two_rating|].
  split; [exact df_two_in_range|].
  destruct (df2matrix_sums_repeated_pairs df_two 2 2 "rating"
              df_two_wf df_two_rating df_two_in_range)
    as (c & Y & _ & HY & _).
  exists Y. exact HY.
Defined.

(** ** Dense arrays *)

Section array_facts.
Implicit Types (a b : ndarray) (idx : list nat) (rows : list (list float)).

Lemma tabulate_lookup {A} n (f : nat → A) i :
  tabulate n f !! i = if decide (i < n) then Some (f i) else None.
Proof.
  unfold tabulate. rewrite list_lookup_fmap. case_decide.
  - by rewrite lookup_seq_lt.
  - by rewrite lookup_seq_ge by lia.
Qed.

Lemma length_tabulate {A} n (f : nat → A) : length (tabulate n f) = n.
Proof. unfold tabulate. by rewrite length_fmap, length_seq. Qed.

Lemma cell_lookup a i k row x :
  data a !! i = Some row → row !! k = Some x → cell a i k = x.
Proof. intros Hi Hk. unfold cell. rewrite Hi. simpl. by rewrite Hk. Qed.

Lemma bidx_lt n i : i < n → bidx n i = i.
Proof. intros Hi. unfold bidx. case_decide; lia. Qed.

Lemma bdim_same n : bdim n n = Some n.
Proof. unfold bdim. by rewrite decide_True. Qed.

Lemma array_wf_lookup a i row :
  array_wf a → data a !! i = Some row → length row = ncol a.
Proof. intros Hwf Hi. by apply (Forall_lookup_1 _ _ _ _ Hwf Hi). Qed.

(** On two arrays of one shape, an elementwise operation pairs the cells. *)
Lemma ew_same_shape f a b :
  array_wf a → array_wf b → shape0 a = shape0 b → ncol a = ncol b →
  ew f a b = Ok (mk_ndarray (ncol a) (zip_with (zip_with f) (data a) (data b))).
Proof.
  intros Ha Hb Hr Hc. unfold ew. rewrite <- Hr, <- Hc, !bdim_same.
  do 2 f_equal. apply list_eq. intros i.
  rewrite tabulate_lookup, lookup_zip_with. case_decide as Hi.
  - destruct (lookup_lt_is_Some_2 (data a) i) as [ra Hra]; [done|].
    destruct (lookup_lt_is_Some_2 (data b) i) as [rb Hrb];
      [unfold shape0 in *; lia|].
    rewrite Hra, Hrb. simpl. f_equal. apply list_eq. intros k.
    rewrite tabulate_lookup, lookup_zip_with.
    pose proof (array_wf_lookup _ _ _ Ha Hra) as Hla.
    pose proof (array_wf_lookup _ _ _ Hb Hrb) as Hlb.
    case_decide as Hk.
    + destruct (lookup_lt_is_Some_2 ra k) as [x Hx]; [lia|].
      destruct (lookup_lt_is_Some_2 rb k) as [y Hy]; [lia|].
      rewrite Hx, Hy. simpl. rewrite !bidx_lt by done.
      by rewrite (cell_lookup _ _ _ _ _ Hra Hx), (cell_lookup _ _ _ _ _ Hrb Hy).
    + rewrite (lookup_ge_None_2 ra) by lia. done.
  - rewrite (lookup_ge_None_2 (data a)) by (unfold shape0 in *; lia). done.
Qed.

Lemma gather_rows_inv rows idx g :
  gather_rows rows idx = Ok g →
  length g = length idx
  ∧ (∀ r i, idx !! r = Some i → g !! r = rows !! i)
  ∧ (∀ i, i ∈ idx → i < length rows).
Proof.
  revert g. induction idx as [|i idx IH]; intros g; simpl.
  - intros [= <-]. split_and!; [done|done|]. by intros i Hi%elem_of_nil.
  - destruct (rows !! i) as [row|] eqn:Hi; simpl; [|done].
    destruct (gather_rows rows idx) as [tl|] eqn:Htl; simpl; [|done].
    intros [= <-]. destruct (IH _ eq_refl) as (Hlen & Hlk & Hin).
    split_and!.
    + simpl. by rewrite Hlen.
    + intros [|r] j; simpl; [by intros [= <-]|apply Hlk].
    + intros j [->|Hj]%elem_of_cons; [by eapply lookup_lt_Some|by apply Hin].
Qed.

Lemma gather_rows_ok rows idx :
  (∀ i, i ∈ idx → i < length rows) → is_ok (gather_rows rows idx).
Proof.
  induction idx as [|i idx IH]; intros Hin; simpl; [by eexists|].
  destruct (lookup_lt_is_Some_2 rows i) as [row ->]; [apply Hin; by left|].
  destruct IH as [tl ->]; [intros j Hj; apply Hin; by right|].
  by eexists.
Qed.

End array_facts.

(** ** The masked predictor *)

Section predictor_facts.
Implicit Types (df : DataFrame nat) (U V : ndarray) (pred : list float).

Lemma predictions_ok df U V n m k :
  df_wf df → in_range df n m → has_shape U n k → has_shape V m k →
  ∃ pred, predictions df U V = Ok pred
    ∧ length pred = length (userId df)
    ∧ ∀ r u i, userId df !! r = Some u → movieId df !! r = Some i →
        ∃ ur vr, data U !! u = Some ur ∧ data V !! i = Some vr
                 ∧ pred !! r = Some (dot ur vr).
Proof.
  intros [Hlen _] [Hu Hi] (HU0 & HUc & HUwf) (HV0 & HVc & HVwf).
  unfold predictions, gather.
  destruct (gather_rows_ok (data U) (userId df)) as [gu Hgu];
    [intros; unfold shape0 in HU0; rewrite HU0; by apply Hu|].
  destruct (gather_rows_ok (data V) (movieId df)) as [gv Hgv];
    [intros; unfold shape0 in HV0; rewrite HV0; by apply Hi|].
  rewrite Hgu, Hgv. simpl.
  apply gather_rows_inv in Hgu as (Hlu & Hgu & _).
  apply gather_rows_inv in Hgv as (Hlv & Hgv & _).
  rewrite ew_same_shape; simpl.
  - eexists. split; [done|]. unfold sum_axis1. simpl.
    rewrite length_fmap, length_zip_with. split; [lia|].
    intros r u i Hru Hri.
    destruct (lookup_lt_is_Some_2 (data U) u) as [ur Hur];
      [unfold shape0 in HU0; rewrite HU0; apply Hu;
       by eapply list_elem_of_lookup_2|].
    destruct (lookup_lt_is_Some_2 (data V) i) as [vr Hvr];
      [unfold shape0 in HV0; rewrite HV0; apply Hi;
       by eapply list_elem_of_lookup_2|].
    exists ur, vr. split_and!; [done..|].
    rewrite list_lookup_fmap, lookup_zip_with.
    rewrite (Hgu _ _ Hru), (Hgv _ _ Hri), Hur, Hvr. done.
  - apply Forall_lookup. intros r row Hr. simpl in *.
    destruct (lookup_lt_is_Some_2 (userId df) r) as [u Hru];
      [rewrite <- Hlu; by eapply lookup_lt_Some|].
    rewrite (Hgu _ _ Hru) in Hr. by eapply array_wf_lookup.
  - apply Forall_lookup. intros r row Hr. simpl in *.
    destruct (lookup_lt_is_Some_2 (movieId df) r) as [i Hri];
      [rewrite <- Hlv; by eapply lookup_lt_Some|].
    rewrite (Hgv _ _ Hri) in Hr. by eapply array_wf_lookup.
  - unfold shape0. simpl. lia.
  - simpl. lia.
Qed.

Lemma set_column_wf df name c :
  df_wf df → length c = length (userId df) → df_wf (set_column df name c).
Proof.
  intros [Hlen Hcols] Hc. split; [done|]. simpl.
  by apply map_Forall_insert_2.
Qed.

Lemma column_values_set_column df c :
  column_values (set_column df "Prediction" c) "Prediction" = Ok c.
Proof.
  unfold column_values, set_column. cbn [columns].
  rewrite !decide_False by done. by rewrite lookup_insert_eq.
Qed.

Lemma column_values_set_column_ne df name c :
  name ≠ "Prediction" →
  column_values (set_column df "Prediction" c) name = column_values df name.
Proof.
  intros Hne. unfold column_values, set_column. cbn [columns userId movieId].
  repeat case_decide; try done. by rewrite lookup_insert_ne.
Qed.

(** What [sparse_multiply] returns on a table in range: the frame with the
    predictions written to it and the matrix built from them. *)
Lemma sparse_multiply_ok df U V n m k :
  df_wf df → in_range df n m → has_shape U n k → has_shape V m k →
  ∃ pred, predictions df U V = Ok pred
    ∧ length pred = length (userId df)
    ∧ sparse_multiply df U V
      = (set_column df "Prediction" pred,
         Ok (mk_csc (n, m) (foldl add_entry ∅ (triples df pred)))).
Proof.
  intros Hwf Hin HU HV.
  destruct (predictions_ok df U V n m k) as (pred & Hp & Hlen & _); try done.
  exists pred. split_and!; [done..|].
  unfold sparse_multiply. rewrite Hp. f_equal.
  destruct HU as (-> & _), HV as (-> & _).
  rewrite (df2matrix_ok _ _ _ _ pred); [done| | |done].
  - by apply set_column_wf.
  - apply column_values_set_column.
Qed.

(** C6. Whenever [sparse_multiply] returns a prediction matrix, its stored
    positions are exactly the (user, item) pairs of the table; and it does
    return one for a table whose indices are in range of the two embeddings
    (of one number of factors). *)
Theorem sparse_multiply_pattern df U V :
  (∀ df' P, sparse_multiply df U V = (df', Ok P) →
     dom (stored P) = (list_to_set (pairs df) : gset (nat * nat))
     ∧ ∀ p, is_Some (stored P !! p) ↔ p ∈ pairs df)
  ∧ (∀ n m k, df_wf df → in_range df n m → has_shape U n k →
       has_shape V m k → ∃ df' P, sparse_multiply df U V = (df', Ok P)).
Proof.
  split.
  - intros df' P. unfold sparse_multiply.
    destruct (predictions df U V) as [pred|]; [|done].
    intros [= <- HP].
    apply df2matrix_inv in HP as (c & _ & Hu & Hm & _ & ->). simpl in *.
    assert (dom (foldl add_entry ∅
                   (triples (set_column df "Prediction" pred) c))
            = (list_to_set (pairs df) : gset (nat * nat))) as Hdom.
    { rewrite dom_build. by rewrite triples_fst. }
    split; [done|]. intros p.
    by rewrite <- elem_of_dom, Hdom, elem_of_list_to_set.
  - intros n m k Hwf Hin HU HV.
    destruct (sparse_multiply_ok df U V n m k) as (pred & _ & _ & ->);
      try done.
    by eexists _, _.
Qed.

End predictor_facts.

(** ** The writes to the caller's frame *)

Section frame_facts.
Implicit Types (df : DataFrame nat) (U V : ndarray).

Lemma only_prediction_changed_refl df : only_prediction_changed df df.
Proof. by repeat split. Qed.

Lemma only_prediction_changed_set df c :
  only_prediction_changed df (set_column df "Prediction" c).
Proof.
  repeat split. intros name Hne. simpl. by rewrite lookup_insert_ne.
Qed.

Lemma sparse_multiply_frame df U V df' r :
  sparse_multiply df U V = (df', r) →
  only_prediction_changed df df' ∧ (is_ok r → prediction_written df df' U V).
Proof.
  unfold sparse_multiply, prediction_written.
  destruct (predictions df U V) as [pred|e]; intros [= <- <-].
  - split; [apply only_prediction_changed_set|]. intros _.
    exists pred. split; [done|]. simpl. by rewrite lookup_insert_eq.
  - split; [apply only_prediction_changed_refl|]. by intros [? ?].
Qed.

Lemma rbind_ok_inv {A B} (r : result A) (k : A → result B) :
  is_ok (rbind r k) → is_ok r.
Proof. destruct r; [by eexists|by intros [? ?]]. Qed.

(** C10. A call of [sparse_multiply], of [cost] (on a frame) or of
    [gradient] leaves the caller's frame with every column but
    ["Prediction"] as it was, and, when the call returns normally, with the
    dot products in the column ["Prediction"], whatever that column held or
    not before; on a table in range of two embeddings with [k] factors the
    cell of a row is the dot product of the rows of its user and its item.
    On such a table the write does happen: [sparse_multiply] returns a
    matrix and leaves the frame with the column ["Prediction"] set to the
    dot products, [gradient] leaves this same frame whatever matrix it is
    given, and so does [cost] when the frame has ratings. *)
Theorem prediction_column_side_effect df U V :
  (∀ df' r, sparse_multiply df U V = (df', r) →
     only_prediction_changed df df'
     ∧ (is_ok r → prediction_written df df' U V))
  ∧ (∀ odf' r, cost (Some df) U V = (odf', r) →
       ∃ df', odf' = Some df' ∧ only_prediction_changed df df'
              ∧ (is_ok r → prediction_written df df' U V))
  ∧ (∀ Y df' r, gradient df Y U V = (df', r) →
       only_prediction_changed df df'
       ∧ (is_ok r → prediction_written df df' U V))
  ∧ (∀ n m k pred, df_wf df → in_range df n m → has_shape U n k →
       has_shape V m k → predictions df U V = Ok pred →
       ∀ r u i, userId df !! r = Some u → movieId df !! r = Some i →
         ∃ ur vr, data U !! u = Some ur ∧ data V !! i = Some vr
                  ∧ pred !! r = Some (dot ur vr))
  ∧ (∀ n m k, df_wf df → in_range df n m → has_shape U n k →
       has_shape V m k →
       ∃ pred P,
         predictions df U V = Ok pred
         ∧ length pred = length (userId df)
         ∧ sparse_multiply df U V = (set_column df "Prediction" pred, Ok P)
         ∧ columns (set_column df "Prediction" pred) !! "Prediction"
           = Some pred
         ∧ (∀ Y, (gradient df Y U V).1 = set_column df "Prediction" pred)
         ∧ (is_Some (columns df !! "rating") →
            ∃ c, cost (Some df) U V
                 = (Some (set_column df "Prediction" pred), Ok (Some c)))).
Proof.
  split_and!; cycle 4.
  { intros n m k Hwf Hin HU HV.
    destruct (sparse_multiply_ok df U V n m k Hwf Hin HU HV)
      as (pred & Hp & Hlen & Hsm).
    exists pred. eexists. split; [exact Hp|]. split; [exact Hlen|].
    split; [exact Hsm|]. split; [simpl; by rewrite lookup_insert_eq|].
    split.
    - intros Y. unfold gradient. by rewrite Hsm.
    - intros [c Hc].
      assert (column_values df "rating" = Ok c) as Hcv.
      { unfold column_values. rewrite !decide_False by done.
        by rewrite Hc. }
      unfold cost. destruct HU as (HU0 & _), HV as (HV0 & _).
      rewrite HU0, HV0, (df2matrix_ok _ _ _ _ c) by done.
      rewrite Hsm. simpl. unfold sp_sub. simpl.
      rewrite decide_True by done. simpl. by eexists. }
  - apply sparse_multiply_frame.
  - intros odf' r. unfold cost.
    destruct (df2matrix df _ _ "rating") as [Y|e].
    + destruct (sparse_multiply df U V) as [df1 r1] eqn:Hsm.
      intros [= <- <-]. exists df1. split; [done|].
      apply sparse_multiply_frame in Hsm as [Hch Hw].
      split; [done|]. intros Hok%rbind_ok_inv. by apply Hw.
    + intros [= <- <-]. exists df. split; [done|].
      split; [apply only_prediction_changed_refl|]. by intros [? ?].
  - intros Y df' r. unfold gradient.
    destruct (sparse_multiply df U V) as [df1 r1] eqn:Hsm.
    intros [= <- <-].
    apply sparse_multiply_frame in Hsm as [Hch Hw].
    split; [done|]. intros Hok%rbind_ok_inv. by apply Hw.
  - intros n m k pred Hwf Hin HU HV Hp.
    destruct (predictions_ok df U V n m k) as (pred' & Hp' & _ & Hdot);
      try done.
    rewrite Hp in Hp'. by injection Hp' as <-.
Qed.

End frame_facts.

(** ** An empty table *)

Section empty_facts.
Implicit Types (df : DataFrame nat) (U V : ndarray) (Y : csc_matrix).

Lemma zip_nil_inv {A B} (l : list A) (k : list B) :
  length l = length k → zip l k = [] → l = [] ∧ k = [].
Proof. by destruct l, k. Qed.

(** A built matrix with no stored entry comes from a table with no row. *)
Lemma df2matrix_nnz_0 df n m name Y :
  df2matrix df n m name = Ok Y → nnz Y = 0 →
  userId df = [] ∧ movieId df = [] ∧ Y = mk_csc (n, m) ∅.
Proof.
  intros (c & Hc & Hu & Hm & _ & ->)%df2matrix_inv Hnnz.
  unfold nnz in Hnnz. simpl in Hnnz.
  rewrite <- size_dom, dom_build, triples_fst in Hnnz by done.
  apply size_empty_inv in Hnnz.
  assert (pairs df = []) as Hp.
  { destruct (pairs df) as [|p ps]; [done|].
    exfalso. apply (not_elem_of_empty (C:=gset (nat * nat)) p).
    apply Hnnz, elem_of_list_to_set. by left. }
  apply zip_nil_inv in Hp as [Hu0 Hm0]; [|lia].
  split_and!; [done..|]. f_equal.
  unfold triples, pairs. by rewrite Hu0.
Qed.

Lemma predictions_empty df U V :
  userId df = [] → movieId df = [] → ncol U = ncol V →
  predictions df U V = Ok [].
Proof.
  intros Hu Hm Hc. unfold predictions, gather. rewrite Hu, Hm. simpl.
  unfold ew, shape0. simpl. rewrite Hc, bdim_same. done.
Qed.

Lemma sparse_multiply_empty df U V :
  userId df = [] → movieId df = [] → ncol U = ncol V →
  (sparse_multiply df U V).2 = Ok (mk_csc (shape0 U, shape0 V) ∅).
Proof.
  intros Hu Hm Hc. unfold sparse_multiply.
  rewrite predictions_empty by done. simpl.
  unfold df2matrix. rewrite column_values_set_column. simpl.
  rewrite Hu, Hm. done.
Qed.

Lemma sp_sub_empty shp :
  sp_sub (mk_csc shp ∅) (mk_csc shp ∅) = Ok (mk_csc shp ∅).
Proof.
  unfold sp_sub. simpl. rewrite decide_True by done.
  by rewrite merge_empty.
Qed.

Lemma sp_row_dot_empty d i k : sp_row_dot ∅ d i k = Fin 0.
Proof. unfold sp_row_dot. by rewrite map_fold_empty. Qed.

Lemma cell_tabulate c n k (f : nat → nat → float) i j :
  i < n → j < k →
  cell (mk_ndarray c (tabulate n (λ i, tabulate k (f i)))) i j = f i j.
Proof.
  intros Hi Hj. unfold cell. simpl.
  rewrite tabulate_lookup, decide_True by done. simpl.
  by rewrite tabulate_lookup, decide_True by done.
Qed.

Lemma tabulate_has_shape n k (f : nat → nat → float) :
  has_shape (mk_ndarray k (tabulate n (λ i, tabulate k (f i)))) n k.
Proof.
  split_and!.
  - unfold shape0. simpl. apply length_tabulate.
  - done.
  - apply Forall_lookup. intros i row. simpl.
    rewrite tabulate_lookup. case_decide; [|done].
    intros [= <-]. apply length_tabulate.
Qed.

Lemma amap_has_shape f a n k : has_shape a n k → has_shape (amap f a) n k.
Proof.
  intros (H0 & Hc & Hwf). split_and!.
  - unfold shape0, amap in *. simpl. by rewrite length_fmap.
  - done.
  - unfold amap, array_wf in *. simpl. apply Forall_fmap.
    eapply Forall_impl; [done|]. intros row Hr. simpl.
    by rewrite length_map.
Qed.

Lemma cell_amap f a i j row :
  data a !! i = Some row → j < length row →
  cell (amap f a) i j = f (cell a i j).
Proof.
  intros Hi Hj. unfold cell, amap. simpl.
  rewrite list_lookup_fmap, Hi. simpl.
  destruct (lookup_lt_is_Some_2 row j) as [x Hx]; [done|].
  change (map f row) with (f <$> row).
  by rewrite list_lookup_fmap, Hx.
Qed.

Lemma cell_amap_shape f a n k i j :
  has_shape a n k → i < n → j < k → cell (amap f a) i j = f (cell a i j).
Proof.
  intros (H0 & Hc & Hwf) Hi Hj.
  destruct (lookup_lt_is_Some_2 (data a) i) as [row Hrow];
    [unfold shape0 in H0; lia|].
  apply (cell_amap _ _ _ _ row); [done|].
  rewrite (array_wf_lookup _ _ _ Hwf Hrow). lia.
Qed.

(** On a table of integer keys with no observed rating the cost and the
    gradient raise nothing: the division by the zero count is carried out,
    the cost is NaN and every cell of the two gradients is NaN. *)
Lemma cost_gradient_nan_int_keys df U V n m k Y :
  has_shape U n k → has_shape V m k →
  df2matrix df n m "rating" = Ok Y → nnz Y = 0 →
  (cost (Some df) U V).2 = Ok (Some NaN)
  ∧ ∃ gU gV, (gradient df Y U V).2 = Ok (gU, gV)
      ∧ has_shape gU n k ∧ has_shape gV m k
      ∧ (∀ i j, i < n → j < k → cell gU i j = NaN)
      ∧ (∀ i j, i < m → j < k → cell gV i j = NaN).
Proof.
  intros (HU0 & HUc & HUwf) (HV0 & HVc & HVwf) HY Hnnz.
  destruct (df2matrix_nnz_0 _ _ _ _ _ HY Hnnz) as (Hu & Hm & ->).
  assert (ncol U = ncol V) as Hc by lia.
  pose proof (sparse_multiply_empty df U V Hu Hm Hc) as Hsm.
  rewrite HU0, HV0 in Hsm.
  split.
  - unfold cost. rewrite HU0, HV0, HY.
    destruct (sparse_multiply df U V) as [df1 r1]. simpl in Hsm. subst r1.
    simpl. rewrite sp_sub_empty. simpl.
    unfold sp_sum, sp_power, nnz. simpl.
    rewrite fmap_empty, map_fold_empty. done.
  - unfold gradient.
    destruct (sparse_multiply df U V) as [df1 r1]. simpl in Hsm. subst r1.
    simpl. rewrite sp_sub_empty. simpl.
    unfold sp_matmul, sp_scale, sp_transpose. simpl.
    rewrite !decide_True by done. simpl.
    eexists _, _. split; [reflexivity|].
    rewrite fmap_empty, kmap_empty, fmap_empty, HUc, HVc.
    split_and!.
    + apply amap_has_shape, tabulate_has_shape.
    + apply amap_has_shape, tabulate_has_shape.
    + intros i j Hi Hj.
      rewrite (cell_amap_shape _ _ n k) by (done || apply tabulate_has_shape).
      rewrite cell_tabulate by done. by rewrite sp_row_dot_empty.
    + intros i j Hi Hj.
      rewrite (cell_amap_shape _ _ m k) by (done || apply tabulate_has_shape).
      rewrite cell_tabulate by done. by rewrite sp_row_dot_empty.
Qed.

End empty_facts.

Lemma eye2_shape : has_shape eye2 2 2.
Proof. split_and!; [done..|]. by repeat constructor. Defined.

Lemma prediction_column_side_effect_witness :
  df_wf df_two ∧ in_range df_two 2 2 ∧ has_shape eye2 2 2
  ∧ ∃ pred P,
      predictions df_two eye2 eye2 = Ok pred
      ∧ sparse_multiply df_two eye2 eye2
        = (set_column df_two "Prediction" pred, Ok P)
      ∧ columns (set_column df_two "Prediction" pred) !! "Prediction"
        = Some pred.
Proof.
  split; [exact df_two_wf|]. split; [exact df_two_in_range|].
  split; [exact eye2_shape|].
  destruct (proj2 (proj2 (proj2 (proj2
              (prediction_column_side_effect df_two eye2 eye2))))
              2 2 2 df_two_wf df_two_in_range eye2_shape eye2_shape)
    as (pred & P & Hp & _ & Hsm & Hcol & _).
  exists pred, P. split; [exact Hp|]. split; [exact Hsm|exact Hcol].
Defined.

(** C2, as stated, fails on the empty table: the cost comes back as NaN and
    the gradient as two arrays of NaN, with no exception. *)
Lemma cost_gradient_empty_counterexample :
  (cost (Some df_empty) eye2 eye2).2 = Ok (Some NaN)
  ∧ (∀ e, (cost (Some df_empty) eye2 eye2).2 ≠ Err e)
  ∧ (gradient df_empty (mk_csc (2, 2) ∅) eye2 eye2).2
    = Ok (mk_ndarray 2 [[NaN; NaN]; [NaN; NaN]],
          mk_ndarray 2 [[NaN; NaN]; [NaN; NaN]])
  ∧ df2matrix df_empty 2 2 "rating" = Ok (mk_csc (2, 2) ∅)
  ∧ nnz (mk_csc (2, 2) ∅) = 0.
Proof.
  split; [reflexivity|]. split; [by intros e|].
  split; [reflexivity|]. split; reflexivity.
Qed.

(** ** Sums *)

Section sum_facts.

Lemma fsum_fin (l : list Qc) : fsum (Fin <$> l) = Fin (qsum l).
Proof.
  induction l as [|q l IH]; [done|].
  cbn [fmap list_fmap fsum foldr] in *. unfold fsum in IH.
  change (list_fmap Qc float Fin l) with (Fin <$> l).
  by rewrite IH.
Qed.

Lemma foldl_fadd_fsum x (l : list float) : foldl fadd x l = fadd x (fsum l).
Proof.
  revert x. induction l as [|y l IH]; intros x; simpl.
  - by rewrite fadd_0_r.
  - rewrite IH. unfold fsum. simpl. by rewrite fadd_assoc.
Qed.

Lemma zip_with_fmul_fin (u v : list Qc) :
  zip_with fmul (Fin <$> u) (Fin <$> v) = Fin <$> zip_with Qcmult u v.
Proof.
  revert v. induction u as [|a u IH]; intros [|b v]; simpl; try done.
  f_equal. apply IH.
Qed.

Lemma dot_fin (u v : list Qc) : dot (Fin <$> u) (Fin <$> v) = Fin (qdot u v).
Proof.
  unfold dot, qdot. rewrite foldl_fadd_fsum, fadd_0_l.
  by rewrite zip_with_fmul_fin, fsum_fin.
Qed.

(** A sum in which one term, zero before, is replaced. *)
Lemma fsum_point_update {A} `{EqDecision A} (l : list A) (g : A → float)
    (a : A) (v : float) :
  NoDup l → a ∈ l → g a = Fin 0 →
  fsum ((λ b, if decide (b = a) then v else g b) <$> l)
  = fadd (fsum (g <$> l)) v.
Proof.
  intros Hnd Ha Hg. induction l as [|b l IH]; [by apply elem_of_nil in Ha|].
  apply NoDup_cons in Hnd as [Hb Hnd]. rewrite !fmap_cons.
  unfold fsum in *. cbn [foldr]. destruct (decide (b = a)) as [->|Hne].
  - rewrite Hg, fadd_0_l.
    rewrite (list_fmap_ext _ g l); [apply fadd_comm|].
    intros j c Hc. rewrite decide_False; [done|].
    intros ->. apply Hb. by eapply list_elem_of_lookup_2.
  - rewrite IH; [by rewrite fadd_assoc|done|].
    by apply elem_of_cons in Ha as [->|Ha].
Qed.

Lemma fsum_ext {A} (l : list A) (g h : A → float) :
  (∀ a, a ∈ l → g a = h a) → fsum (g <$> l) = fsum (h <$> l).
Proof.
  intros Hgh. f_equal. apply list_fmap_ext. intros i a Hi.
  apply Hgh. by eapply list_elem_of_lookup_2.
Qed.

(** The sum of the stored entries of a map whose keys are in a list. *)
Lemma map_fold_fadd_keys (M : gmap (nat * nat) float) (ps : list (nat * nat)) :
  NoDup ps → (∀ p, p ∉ ps → M !! p = None) →
  map_fold (λ _ x acc, fadd acc x) (Fin 0) M
  = fsum ((λ p, default (Fin 0) (M !! p)) <$> ps).
Proof.
  intros Hnd. revert M.
  apply (map_fold_weak_ind
           (λ r M, (∀ p, p ∉ ps → M !! p = None) →
                   r = fsum ((λ p, default (Fin 0) (M !! p)) <$> ps))).
  - intros _. induction ps as [|p ps IH]; [done|].
    apply NoDup_cons in Hnd as [_ Hnd]. rewrite fmap_cons.
    unfold fsum in *. cbn [foldr]. rewrite <- IH by done.
    by rewrite lookup_empty.
  - intros p x M r HM IH Hkeys.
    assert (p ∈ ps) as Hp.
    { destruct (decide (p ∈ ps)) as [|Hni]; [done|].
      apply Hkeys in Hni. by rewrite lookup_insert_eq in Hni. }
    rewrite IH.
    + rewrite <- (fsum_point_update ps _ p x); [|done|done|by rewrite HM].
      apply fsum_ext. intros q _. destruct (decide (q = p)) as [->|Hne].
      * by rewrite lookup_insert_eq.
      * by rewrite lookup_insert_ne.
    + intros q Hq. specialize (Hkeys q Hq).
      rewrite lookup_insert_ne in Hkeys; [done|]. by intros ->.
Qed.

(** A cell of the sparse-dense product as a sum over the columns. *)
Lemma sp_row_dot_sum (M : gmap (nat * nat) float) (D : ndarray) (i k m : nat) :
  (∀ p, is_Some (M !! p) → p.2 < m) →
  sp_row_dot M D i k
  = fsum ((λ j, default (Fin 0) ((λ x, fmul x (cell D j k)) <$> M !! (i, j)))
            <$> seq 0 m).
Proof.
  unfold sp_row_dot. revert M.
  apply (map_fold_weak_ind
           (λ r M, (∀ p, is_Some (M !! p) → p.2 < m) →
                   r = fsum ((λ j, default (Fin 0)
                                ((λ x, fmul x (cell D j k)) <$> M !! (i, j)))
                               <$> seq 0 m))).
  - intros _. induction (seq 0 m) as [|j js IH]; [done|].
    rewrite fmap_cons. unfold fsum in *. cbn [foldr]. rewrite <- IH.
    by rewrite lookup_empty.
  - intros p x M r HM IH Hkeys.
    assert (p.2 < m) as Hp by (apply Hkeys; by rewrite lookup_insert_eq).
    rewrite IH; cycle 1.
    { intros q Hq. apply Hkeys. destruct (decide (p = q)) as [->|Hne].
      - by rewrite lookup_insert_eq.
      - by rewrite lookup_insert_ne. }
    destruct p as [a b]. simpl in *. case_decide as Ha.
    + subst a.
      rewrite <- (fsum_point_update (seq 0 m) _ b (fmul x (cell D b k)));
        [|apply NoDup_seq|apply elem_of_seq; lia|by rewrite HM].
      apply fsum_ext. intros j _. destruct (decide (j = b)) as [->|Hne].
      * by rewrite lookup_insert_eq.
      * rewrite lookup_insert_ne; [done|]. by intros [= ->].
    + apply fsum_ext. intros j _.
      rewrite lookup_insert_ne; [done|]. by intros [= -> ->].
Qed.

End sum_facts.

(** ** Tables and embeddings of finite values *)

Section finite_facts.
Implicit Types (df : DataFrame nat) (ps : list (nat * nat)) (qs : list Qc)
  (M : gmap (nat * nat) float) (Uq Vq : list (list Qc)).

Lemma zq_nonzero (n : nat) : 0 < n → qzero (zq (Z.of_nat n)) = false.
Proof.
  intros Hn. apply not_true_is_false. intros Hz%qzero_true.
  unfold zq in Hz. apply Q2Qc_eq_iff in Hz.
  unfold Qeq in Hz. simpl in Hz. lia.
Qed.

Lemma fdiv_fin s (n : nat) :
  0 < n → fdiv (Fin s) (of_nat n) = Fin (s / zq (Z.of_nat n)).
Proof. intros Hn. unfold fdiv, of_nat. by rewrite zq_nonzero. Qed.

Lemma qsum_scale {A} (c : Qc) (f : A → Qc) (l : list A) :
  qsum ((λ a, c * f a)%Qc <$> l) = (c * qsum (f <$> l))%Qc.
Proof.
  induction l as [|a l IH].
  - simpl. ring.
  - rewrite !fmap_cons. unfold qsum in *. cbn [foldr]. rewrite IH. ring.
Qed.

Lemma elem_of_zip_fst {A B} (l : list A) (k : list B) x :
  x ∈ (zip l k).*1 → x ∈ l.
Proof.
  revert k. induction l as [|a l IH]; intros [|b k]; simpl;
    try by intros ?%elem_of_nil.
  intros [->|Hx]%elem_of_cons; [by left|right; by eapply IH].
Qed.

Lemma values_at_fin p ps qs :
  Forall (λ v, ∃ q, v = Fin q) (values_at p (zip ps (Fin <$> qs))).
Proof.
  unfold values_at. apply Forall_fmap, Forall_forall.
  intros [p' v] [_ Hin]%list_elem_of_filter. simpl.
  apply elem_of_zip_r in Hin. apply list_elem_of_fmap in Hin as (q & -> & _).
  by exists q.
Qed.

Lemma foldl_fadd_finite a (l : list float) :
  Forall (λ v, ∃ q, v = Fin q) l → ∃ q, foldl fadd (Fin a) l = Fin q.
Proof.
  revert a. induction l as [|v l IH]; intros a Hl; simpl; [by eexists|].
  apply Forall_cons in Hl as [[q ->] Hl]. simpl. by apply IH.
Qed.

(** The build of finite values stores finite values. *)
Lemma build_finite ps qs :
  finite_map (foldl add_entry ∅ (zip ps (Fin <$> qs))).
Proof.
  intros p v. rewrite lookup_build, lookup_empty.
  pose proof (values_at_fin p ps qs) as Hfin.
  destruct (values_at p _) as [|v0 vs]; [done|].
  apply Forall_cons in Hfin as [[q ->] Hfin]. intros [= <-].
  by apply foldl_fadd_finite.
Qed.

Lemma build_keys ps (vs : list float) p :
  is_Some (foldl add_entry ∅ (zip ps vs) !! p) → p ∈ ps.
Proof.
  rewrite <- elem_of_dom, dom_build, elem_of_list_to_set.
  apply elem_of_zip_fst.
Qed.

(** Without a repeated pair each row of the table is its own entry. *)
Lemma values_at_nodup ps (vs : list float) r p v :
  NoDup ps → ps !! r = Some p → vs !! r = Some v →
  values_at p (zip ps vs) = [v].
Proof.
  revert vs r. induction ps as [|p0 ps IH]; intros [|v0 vs] r Hnd Hp Hv;
    try done.
  apply NoDup_cons in Hnd as [Hp0 Hnd]. cbn [zip zip_with].
  rewrite values_at_cons. simpl. destruct r as [|r]; simpl in *.
  - injection Hp as ->. injection Hv as ->. rewrite decide_True by done.
    f_equal. apply values_at_nil_iff. by intros ?%elem_of_zip_fst.
  - rewrite decide_False; [by eapply IH|].
    intros ->. apply Hp0. by eapply list_elem_of_lookup_2.
Qed.

Lemma lookup_build_nodup ps (vs : list float) r p v :
  NoDup ps → ps !! r = Some p → vs !! r = Some v →
  foldl add_entry ∅ (zip ps vs) !! p = Some v.
Proof.
  intros Hnd Hp Hv. rewrite lookup_build.
  by rewrite (values_at_nodup _ _ r p v).
Qed.

(** The stored entries of [Y - P] stand for the residual. *)
Lemma lookup_sub_finite (Y P : csc_matrix) i j :
  finite_map (stored Y) → finite_map (stored P) →
  merge sub_cell (stored Y) (stored P) !! (i, j) = Some (Fin (residual Y P i j))
  ∨ (merge sub_cell (stored Y) (stored P) !! (i, j) = None
     ∧ residual Y P i j = 0%Qc).
Proof.
  intros HY HP. rewrite lookup_merge. unfold residual.
  destruct (stored Y !! (i, j)) as [y|] eqn:Hy;
    destruct (stored P !! (i, j)) as [p|] eqn:Hp; simpl.
  - destruct (HY _ _ Hy) as [a ->], (HP _ _ Hp) as [b ->]. simpl.
    destruct (qzero (a + - b)) eqn:Hz; [right|left; done].
    apply qzero_true in Hz. split; [done|]. unfold Qcminus. by rewrite Hz.
  - destruct (HY _ _ Hy) as [a ->]. simpl.
    replace (a + - 0)%Qc with (a - 0)%Qc by ring.
    destruct (qzero (a - 0)) eqn:Hz; [right|left; done].
    apply qzero_true in Hz. by split.
  - destruct (HP _ _ Hp) as [b ->]. simpl.
    replace (0 + - b)%Qc with (0 - b)%Qc by ring.
    destruct (qzero (0 - b)) eqn:Hz; [right|left; done].
    apply qzero_true in Hz. by split.
  - right. split; [done|]. ring.
Qed.

Lemma qarray_row k Uq u uq :
  Uq !! u = Some uq → data (qarray k Uq) !! u = Some (Fin <$> uq).
Proof. intros Hu. unfold qarray. simpl. by rewrite list_lookup_fmap, Hu. Qed.

Lemma qarray_cell k Uq n i j :
  has_shape (qarray k Uq) n k → i < n → j < k →
  cell (qarray k Uq) i j = Fin (qcell Uq i j).
Proof.
  intros (H0 & _ & Hwf) Hi Hj. unfold shape0, qarray in H0. simpl in H0.
  rewrite length_fmap in H0.
  destruct (lookup_lt_is_Some_2 Uq i) as [uq Hu]; [lia|].
  pose proof (array_wf_lookup _ _ _ Hwf (qarray_row k _ _ _ Hu)) as Hlen.
  rewrite length_fmap in Hlen. simpl in Hlen.
  destruct (lookup_lt_is_Some_2 uq j) as [x Hx]; [lia|].
  rewrite (cell_lookup _ _ _ _ (Fin x) (qarray_row k _ _ _ Hu));
    [|by rewrite list_lookup_fmap, Hx].
  unfold qcell, qrow. by rewrite Hu; simpl; rewrite Hx.
Qed.

(** The predictions on finite embeddings are the exact dot products. *)
Lemma predictions_finite df Uq Vq n m k :
  df_wf df → in_range df n m →
  has_shape (qarray k Uq) n k → has_shape (qarray k Vq) m k →
  predictions df (qarray k Uq) (qarray k Vq) = Ok (Fin <$> qpreds df Uq Vq).
Proof.
  intros Hwf Hin HU HV.
  destruct (predictions_ok df _ _ n m k Hwf Hin HU HV)
    as (pred & -> & Hlen & Hdot).
  f_equal. apply list_eq. intros r. unfold qpreds, pairs.
  rewrite !list_lookup_fmap, lookup_zip_with.
  destruct (userId df !! r) as [u|] eqn:Hu; simpl.
  - destruct (lookup_lt_is_Some_2 (movieId df) r) as [i Hi].
    { destruct Hwf as [-> _]. by eapply lookup_lt_Some. }
    rewrite Hi. simpl.
    destruct (Hdot _ _ _ Hu Hi) as (ur & vr & Hur & Hvr & ->).
    unfold qarray in Hur, Hvr. simpl in Hur, Hvr.
    rewrite list_lookup_fmap in Hur, Hvr.
    destruct (Uq !! u) as [uq|] eqn:Huq; [|done].
    destruct (Vq !! i) as [vq|] eqn:Hvq; [|done].
    injection Hur as <-. injection Hvr as <-.
    unfold qpred, qrow. simpl. rewrite Huq, Hvq. simpl.
    f_equal. apply dot_fin.
  - apply lookup_ge_None_2. rewrite Hlen. by apply lookup_ge_None_1.
Qed.

Lemma column_values_rating df c :
  columns df !! "rating" = Some c → column_values df "rating" = Ok c.
Proof.
  intros Hc. unfold column_values. rewrite !decide_False by done.
  by rewrite Hc.
Qed.

End finite_facts.

(** ** The cost *)

Section cost_facts.
Implicit Types (df : DataFrame nat) (Uq Vq : list (list Qc))
  (ratings : list Qc).

(** What [cost] computes on a frame in range, before any arithmetic. *)
Lemma cost_unfold df U V n m k c :
  df_wf df → in_range df n m → has_shape U n k → has_shape V m k →
  column_values df "rating" = Ok c →
  ∃ pred, predictions df U V = Ok pred
    ∧ length pred = length (userId df)
    ∧ (cost (Some df) U V).2
      = let Ys := foldl add_entry ∅ (triples df c) in
        let Ps := foldl add_entry ∅ (triples df pred) in
        Ok (Some (fdiv (sp_sum (sp_power (mk_csc (n, m)
                                            (merge sub_cell Ys Ps)) 2))
                       (of_nat (size Ys)))).
Proof.
  intros Hwf Hin HU HV Hc.
  destruct (sparse_multiply_ok df U V n m k Hwf Hin HU HV)
    as (pred & Hp & Hlen & Hsm).
  exists pred. split_and!; [done..|].
  unfold cost. destruct HU as (-> & _), HV as (-> & _).
  rewrite (df2matrix_ok _ _ _ _ c) by done. rewrite Hsm. simpl.
  unfold sp_sub. simpl. rewrite decide_True by done. done.
Qed.

(** C5, as the program has it. For a table in range in which no (user,
    item) pair repeats and that has a row, the cost on finite embeddings is
    the sum over the rows of (rating - dot(U[user], V[item]))², divided by
    the number of rows; for the table with (0,0)=5 and (1,1)=3 and identity
    embeddings it is 10. *)
Theorem cost_mean_squared_error :
  (∀ df Uq Vq n m k ratings,
     df_wf df → in_range df n m →
     columns df !! "rating" = Some (Fin <$> ratings) →
     has_shape (qarray k Uq) n k → has_shape (qarray k Vq) m k →
     NoDup (pairs df) → 0 < length ratings →
     (cost (Some df) (qarray k Uq) (qarray k Vq)).2
     = Ok (Some (Fin (qsum (sq_error Uq Vq <$> zip (pairs df) ratings)
                      / zq (Z.of_nat (length ratings))))))
  ∧ (cost (Some df_two) eye2 eye2).2 = Ok (Some (fz 10)).
Proof.
  split; [|vm_compute; do 3 f_equal; by apply Qc_is_canon].
  intros df Uq Vq n m k ratings Hwf Hin Hrat HU HV Hnd Hpos.
  apply column_values_rating in Hrat as Hc.
  destruct (cost_unfold df _ _ n m k _ Hwf Hin HU HV Hc)
    as (pred & Hp & Hlen & ->).
  rewrite (predictions_finite df Uq Vq n m k) in Hp by done.
  injection Hp as <-.
  assert (length (userId df) = length ratings) as Hlr.
  { pose proof (column_values_length _ _ _ Hwf Hc) as Hl.
    by rewrite length_fmap in Hl. }
  assert (length (pairs df) = length ratings) as Hlp.
  { unfold pairs. rewrite length_zip. destruct Hwf. lia. }
  cbv zeta. unfold triples.
  set (Ys := foldl add_entry ∅ (zip (pairs df) (Fin <$> ratings))).
  set (Ps := foldl add_entry ∅ (zip (pairs df) (Fin <$> qpreds df Uq Vq))).
  assert (size Ys = length ratings) as ->.
  { unfold Ys. rewrite <- size_dom, dom_build.
    rewrite fst_zip by (rewrite length_fmap; lia).
    rewrite size_list_to_set by done. done. }
  rewrite <- (fdiv_fin _ _ Hpos). do 3 f_equal.
  unfold sp_sum, sp_power. simpl.
  rewrite (map_fold_fadd_keys _ (pairs df) Hnd); cycle 1.
  { intros p Hp. rewrite lookup_fmap, lookup_merge.
    assert (Ys !! p = None) as ->.
    { apply eq_None_not_Some. by intros ?%build_keys. }
    assert (Ps !! p = None) as ->.
    { apply eq_None_not_Some. by intros ?%build_keys. }
    done. }
  rewrite <- fsum_fin. f_equal. apply list_eq. intros r.
  rewrite !list_lookup_fmap, lookup_zip_with.
  destruct (pairs df !! r) as [p|] eqn:Hpr; simpl; [|done].
  destruct (lookup_lt_is_Some_2 ratings r) as [q Hq].
  { rewrite <- Hlp. by eapply lookup_lt_Some. }
  rewrite Hq. simpl. f_equal.
  assert (Ys !! p = Some (Fin q)) as HYp.
  { apply (lookup_build_nodup _ _ r); [done..|].
    by rewrite list_lookup_fmap, Hq. }
  assert (Ps !! p = Some (Fin (qpred Uq Vq p))) as HPp.
  { apply (lookup_build_nodup _ _ r); [done..|].
    unfold qpreds. by rewrite !list_lookup_fmap, Hpr. }
  assert (residual (mk_csc (n, m) Ys) (mk_csc (n, m) Ps) p.1 p.2
          = (q - qpred Uq Vq p)%Qc) as Hres.
  { unfold residual. simpl. rewrite <- surjective_pairing.
    by rewrite HYp, HPp. }
  rewrite lookup_fmap.
  destruct (lookup_sub_finite (mk_csc (n, m) Ys) (mk_csc (n, m) Ps) p.1 p.2)
    as [Hs|[Hs Hz]]; try apply build_finite;
    simpl in Hs; rewrite <- surjective_pairing in Hs; rewrite Hs; simpl.
  - f_equal. unfold sq_error. simpl. rewrite Hres. ring.
  - f_equal. unfold sq_error. simpl. rewrite <- Hres, Hz. ring.
Qed.

End cost_facts.

Lemma one1_shape : has_shape one1 1 1.
Proof. split_and!; [done..|]. by repeat constructor. Defined.

(** C5, as stated, fails on a table with a repeated pair: for the rows
    (0, 0, 5) and (0, 0, 3) and the embeddings [[1]] the squared errors of
    the rows are 16 and 4 and there is one observed position, but the cost
    is 36 (the two ratings are added, and so are the two predictions). *)
Lemma cost_repeated_pair_counterexample :
  (cost (Some df_dup) one1 one1).2 = Ok (Some (fz 36))
  ∧ sq_error [[zq 1]] [[zq 1]] <$> zip (pairs df_dup) [zq 5; zq 3]
    = [zq 16; zq 4]
  ∧ (∃ Y, df2matrix df_dup 1 1 "rating" = Ok Y ∧ nnz Y = 1)
  ∧ fz 36 ≠ Fin (qsum [zq 16; zq 4] / zq 1)
  ∧ fz 36 ≠ Fin (qsum [zq 16; zq 4] / zq 2)
  ∧ fz 36 ≠ Fin (zq 4 / zq 1).
Proof.
  assert (Hne : ∀ a b : Qc, Qnum (this a) ≠ Qnum (this b) → Fin a ≠ Fin b).
  { intros a b Hab [= ->]. done. }
  split; [vm_compute; do 3 f_equal; by apply Qc_is_canon|]. split.
  { vm_compute. repeat (apply (f_equal2 cons); [by apply Qc_is_canon|]).
    done. }
  split; [eexists; split; reflexivity|].
  split_and!; apply Hne; vm_compute; discriminate.
Qed.

Lemma cost_mean_squared_error_witness :
  df_wf df_two ∧ in_range df_two 2 2
  ∧ columns df_two !! "rating" = Some (Fin <$> [zq 5; zq 3])
  ∧ has_shape (qarray 2 [[zq 1; zq 0]; [zq 0; zq 1]]) 2 2
  ∧ NoDup (pairs df_two)
  ∧ (cost (Some df_two) (qarray 2 [[zq 1; zq 0]; [zq 0; zq 1]])
                        (qarray 2 [[zq 1; zq 0]; [zq 0; zq 1]])).2
    = Ok (Some (Fin (qsum (sq_error [[zq 1; zq 0]; [zq 0; zq 1]]
                                    [[zq 1; zq 0]; [zq 0; zq 1]]
                             <$> zip (pairs df_two) [zq 5; zq 3])
                     / zq (Z.of_nat 2)))).
Proof.
  assert (Hnd : NoDup (pairs df_two)).
  { apply NoDup_cons. split; [|apply NoDup_singleton].
    intros [=]%list_elem_of_singleton. }
  split; [exact df_two_wf|]. split; [exact df_two_in_range|].
  split; [reflexivity|]. split; [exact eye2_shape|]. split; [exact Hnd|].
  apply (proj1 cost_mean_squared_error df_two
           [[zq 1; zq 0]; [zq 0; zq 1]] [[zq 1; zq 0]; [zq 0; zq 1]]
           2 2 2 [zq 5; zq 3]
           df_two_wf df_two_in_range eq_refl eye2_shape eye2_shape Hnd).
  simpl. lia.
Defined.

(** ** The gradient *)

Section gradient_facts.
Implicit Types (df : DataFrame nat) (Uq Vq Dq : list (list Qc))
  (D : gmap (nat * nat) float) (R : nat → nat → Qc).

Lemma fsum_fin_map {A} (g : A → Qc) (l : list A) :
  fsum ((λ a, Fin (g a)) <$> l) = Fin (qsum (g <$> l)).
Proof. by rewrite <- fsum_fin, <- list_fmap_compose. Qed.

Lemma qsum_zero {A} (g : A → Qc) (l : list A) :
  (∀ a, a ∈ l → g a = 0%Qc) → qsum (g <$> l) = 0%Qc.
Proof.
  induction l as [|a l IH]; intros Hg; [done|].
  rewrite fmap_cons. unfold qsum in *. cbn [foldr].
  rewrite Hg by left. rewrite IH; [ring|]. intros b Hb. apply Hg. by right.
Qed.

(** A cell of the product of a scaled sparse matrix of finite entries with
    a dense array of finite cells. *)
Lemma scaled_row_dot D R Dq (i f m' k' : nat) (c : Qc) :
  (∀ i j, D !! (i, j) = Some (Fin (R i j))
          ∨ (D !! (i, j) = None ∧ R i j = 0%Qc)) →
  (∀ p, is_Some (D !! p) → p.2 < m') →
  has_shape (qarray k' Dq) m' k' → f < k' →
  sp_row_dot (fmul (Fin c) <$> D) (qarray k' Dq) i f
  = Fin (c * qsum ((λ j, R i j * qcell Dq j f)%Qc <$> seq 0 m')).
Proof.
  intros HR Hkeys Hshape Hf.
  rewrite (sp_row_dot_sum _ _ _ _ m'); cycle 1.
  { intros p. rewrite lookup_fmap, fmap_is_Some. apply Hkeys. }
  rewrite <- qsum_scale, <- fsum_fin_map.
  apply fsum_ext. intros j Hj%elem_of_seq.
  rewrite lookup_fmap, (qarray_cell _ _ m') by (done || lia).
  destruct (HR i j) as [->|[-> Hz]]; simpl.
  - f_equal. ring.
  - f_equal. rewrite Hz. ring.
Qed.

Lemma lookup_transpose D i j :
  (kmap prod_swap D : gmap (nat * nat) float) !! (j, i) = D !! (i, j).
Proof. change (j, i) with (prod_swap (i, j)). apply lookup_kmap, _. Qed.

(** C3. For a table in range with an observed rating and finite embeddings
    U (n by k) and V (m by k), the gradient is returned with
    grad_U = -2 (R V) / nnz(Y), of shape n by k, and
    grad_V = -2 (Rᵗ U) / nnz(Y), of shape m by k, for the residual
    R = Y - P on the stored positions (finite on each pair of the table) and
    the matrix products written as sums over the columns; the row of a user
    or an item with no rating is zero; nothing else is added. *)
Theorem gradient_formula df Uq Vq n m k ratings Y :
  df_wf df → in_range df n m →
  columns df !! "rating" = Some (Fin <$> ratings) →
  has_shape (qarray k Uq) n k → has_shape (qarray k Vq) m k →
  df2matrix df n m "rating" = Ok Y → 0 < nnz Y →
  ∃ P gU gV,
    (sparse_multiply df (qarray k Uq) (qarray k Vq)).2 = Ok P
    ∧ (gradient df Y (qarray k Uq) (qarray k Vq)).2 = Ok (gU, gV)
    ∧ has_shape gU n k ∧ has_shape gV m k
    ∧ (∀ p, p ∈ pairs df →
         ∃ y q, stored Y !! p = Some (Fin y) ∧ stored P !! p = Some (Fin q))
    ∧ (∀ i f, i < n → f < k →
         cell gU i f
         = Fin (zq (-2)
                * qsum ((λ j, residual Y P i j * qcell Vq j f)%Qc <$> seq 0 m)
                / zq (Z.of_nat (nnz Y))))
    ∧ (∀ j f, j < m → f < k →
         cell gV j f
         = Fin (zq (-2)
                * qsum ((λ i, residual Y P i j * qcell Uq i f)%Qc <$> seq 0 n)
                / zq (Z.of_nat (nnz Y))))
    ∧ (∀ i f, i < n → f < k → i ∉ userId df → cell gU i f = Fin 0)
    ∧ (∀ j f, j < m → f < k → j ∉ movieId df → cell gV j f = Fin 0).
Proof.
  intros Hwf Hin Hrat HU HV HY Hpos.
  apply column_values_rating in Hrat as Hc.
  rewrite (df2matrix_ok _ _ _ _ _ Hwf Hc Hin) in HY. injection HY as <-.
  destruct (sparse_multiply_ok df _ _ n m k Hwf Hin HU HV)
    as (pred & Hp & Hlen & Hsm).
  rewrite (predictions_finite df Uq Vq n m k) in Hp by done.
  injection Hp as <-.
  unfold triples in *.
  set (Ys := foldl add_entry ∅ (zip (pairs df) (Fin <$> ratings))) in *.
  set (Ps := foldl add_entry ∅ (zip (pairs df) (Fin <$> qpreds df Uq Vq))) in *.
  set (Y := mk_csc (n, m) Ys) in *. set (P := mk_csc (n, m) Ps) in *.
  set (D := merge sub_cell Ys Ps).
  assert (HYfin : finite_map Ys) by apply build_finite.
  assert (HPfin : finite_map Ps) by apply build_finite.
  assert (HD : ∀ i j, D !! (i, j) = Some (Fin (residual Y P i j))
                      ∨ (D !! (i, j) = None ∧ residual Y P i j = 0%Qc)).
  { intros i j. by apply (lookup_sub_finite Y P). }
  assert (HDkeys : ∀ p, is_Some (D !! p) → p ∈ pairs df).
  { intros p. unfold D. rewrite lookup_merge.
    destruct (Ys !! p) eqn:Hy.
    { intros _. apply (build_keys _ (Fin <$> ratings)). eexists. exact Hy. }
    destruct (Ps !! p) eqn:Hq.
    { intros _. apply (build_keys _ (Fin <$> qpreds df Uq Vq)).
      eexists. exact Hq. }
    simpl. by intros [? ?]. }
  assert (Hpair : ∀ i j, (i, j) ∈ pairs df → i ∈ userId df ∧ j ∈ movieId df).
  { intros i j Hij. split; [by eapply elem_of_zip_l|by eapply elem_of_zip_r]. }
  set (gU := amap (λ x, fdiv x (of_nat (nnz Y)))
               (mk_ndarray k (tabulate n (λ i, tabulate k (λ f,
                  sp_row_dot (fmul (Fin (zq (-2))) <$> D)
                             (qarray k Vq) i f))))).
  set (gV := amap (λ x, fdiv x (of_nat (nnz Y)))
               (mk_ndarray k (tabulate m (λ j, tabulate k (λ f,
                  sp_row_dot (fmul (Fin (zq (-2))) <$> kmap prod_swap D)
                             (qarray k Uq) j f))))).
  assert (HgU : ∀ i f, i < n → f < k →
            cell gU i f
            = Fin (zq (-2)
                   * qsum ((λ j, residual Y P i j * qcell Vq j f)%Qc
                             <$> seq 0 m)
                   / zq (Z.of_nat (nnz Y)))).
  { intros i f Hi Hf. unfold gU.
    rewrite (cell_amap_shape _ _ n k) by (done || apply tabulate_has_shape).
    rewrite cell_tabulate by done.
    rewrite (scaled_row_dot D (residual Y P) Vq i f m k); try done.
    - by apply fdiv_fin.
    - intros [a b] Hab%HDkeys. simpl. destruct Hin as [_ Hm].
      apply Hm. by apply (Hpair a b). }
  assert (HgV : ∀ j f, j < m → f < k →
            cell gV j f
            = Fin (zq (-2)
                   * qsum ((λ i, residual Y P i j * qcell Uq i f)%Qc
                             <$> seq 0 n)
                   / zq (Z.of_nat (nnz Y)))).
  { intros j f Hj Hf. unfold gV.
    rewrite (cell_amap_shape _ _ m k) by (done || apply tabulate_has_shape).
    rewrite cell_tabulate by done.
    rewrite (scaled_row_dot (kmap prod_swap D) (λ j i, residual Y P i j)
               Uq j f n k); try done.
    - by apply fdiv_fin.
    - intros j' i'. rewrite lookup_transpose. apply HD.
    - intros [b a]. rewrite lookup_transpose. intros Hab%HDkeys. simpl.
      destruct Hin as [Hn _]. apply Hn. by apply (Hpair a b). }
  assert (Hres0 : ∀ i j, (i, j) ∉ pairs df → residual Y P i j = 0%Qc).
  { intros i j Hni. unfold residual, Y, P. simpl.
    assert (Ys !! (i, j) = None) as ->.
    { apply eq_None_not_Some. by intros ?%build_keys. }
    assert (Ps !! (i, j) = None) as ->.
    { apply eq_None_not_Some. by intros ?%build_keys. }
    simpl. ring. }
  exists P, gU, gV. split_and!.
  - by rewrite Hsm.
  - unfold gradient. rewrite Hsm. simpl.
    unfold sp_sub. simpl. rewrite decide_True by done. simpl.
    unfold sp_matmul, sp_scale, sp_transpose. simpl.
    destruct HU as (HU0 & HUc & _), HV as (HV0 & HVc & _).
    rewrite HU0, HV0. rewrite !decide_True by done. simpl.
    simpl in HUc, HVc. done.
  - apply amap_has_shape, tabulate_has_shape.
  - apply amap_has_shape, tabulate_has_shape.
  - intros p Hp. apply list_elem_of_lookup in Hp as [r Hr].
    assert (is_Some (Ys !! p)) as [y Hy].
    { apply elem_of_dom. unfold Ys. rewrite dom_build, elem_of_list_to_set.
      rewrite fst_zip; [by eapply list_elem_of_lookup_2|].
      rewrite length_fmap. unfold pairs. rewrite length_zip.
      pose proof (column_values_length _ _ _ Hwf Hc) as Hl.
      rewrite length_fmap in Hl. destruct Hwf. lia. }
    assert (is_Some (Ps !! p)) as [q Hq].
    { apply elem_of_dom. unfold Ps. rewrite dom_build, elem_of_list_to_set.
      rewrite fst_zip; [by eapply list_elem_of_lookup_2|].
      rewrite length_fmap. unfold qpreds. by rewrite length_fmap. }
    destruct (HYfin _ _ Hy) as [y' ->], (HPfin _ _ Hq) as [q' ->].
    by exists y', q'.
  - done.
  - done.
  - intros i f Hi Hf Hni. rewrite HgU by done. f_equal.
    rewrite qsum_zero; [unfold Qcdiv; ring|].
    intros j _. rewrite Hres0; [ring|]. by intros [? _]%Hpair.
  - intros j f Hj Hf Hni. rewrite HgV by done. f_equal.
    rewrite qsum_zero; [unfold Qcdiv; ring|].
    intros i _. rewrite Hres0; [ring|]. by intros [_ ?]%Hpair.
Qed.

End gradient_facts.

(** ** The trainer *)

Section trainer_facts.
Implicit Types (df d : DataFrame nat) (U V g : ndarray) (v : value)
  (Y : csc_matrix).

Lemma one_minus_beta : fsub (Fin 1) beta = Fin (Q2Qc (1 # 10)).
Proof.
  unfold fsub, beta. cbn [fneg fadd]. apply f_equal. by apply Qc_is_canon.
Qed.

Lemma zip_cells_has_shape f a b n k :
  has_shape a n k → has_shape b n k → has_shape (zip_cells f a b) n k.
Proof.
  intros (Ha0 & Hac & Hal) (Hb0 & Hbc & Hbl). unfold shape0 in *.
  split_and!.
  - unfold shape0, zip_cells. simpl. rewrite length_zip_with. lia.
  - done.
  - apply Forall_lookup. intros i row. unfold zip_cells. simpl.
    rewrite lookup_zip_with.
    destruct (data a !! i) as [ra|] eqn:Hra; [|done].
    destruct (data b !! i) as [rb|] eqn:Hrb; [|done]. simpl.
    intros [= <-]. rewrite length_zip_with.
    rewrite (array_wf_lookup _ _ _ Hal Hra), (array_wf_lookup _ _ _ Hbl Hrb).
    lia.
Qed.

Lemma zip_with_map_map {A B C D E} (f : C → D → E) (h1 : A → C) (h2 : B → D)
    (l1 : list A) (l2 : list B) :
  zip_with f (map h1 l1) (map h2 l2) = zip_with (λ x y, f (h1 x) (h2 y)) l1 l2.
Proof.
  revert l2. induction l1 as [|x l1 IH]; intros [|y l2]; simpl; try done.
  by rewrite IH.
Qed.

Lemma ew_amap f h1 h2 a b n k :
  has_shape a n k → has_shape b n k →
  ew f (amap h1 a) (amap h2 b) = Ok (zip_cells (λ x y, f (h1 x) (h2 y)) a b).
Proof.
  intros Ha Hb.
  pose proof (amap_has_shape h1 _ _ _ Ha) as (Ha0 & Hac & Hal).
  pose proof (amap_has_shape h2 _ _ _ Hb) as (Hb0 & Hbc & Hbl).
  rewrite ew_same_shape by (done || lia).
  unfold zip_cells, amap. simpl. do 2 f_equal.
  rewrite (zip_with_map_map (zip_with f) (map h1) (map h2)).
  apply zip_with_ext; [|done..]. intros ra rb. apply zip_with_map_map.
Qed.

Lemma amap_id_l a : amap (λ x, x) a = a.
Proof.
  destruct a as [c rows]. unfold amap. simpl. f_equal.
  rewrite <- (list_fmap_id rows) at 2. apply list_fmap_ext.
  intros _ row _. apply map_id.
Qed.

Lemma amap_amap f h a : amap f (amap h a) = amap (λ x, f (h x)) a.
Proof.
  unfold amap. simpl. f_equal. rewrite <- list_fmap_compose.
  apply list_fmap_ext. intros _ row _. simpl. apply map_map.
Qed.

(** The two assignments to a velocity and to its embedding. *)
Lemma momentum_update v g n k :
  velocity_ok v n k → has_shape g n k →
  vadd (vscale beta v) (amap (fmul (fsub (Fin 1) beta)) g)
  = Ok (momentum v g)
  ∧ has_shape (momentum v g) n k.
Proof.
  intros Hv Hg. rewrite one_minus_beta. destruct v as [x|a]; simpl.
  - split; [by rewrite amap_amap|]. by apply amap_has_shape.
  - simpl in Hv. split; [by apply (ew_amap _ _ _ _ _ n k)|].
    by apply zip_cells_has_shape.
Qed.

Lemma descend_update η (e w : ndarray) n k :
  has_shape e n k → has_shape w n k →
  asub e (vscale η (Array w)) = Ok (descend η e w)
  ∧ has_shape (descend η e w) n k.
Proof.
  intros He Hv. simpl. split; [|by apply zip_cells_has_shape].
  rewrite <- (amap_id_l e) at 1. by apply (ew_amap _ _ _ _ _ n k).
Qed.

(** What the matrix of [sparse_multiply] depends on. *)
Lemma sparse_multiply_result df U V :
  (sparse_multiply df U V).2
  = (pred ←r predictions df U V;
     csc_build pred (userId df) (movieId df) (shape0 U, shape0 V)).
Proof.
  unfold sparse_multiply. destruct (predictions df U V) as [pred|e]; [|done].
  simpl. unfold df2matrix. by rewrite column_values_set_column.
Qed.

Lemma gradient_result df Y U V :
  (gradient df Y U V).2
  = (pred ←r (sparse_multiply df U V).2;
     d1 ←r sp_sub Y pred;
     gu ←r sp_matmul (sp_scale (Fin (zq (-2))) d1) V;
     d2 ←r sp_sub Y pred;
     gm ←r sp_matmul (sp_scale (Fin (zq (-2))) (sp_transpose d2)) U;
     Ok (amap (λ x, fdiv x (of_nat (nnz Y))) gu,
         amap (λ x, fdiv x (of_nat (nnz Y))) gm)).
Proof. unfold gradient. by destruct (sparse_multiply df U V). Qed.

(** The gradient reads the two key columns of the frame only. *)
Lemma gradient_same_keys df d Y U V :
  userId d = userId df → movieId d = movieId df →
  (gradient d Y U V).2 = (gradient df Y U V).2.
Proof.
  intros Hu Hm. rewrite !gradient_result, !sparse_multiply_result.
  unfold predictions. by rewrite Hu, Hm.
Qed.

Lemma gradient_ok df Y U V n m k :
  df_wf df → in_range df n m → has_shape U n k → has_shape V m k →
  shape Y = (n, m) →
  ∃ df' gU gV, gradient df Y U V = (df', Ok (gU, gV))
    ∧ df_wf df' ∧ only_prediction_changed df df'
    ∧ has_shape gU n k ∧ has_shape gV m k.
Proof.
  intros Hwf Hin HU HV HY.
  destruct (sparse_multiply_ok df U V n m k Hwf Hin HU HV)
    as (pred & Hp & Hlen & Hsm).
  unfold gradient. rewrite Hsm. simpl.
  unfold sp_sub. rewrite HY. simpl. rewrite decide_True by done. simpl.
  unfold sp_matmul, sp_scale, sp_transpose. simpl.
  destruct HU as (HU0 & HUc & HUl), HV as (HV0 & HVc & HVl).
  rewrite HU0, HV0, !decide_True by done. simpl.
  eexists _, _, _. split; [reflexivity|]. split_and!.
  - by apply set_column_wf.
  - apply only_prediction_changed_set.
  - rewrite HVc. apply amap_has_shape, tabulate_has_shape.
  - rewrite HUc. apply amap_has_shape, tabulate_has_shape.
Qed.

Lemma cost_ok df U V n m k :
  df_wf df → in_range df n m → is_Some (columns df !! "rating") →
  has_shape U n k → has_shape V m k →
  ∃ df' c, cost (Some df) U V = (Some df', Ok c)
    ∧ df_wf df' ∧ only_prediction_changed df df'.
Proof.
  intros Hwf Hin [c Hc%column_values_rating] HU HV.
  destruct (sparse_multiply_ok df U V n m k Hwf Hin HU HV)
    as (pred & Hp & Hlen & Hsm).
  unfold cost. destruct HU as (HU0 & _), HV as (HV0 & _).
  rewrite HU0, HV0, (df2matrix_ok _ _ _ _ c) by done.
  rewrite Hsm. simpl. unfold sp_sub. simpl. rewrite decide_True by done.
  simpl. eexists _, _. split; [reflexivity|]. split.
  - by apply set_column_wf.
  - apply only_prediction_changed_set.
Qed.

End trainer_facts.


Section trainer_loop.
Variables (df : DataFrame nat) (Y : csc_matrix) (n m k : nat) (η : float).
Hypothesis Hin : in_range df n m.
Hypothesis HY : shape Y = (n, m).

Lemma in_range_same_keys (d : DataFrame nat) :
  userId d = userId df → movieId d = movieId df → in_range d n m.
Proof using Hin. intros Hu Hm. unfold in_range. by rewrite Hu, Hm. Qed.

Lemma cost_val_ok (o : option (DataFrame nat)) U V :
  (∀ dv, o = Some dv →
     df_wf dv ∧ in_range dv n m ∧ is_Some (columns dv !! "rating")) →
  has_shape U n k → has_shape V m k →
  ∃ o' c, cost o U V = (o', Ok c)
    ∧ ∀ dv, o' = Some dv →
        df_wf dv ∧ in_range dv n m ∧ is_Some (columns dv !! "rating").
Proof.
  intros Ho HU HV. destruct o as [dv|].
  - destruct (Ho dv eq_refl) as (Hwf & Hr & Hrat).
    destruct (cost_ok dv U V n m k Hwf Hr Hrat HU HV)
      as (dv' & c & -> & Hwf' & Hu & Hm & Hcol).
    eexists _, _. split; [done|]. intros ? [= <-]. split_and!; [done| |].
    + unfold in_range. rewrite Hu, Hm. apply Hr.
    + by rewrite Hcol.
  - eexists _, _. split; [done|]. by intros ? [=].
Qed.

(** One pass of the loop body is one transition, and raises nothing. *)
Lemma gd_body_step s i :
  trainer_inv df n m k s →
  ∃ s', gd_body Y η s i = (s', Ok ())
    ∧ trainer_inv df n m k s'
    ∧ momentum_step df Y η (gd_view s) (gd_view s').
Proof using Hin HY.
  intros (Hwf & Hu & Hm & Hrat & HU & HV & HvU & HvV & Hval).
  pose proof (in_range_same_keys _ Hu Hm) as Hr.
  destruct (gradient_ok (st_df s) Y _ _ n m k Hwf Hr HU HV HY)
    as (df1 & gU & gV & Hg & Hwf1 & (Hu1 & Hm1 & Hcol1) & HgU & HgV).
  assert (Hstep : momentum_step df Y η (gd_view s)
            (descend η (st_user s) (momentum (st_v_user s) gU),
             descend η (st_movie s) (momentum (st_v_movie s) gV),
             Array (momentum (st_v_user s) gU),
             Array (momentum (st_v_movie s) gV))).
  { constructor. rewrite <- (gradient_same_keys df (st_df s)) by done.
    by rewrite Hg. }
  destruct (momentum_update _ _ _ _ HvU HgU) as [HmU HsU].
  destruct (momentum_update _ _ _ _ HvV HgV) as [HmV HsV].
  destruct (descend_update η _ _ _ _ HU HsU) as [HdU HeU].
  destruct (descend_update η _ _ _ _ HV HsV) as [HdV HeV].
  assert (Hrat1 : is_Some (columns df1 !! "rating")) by by rewrite Hcol1.
  assert (Hu1' : userId df1 = userId df) by congruence.
  assert (Hm1' : movieId df1 = movieId df) by congruence.
  unfold gd_body. rewrite Hg. cbv zeta.
  rewrite HmU. cbn [rbind]. rewrite HmV. cbn [rbind].
  rewrite HdU. cbn [rbind]. rewrite HdV. cbn [rbind].
  case_decide as Hi.
  - pose proof (in_range_same_keys _ Hu1' Hm1') as Hr1.
    destruct (cost_ok df1 _ _ n m k Hwf1 Hr1 Hrat1 HeU HeV)
      as (df2 & c & Hc & Hwf2 & Hu2 & Hm2 & Hcol2).
    rewrite Hc. cbn [default].
    destruct (cost_val_ok (st_val s) _ _ Hval HeU HeV)
      as (val2 & cv & Hcv & Hval2).
    rewrite Hcv.
    eexists. split; [reflexivity|]. split; [|exact Hstep].
    unfold trainer_inv. cbn.
    split_and!; try done; try congruence. by rewrite Hcol2.
  - eexists. split; [reflexivity|]. split; [|exact Hstep].
    unfold trainer_inv. cbn. split_and!; done.
Qed.

(** The loop over [range(T)] makes [T] transitions. *)
Lemma gd_loop_steps T a s :
  trainer_inv df n m k s →
  ∃ s', gd_loop Y η s (seq a T) = (s', Ok ())
    ∧ trainer_inv df n m k s'
    ∧ nsteps (momentum_step df Y η) T (gd_view s) (gd_view s').
Proof using Hin HY.
  revert a s. induction T as [|T IH]; intros a s Hinv; simpl.
  - exists s. split_and!; [done..|]. constructor.
  - destruct (gd_body_step s a Hinv) as (s1 & -> & Hinv1 & Hstep).
    destruct (IH (S a) s1 Hinv1) as (s' & -> & Hinv' & Hsteps).
    exists s'. split_and!; [done..|]. by econstructor.
Qed.

End trainer_loop.

(** C4. For every number of iterations T, learning rate η and initial
    embeddings U₀ (n by k) and V₀ (m by k), on a table in range (and a
    validation table in range, if there is one) the trainer builds Y once,
    from the table as it is given, starts from the velocities 0, makes
    exactly T transitions, each taking the gradients against that Y, then
    v ← 0.9 v + 0.1 grad for both velocities, then U ← U − η v_U and
    V ← V − η v_V, and returns the U and V of the last state: no pass is
    left out and none is added. *)
Theorem gradient_descent_fixed_budget df U0 V0 n m k T η df_val :
  df_wf df → in_range df n m → is_Some (columns df !! "rating") →
  has_shape U0 n k → has_shape V0 m k →
  (∀ dv, df_val = Some dv →
     df_wf dv ∧ in_range dv n m ∧ is_Some (columns dv !! "rating")) →
  ∃ Y s UT VT vU vV,
    df2matrix df n m "rating" = Ok Y
    ∧ nsteps (momentum_step df Y η) T
        (U0, V0, Scalar (Fin 0), Scalar (Fin 0)) (UT, VT, vU, vV)
    ∧ gradient_descent df U0 V0 T η df_val = (s, Ok (UT, VT)).
Proof.
  intros Hwf Hin Hrat HU HV Hval.
  destruct Hrat as [c Hc]. pose proof (column_values_rating _ _ Hc) as Hcv.
  pose proof (df2matrix_ok _ _ _ _ _ Hwf Hcv Hin) as HY.
  set (s0 := mk_gd df df_val U0 V0 (Scalar (Fin 0)) (Scalar (Fin 0)) []).
  assert (Hinv : trainer_inv df n m k s0).
  { unfold trainer_inv. cbn. split_and!; first [done|by eexists]. }
  destruct (gd_loop_steps df (mk_csc (n, m) (foldl add_entry ∅ (triples df c)))
              n m k η Hin eq_refl T 0 s0 Hinv)
    as (s' & Hloop & _ & Hsteps).
  eexists _, s', (st_user s'), (st_movie s'), (st_v_user s'), (st_v_movie s').
  split; [exact HY|]. split; [exact Hsteps|].
  unfold gradient_descent.
  destruct HU as (-> & _), HV as (-> & _). rewrite HY.
  fold s0. by rewrite Hloop.
Qed.

(** ** The statements at sample inputs *)

Lemma gradient_formula_witness :
  df_wf df_two ∧ in_range df_two 2 2
  ∧ columns df_two !! "rating" = Some (Fin <$> [zq 5; zq 3])
  ∧ has_shape (qarray 2 [[zq 1; zq 0]; [zq 0; zq 1]]) 2 2
  ∧ ∃ Y, df2matrix df_two 2 2 "rating" = Ok Y ∧ 0 < nnz Y
      ∧ is_ok (gradient df_two Y (qarray 2 [[zq 1; zq 0]; [zq 0; zq 1]])
                 (qarray 2 [[zq 1; zq 0]; [zq 0; zq 1]])).2.
Proof.
  split; [exact df_two_wf|]. split; [exact df_two_in_range|].
  split; [reflexivity|]. split; [exact eye2_shape|].
  eexists. split; [reflexivity|].
  assert (Hpos : 0 < nnz (mk_csc (2, 2)
                   (foldl add_entry ∅ (triples df_two [fz 5; fz 3])))).
  { apply Nat.ltb_lt. reflexivity. }
  split; [exact Hpos|].
  destruct (gradient_formula df_two [[zq 1; zq 0]; [zq 0; zq 1]]
              [[zq 1; zq 0]; [zq 0; zq 1]] 2 2 2 [zq 5; zq 3] _
              df_two_wf df_two_in_range eq_refl eye2_shape eye2_shape
              eq_refl Hpos)
    as (P & gU & gV & _ & Hg & _).
  exists (gU, gV). exact Hg.
Defined.

Lemma gradient_descent_fixed_budget_witness :
  df_wf df_two ∧ in_range df_two 2 2
  ∧ is_Some (columns df_two !! "rating") ∧ has_shape eye2 2 2
  ∧ ∃ s UT VT,
      gradient_descent df_two eye2 eye2 3 (Fin (Q2Qc (1 # 100))) None
      = (s, Ok (UT, VT)).
Proof.
  assert (Hrat : is_Some (columns df_two !! "rating"))
    by (eexists; reflexivity).
  split; [exact df_two_wf|]. split; [exact df_two_in_range|].
  split; [exact Hrat|]. split; [exact eye2_shape|].
  destruct (gradient_descent_fixed_budget df_two eye2 eye2 2 2 2 3
              (Fin (Q2Qc (1 # 100))) None
              df_two_wf df_two_in_range Hrat eye2_shape eye2_shape)
    as (Y & s & UT & VT & vU & vV & _ & _ & Hgd).
  { intros dv Hdv. discriminate Hdv. }
  exists s, UT, VT. exact Hgd.
Defined.

(** * Further properties *)

(** ** The codes of the encoder *)

Section encoder_codes.
Context `{Countable K}.
Implicit Types (col : list K) (m : gmap K nat) (idx : list nat).

(** The codes of a column, read back through [unique]. *)
Lemma proc_col_codes col :
  ∃ m idx,
    proc_col col = Ok (m, idx, size (list_to_set col : gset K))
    ∧ length idx = length col
    ∧ (∀ k i, m !! k = Some i ↔ unique col !! i = Some k)
    ∧ (∀ r k, col !! r = Some k →
         ∃ i, idx !! r = Some i ∧ unique col !! i = Some k)
    ∧ (∀ i, i ∈ idx → i < size (list_to_set col : gset K)).
Proof.
  destruct (proc_col_unique col) as (m & idx & Hp & Hm & Hlen & Htr).
  exists m, idx. split_and!; [done..| |].
  - intros r k Hr.
    assert (k ∈ unique col) as Hk.
    { apply unique_elem. by eapply list_elem_of_lookup_2. }
    apply list_elem_of_lookup in Hk as [i Hi].
    exists i. split; [|done]. rewrite (Htr _ _ Hr). by apply Hm.
  - intros i [r Hr]%list_elem_of_lookup.
    destruct (lookup_lt_is_Some_2 col r) as [k Hk].
    { rewrite <- Hlen. by eapply lookup_lt_Some. }
    rewrite (Htr _ _ Hk) in Hr. apply Hm in Hr.
    rewrite <- length_unique. by eapply lookup_lt_Some.
Qed.

(** X1. The codes [proc_col] gives decode: the code of a row is the place
    of its key among the distinct keys in order of first appearance, so two
    rows have one code exactly when they have one key; every code is below
    the count returned, and every number below the count is the code of
    some row (the codes are 0, ..., n-1 with none left out). *)
Theorem proc_col_round_trip col :
  ∃ name2idx idx n,
    proc_col col = Ok (name2idx, idx, n)
    ∧ length idx = length col
    ∧ (∀ r k, col !! r = Some k →
         ∃ i, idx !! r = Some i ∧ name2idx !! k = Some i
              ∧ unique col !! i = Some k)
    ∧ (∀ r1 r2 k1 k2, col !! r1 = Some k1 → col !! r2 = Some k2 →
         (idx !! r1 = idx !! r2 ↔ k1 = k2))
    ∧ (∀ i, i ∈ idx → i < n)
    ∧ (∀ i, i < n → i ∈ idx).
Proof.
  destruct (proc_col_codes col) as (m & idx & Hp & Hlen & Hm & Hdec & Hlt).
  exists m, idx, (size (list_to_set col : gset K)).
  split_and!; [done..| | |done|].
  - intros r k Hr. destruct (Hdec _ _ Hr) as (i & Hi & Hu).
    exists i. split_and!; [done| |done]. by apply Hm.
  - intros r1 r2 k1 k2 H1 H2.
    destruct (Hdec _ _ H1) as (i1 & -> & Hu1).
    destruct (Hdec _ _ H2) as (i2 & -> & Hu2).
    split; [intros [= ->]; congruence|].
    intros ->. f_equal.
    pose proof (NoDup_unique_from ∅ col) as Hnd.
    by eapply (NoDup_lookup _ _ _ _ Hnd).
  - intros i Hi. rewrite <- length_unique in Hi.
    destruct (lookup_lt_is_Some_2 _ _ Hi) as [k Hk].
    assert (k ∈ col) as Hkc.
    { apply unique_elem. by eapply list_elem_of_lookup_2. }
    apply list_elem_of_lookup in Hkc as [r Hr].
    destruct (Hdec _ _ Hr) as (i' & Hi' & Hu').
    pose proof (NoDup_unique_from ∅ col) as Hnd.
    assert (i' = i) as -> by by eapply (NoDup_lookup _ _ _ _ Hnd).
    by eapply list_elem_of_lookup_2.
Qed.

(** X2. [encode_data] raises nothing; the frame it returns has the float
    columns of its argument, its two key columns hold codes below the two
    counts returned, and so a sparse matrix of those bounds can be built
    from it for any column the frame has: the build is never out of
    range. *)
Theorem encode_data_in_range (df : DataFrame K) :
  df_wf df →
  ∃ df' num_users num_movies,
    encode_data df = Ok (df', num_users, num_movies)
    ∧ num_users = size (list_to_set (userId df) : gset K)
    ∧ num_movies = size (list_to_set (movieId df) : gset K)
    ∧ columns df' = columns df
    ∧ df_wf df'
    ∧ in_range df' num_users num_movies
    ∧ ∀ name, is_ok (column_values df' name) →
        is_ok (df2matrix df' num_users num_movies name).
Proof.
  intros [Hlen Hcols].
  destruct (proc_col_codes (userId df)) as (m1 & u & Hp1 & Hl1 & _ & _ & Hu).
  destruct (proc_col_codes (movieId df)) as (m2 & v & Hp2 & Hl2 & _ & _ & Hv).
  unfold encode_data. rewrite Hp1, Hp2. simpl.
  eexists _, _, _. split; [reflexivity|]. split_and!; [done..| | |].
  - split; simpl; [lia|]. intros name c Hc. simpl.
    rewrite Hl1. by apply (Hcols name c).
  - split; simpl; done.
  - intros name [c Hc]. eexists. apply (df2matrix_ok _ _ _ _ c); [|done|].
    + split; simpl; [lia|]. intros name' c' Hc'. simpl.
      rewrite Hl1. by apply (Hcols name' c').
    + split; simpl; done.
Qed.

Lemma elem_of_select {A} (mask : list bool) (l : list A) x :
  x ∈ select mask l → ∃ r, mask !! r = Some true ∧ l !! r = Some x.
Proof.
  revert l. induction mask as [|b mask IH]; intros [|y l]; simpl;
    try by intros ?%elem_of_nil.
  destruct b.
  - intros [->|Hx]%elem_of_cons; [by exists 0|].
    destruct (IH _ Hx) as (r & ? & ?). by exists (S r).
  - intros Hx. destruct (IH _ Hx) as (r & ? & ?). by exists (S r).
Qed.

Lemma replace_codes_below d (s : list K) n :
  (∀ x, x ∈ s → ∃ i, d !! x = Some i ∧ i < n) → codes_below n (replace d s).
Proof.
  intros Hs q Hq. unfold replace in Hq.
  apply list_elem_of_fmap in Hq as (x & -> & Hx).
  destruct (Hs _ Hx) as (i & -> & Hi). by exists i.
Qed.

Lemma elem_of_mask_select d1 d2 (us ms : list K) x :
  x ∈ select (zip_with andb (isin us d1) (isin ms d2)) us →
  is_Some (d1 !! x).
Proof.
  intros (r & Hr & Hx)%elem_of_select.
  apply lookup_zip_with_Some in Hr as (b1 & b2 & Hb & H1 & _).
  symmetry in Hb. apply andb_true_iff in Hb as [-> _].
  unfold isin in H1. rewrite list_lookup_fmap, Hx in H1. simpl in H1.
  injection H1 as H1. by apply bool_decide_eq_true in H1.
Qed.

Lemma elem_of_mask_select_r d1 d2 (us ms : list K) x :
  x ∈ select (zip_with andb (isin us d1) (isin ms d2)) ms →
  is_Some (d2 !! x).
Proof.
  intros (r & Hr & Hx)%elem_of_select.
  apply lookup_zip_with_Some in Hr as (b1 & b2 & Hb & _ & H2).
  symmetry in Hb. apply andb_true_iff in Hb as [_ ->].
  unfold isin in H2. rewrite list_lookup_fmap, Hx in H2. simpl in H2.
  injection H2 as H2. by apply bool_decide_eq_true in H2.
Qed.

(** X3. [encode_new_data] encodes the training frame exactly as
    [encode_data] does. Where the in-place replace writes through (before
    pandas 3), every cell of the two key columns of the validation frame it
    returns is a code below the count of the training users, respectively
    of the training items: no raw key is left and no code is out of the
    range of the training embeddings. Under copy-on-write (pandas 3) every
    such cell is still a raw key, one that the training column has: no key
    is encoded. *)
Theorem encode_new_data_codes_in_training_range
    (p : pandas) (df_val df_train : DataFrame K) :
  ∃ df_train' df_val' num_users num_movies,
    encode_data df_train = Ok (df_train', num_users, num_movies)
    ∧ encode_new_data p df_val df_train = Ok (df_train', df_val')
    ∧ match p with
      | WriteThrough =>
          codes_below num_users (userId df_val')
          ∧ codes_below num_movies (movieId df_val')
      | CopyOnWrite =>
          raw_keys_of (userId df_train) (userId df_val')
          ∧ raw_keys_of (movieId df_train) (movieId df_val')
      end.
Proof.
  destruct (proc_col_codes (userId df_train))
    as (m1 & u & Hp1 & _ & Hm1 & _ & _).
  destruct (proc_col_codes (movieId df_train))
    as (m2 & v & Hp2 & _ & Hm2 & _ & _).
  destruct (proc_col_keys (userId df_train)) as (m1' & u' & Hp1' & Hd1).
  destruct (proc_col_keys (movieId df_train)) as (m2' & v' & Hp2' & Hd2).
  rewrite Hp1 in Hp1'. injection Hp1' as <- <-.
  rewrite Hp2 in Hp2'. injection Hp2' as <- <-.
  unfold encode_data, encode_new_data. rewrite Hp1, Hp2. simpl.
  eexists _, _, _, _. split; [reflexivity|]. split; [reflexivity|].
  destruct p; simpl; split.
  - apply replace_codes_below. intros x [i Hi]%elem_of_mask_select.
    exists i. split; [done|]. apply Hm1 in Hi.
    rewrite <- length_unique. by eapply lookup_lt_Some.
  - apply replace_codes_below. intros x [i Hi]%elem_of_mask_select_r.
    exists i. split; [done|]. apply Hm2 in Hi.
    rewrite <- length_unique. by eapply lookup_lt_Some.
  - intros q (x & -> & Hx%elem_of_mask_select)%list_elem_of_fmap.
    exists x. split; [done|]. by apply Hd1.
  - intros q (x & -> & Hx%elem_of_mask_select_r)%list_elem_of_fmap.
    exists x. split; [done|]. by apply Hd2.
Qed.

End encoder_codes.

(** ** Exceptions and what they leave in the frame *)

Section error_edges.
Implicit Types (df d : DataFrame nat) (U V : ndarray) (Y : csc_matrix).

Lemma gather_rows_index_error rows idx :
  (∃ i, i ∈ idx ∧ length rows ≤ i) → gather_rows rows idx = Err IndexError.
Proof.
  induction idx as [|j idx IH]; intros (i & Hi & Hle); simpl.
  - by apply elem_of_nil in Hi.
  - destruct (rows !! j) as [row|] eqn:Hj; simpl; [|done].
    apply elem_of_cons in Hi as [->|Hi].
    + apply lookup_lt_Some in Hj. lia.
    + rewrite IH; [done|]. by exists i.
Qed.

Lemma gather_rows_total rows idx :
  (∃ g, gather_rows rows idx = Ok g) ∨ gather_rows rows idx = Err IndexError.
Proof.
  induction idx as [|j idx IH]; simpl; [left; by eexists|].
  destruct (rows !! j) as [row|]; simpl; [|by right].
  destruct IH as [[g ->]| ->]; simpl; [left; by eexists|by right].
Qed.

(** X4. When some user index or item index of the table is not below the
    number of rows of its embedding, the masked predictor raises IndexError
    (from the indexing of the embedding) before it writes anything: the
    frame is returned as it was, without a new ["Prediction"] column, and
    [gradient] passes the same error on with the frame as it was. *)
Theorem sparse_multiply_index_error df U V :
  (∃ i, i ∈ userId df ∧ shape0 U ≤ i) ∨ (∃ j, j ∈ movieId df ∧ shape0 V ≤ j) →
  sparse_multiply df U V = (df, Err IndexError)
  ∧ ∀ Y, gradient df Y U V = (df, Err IndexError).
Proof.
  intros Hout.
  assert (predictions df U V = Err IndexError) as Hp.
  { unfold predictions, gather.
    destruct Hout as [Hu|Hm].
    - by rewrite gather_rows_index_error.
    - destruct (gather_rows_total (data U) (userId df)) as [[g ->]| ->];
        [|done].
      simpl. by rewrite gather_rows_index_error. }
  assert (sparse_multiply df U V = (df, Err IndexError)) as Hsm.
  { unfold sparse_multiply. by rewrite Hp. }
  split; [done|]. intros Y. unfold gradient. by rewrite Hsm.
Qed.

Lemma bdim_None a b : a ≠ b → a ≠ 1 → b ≠ 1 → bdim a b = None.
Proof. intros. unfold bdim. by rewrite !decide_False. Qed.

(** X5. On a table in range, embeddings whose numbers of factors differ,
    neither being 1, make the masked predictor raise the shape error of the
    elementwise product, again before anything is written to the frame;
    [cost] and [gradient] pass it on. *)
Theorem sparse_multiply_factor_mismatch df U V :
  df_wf df → in_range df (shape0 U) (shape0 V) →
  ncol U ≠ ncol V → ncol U ≠ 1 → ncol V ≠ 1 →
  sparse_multiply df U V = (df, Err ShapeMismatch)
  ∧ (∀ Y, gradient df Y U V = (df, Err ShapeMismatch))
  ∧ (is_Some (columns df !! "rating") →
       cost (Some df) U V = (Some df, Err ShapeMismatch)).
Proof.
  intros Hwf [Hu Hm] Hne H1 H2.
  assert (predictions df U V = Err ShapeMismatch) as Hp.
  { unfold predictions, gather.
    destruct (gather_rows_ok (data U) (userId df)) as [gu ->]; [done|].
    destruct (gather_rows_ok (data V) (movieId df)) as [gv ->]; [done|].
    simpl. unfold ew. simpl. rewrite (bdim_None (ncol U)) by done.
    by destruct (bdim _ _). }
  assert (sparse_multiply df U V = (df, Err ShapeMismatch)) as Hsm.
  { unfold sparse_multiply. by rewrite Hp. }
  split; [done|]. split.
  - intros Y. unfold gradient. by rewrite Hsm.
  - intros [c Hc%column_values_rating]. unfold cost.
    rewrite (df2matrix_ok _ _ _ _ c) by done. by rewrite Hsm.
Qed.

(** X6. A frame without a column ["rating"] makes [cost] raise KeyError
    with the frame untouched, and [gradient_descent] raise it before the
    first pass of its loop, with nothing printed and the caller's frame as
    it was. *)
Theorem cost_missing_rating df U V :
  columns df !! "rating" = None →
  cost (Some df) U V = (Some df, Err KeyError)
  ∧ ∀ T η df_val,
      (gradient_descent df U V T η df_val).2 = Err KeyError
      ∧ st_out (gradient_descent df U V T η df_val).1 = []
      ∧ st_df (gradient_descent df U V T η df_val).1 = df.
Proof.
  intros Hc.
  assert (∀ n m, df2matrix df n m "rating" = Err KeyError) as Herr.
  { intros n m. unfold df2matrix, column_values.
    rewrite !decide_False by done. by rewrite Hc. }
  split.
  - unfold cost. by rewrite Herr.
  - intros T η df_val. unfold gradient_descent. by rewrite Herr.
Qed.

(** X7. When the matrix handed to [gradient] has not the shape (rows of
    U, rows of V), the subtraction raises the shape error, but only after
    the predictions were written: the exception leaves the caller's frame
    with the column ["Prediction"] set. *)
Theorem gradient_shape_mismatch_after_write df Y U V n m k :
  df_wf df → in_range df n m → has_shape U n k → has_shape V m k →
  shape Y ≠ (n, m) →
  ∃ pred, predictions df U V = Ok pred
    ∧ gradient df Y U V = (set_column df "Prediction" pred, Err ShapeMismatch).
Proof.
  intros Hwf Hin HU HV HY.
  destruct (sparse_multiply_ok df U V n m k Hwf Hin HU HV)
    as (pred & Hp & _ & Hsm).
  exists pred. split; [done|].
  unfold gradient. rewrite Hsm. simpl. unfold sp_sub. simpl.
  by rewrite decide_False.
Qed.

(** Two frames with the same key columns and the same ratings have the
    same cost. *)
Lemma cost_same_keys_and_rating d1 d2 U V :
  userId d1 = userId d2 → movieId d1 = movieId d2 →
  columns d1 !! "rating" = columns d2 !! "rating" →
  (cost (Some d1) U V).2 = (cost (Some d2) U V).2.
Proof.
  intros Hu Hm Hr.
  assert (∀ n m, df2matrix d1 n m "rating" = df2matrix d2 n m "rating")
    as Hdm.
  { intros n m. unfold df2matrix, column_values.
    rewrite !decide_False by done. by rewrite Hu, Hm, Hr. }
  assert ((sparse_multiply d1 U V).2 = (sparse_multiply d2 U V).2) as Hsm.
  { rewrite !sparse_multiply_result. unfold predictions.
    by rewrite Hu, Hm. }
  unfold cost. rewrite Hdm.
  destruct (df2matrix d2 _ _ "rating") as [Yr|e]; [|done].
  destruct (sparse_multiply d1 U V) as [d1' r1].
  destruct (sparse_multiply d2 U V) as [d2' r2].
  simpl in *. by rewrite Hsm.
Qed.

(** X8. The values of [cost] and [gradient] depend on the key columns of
    the frame (and for [cost] on its ratings) only: two frames that agree
    on them give the same value, whatever else they hold; so a column
    ["Prediction"] left by an earlier call, with other embeddings, changes
    nothing. *)
Theorem cost_gradient_read_keys_and_ratings df d U V :
  userId d = userId df → movieId d = movieId df →
  columns d !! "rating" = columns df !! "rating" →
  (cost (Some d) U V).2 = (cost (Some df) U V).2
  ∧ (∀ Y, (gradient d Y U V).2 = (gradient df Y U V).2)
  ∧ ∀ U' V' c,
      (cost (Some (set_column df "Prediction" c)) U V).2
      = (cost (Some df) U V).2
      ∧ (cost (Some (sparse_multiply df U' V').1) U V).2
        = (cost (Some df) U V).2.
Proof.
  intros Hu Hm Hr. split; [by apply cost_same_keys_and_rating|]. split.
  - intros Y. by apply gradient_same_keys.
  - intros U' V' c. split.
    + apply cost_same_keys_and_rating; [done..|]. simpl.
      by rewrite lookup_insert_ne.
    + destruct (sparse_multiply df U' V') as [d' r'] eqn:Hsm.
      apply sparse_multiply_frame in Hsm as [(Hu' & Hm' & Hc') _].
      simpl. apply cost_same_keys_and_rating; [done..|]. by apply Hc'.
Qed.

End error_edges.

(** ** The number of stored entries *)

Section nnz_facts.

Lemma size_list_to_set_le (l : list (nat * nat)) :
  size (list_to_set l : gset (nat * nat)) ≤ length l
  ∧ (size (list_to_set l : gset (nat * nat)) = length l → NoDup l).
Proof.
  induction l as [|x l [IHle IHnd]]; [split; [done|constructor]|].
  rewrite list_to_set_cons. cbn [length].
  destruct (decide (x ∈ l)) as [Hx|Hx].
  - assert ({[x]} ∪ list_to_set l = (list_to_set l : gset (nat * nat))) as ->
      by set_solver.
    split; lia.
  - rewrite (size_union (C:=gset (nat * nat)) {[x]}) by set_solver.
    rewrite size_singleton. split; [lia|].
    intros Hs. constructor; [done|]. apply IHnd. lia.
Qed.

(** X9. A matrix built by [df2matrix] never has more stored entries than
    the table has rows, and it has as many exactly when no (user, item)
    pair repeats: a count of entries below the count of rows tells that
    rows were merged. *)
Theorem df2matrix_nnz_le_rows (df : DataFrame nat) nrows ncols name Y :
  df2matrix df nrows ncols name = Ok Y →
  nnz Y ≤ length (userId df)
  ∧ (nnz Y = length (userId df) ↔ NoDup (pairs df)).
Proof.
  intros (c & _ & Hu & Hm & _ & ->)%df2matrix_inv.
  unfold nnz. simpl.
  rewrite <- size_dom, dom_build, triples_fst by done.
  assert (length (pairs df) = length (userId df)) as <-.
  { unfold pairs. rewrite length_zip. lia. }
  destruct (size_list_to_set_le (pairs df)) as [Hle Hnd].
  split; [done|]. split; [done|]. apply size_list_to_set.
Qed.

End nnz_facts.

(** ** The sign of the cost *)

Section cost_sign.
Implicit Types (df : DataFrame nat) (U V : ndarray).

Lemma qc_sqr_nonneg (r : Qc) : (0 <= r * r)%Qc.
Proof.
  destruct (Qclt_le_dec r 0) as [Hneg|Hpos].
  - assert (0 <= - r)%Qc as Hr.
    { apply Qclt_le_weak in Hneg. apply Qcopp_le_compat in Hneg.
      by replace (- 0)%Qc with 0%Qc in Hneg by ring. }
    pose proof (Qcmult_le_compat_r 0 (- r) (- r) Hr Hr) as Hm.
    replace (0 * - r)%Qc with 0%Qc in Hm by ring.
    by replace (- r * - r)%Qc with (r * r)%Qc in Hm by ring.
  - pose proof (Qcmult_le_compat_r 0 r r Hpos Hpos) as Hm.
    by replace (0 * r)%Qc with 0%Qc in Hm by ring.
Qed.

Lemma zq_pos (n : nat) : 0 < n → (0 < zq (Z.of_nat n))%Qc.
Proof.
  intros Hn. unfold Qclt, zq. cbn [this Q2Qc].
  rewrite (Qred_correct (inject_Z (Z.of_nat n))).
  unfold Qlt. simpl. lia.
Qed.

Lemma qc_div_nonneg (q : Qc) (n : nat) :
  (0 <= q)%Qc → 0 < n → (0 <= q / zq (Z.of_nat n))%Qc.
Proof.
  intros Hq Hn. pose proof (zq_pos n Hn) as Hz.
  apply (Qcmult_lt_0_le_reg_r _ _ _ Hz).
  replace (0 * zq (Z.of_nat n))%Qc with 0%Qc by ring.
  replace (q / zq (Z.of_nat n) * zq (Z.of_nat n))%Qc with q; [done|].
  rewrite Qcmult_comm, Qcmult_div_r; [done|].
  intros Heq. rewrite Heq in Hz. by apply Qclt_not_eq in Hz.
Qed.

Lemma qneg_nonneg (a : Qc) : (0 <= a)%Qc → qneg a = false.
Proof.
  intros Ha. unfold qneg. destruct (a ?= 0)%Qc eqn:Hc; try done.
  apply Qclt_alt in Hc. by apply Qcle_not_lt in Ha.
Qed.

Lemma zq_nonneg (n : nat) : (0 <= zq (Z.of_nat n))%Qc.
Proof.
  destruct n as [|n]; [by apply Qcle_refl|].
  apply Qclt_le_weak, zq_pos. lia.
Qed.

(** A square is not negative, whatever float is squared. *)
Lemma fpow2_not_negative (x : float) : not_negative (fpow x 2).
Proof.
  destruct x as [q|s|]; [|by destruct s|done].
  change (fpow (Fin q) 2) with (Fin (q * (q * 1))). cbn [not_negative].
  replace (q * (q * 1))%Qc with (q * q)%Qc by ring. apply qc_sqr_nonneg.
Qed.

Lemma fadd_not_negative (x y : float) :
  not_negative x → not_negative y → not_negative (fadd x y).
Proof.
  destruct x as [a|s|], y as [b|t|]; cbn [not_negative fadd]; try done.
  - intros Ha Hb. pose proof (Qcplus_le_compat 0 a 0 b Ha Hb) as Hs.
    by replace (0 + 0)%Qc with 0%Qc in Hs by ring.
  - by intros -> ->.
Qed.

(** The sum of the stored entries of a map of floats that are not
    negative. *)
Lemma map_fold_fadd_not_negative (M : gmap (nat * nat) float) :
  (∀ p v, M !! p = Some v → not_negative v) →
  not_negative (map_fold (λ _ x acc, fadd acc x) (Fin 0) M).
Proof.
  apply (map_fold_weak_ind
           (λ r M, (∀ p v, M !! p = Some v → not_negative v) →
                   not_negative r)).
  - intros _. apply Qcle_refl.
  - intros p x M' r Hp IH HM. apply fadd_not_negative.
    + apply IH. intros p' v Hv. apply (HM p').
      rewrite lookup_insert_ne; [done|]. intros ->. congruence.
    + apply (HM p). by rewrite lookup_insert_eq.
Qed.

(** A float that is not negative, divided by a count. *)
Lemma fdiv_not_negative (x : float) (n : nat) :
  not_negative x → not_negative (fdiv x (of_nat n)).
Proof.
  unfold of_nat. destruct x as [a|s|]; cbn [not_negative fdiv]; [| |done].
  - intros Ha. destruct n as [|n].
    + change (qzero (zq (Z.of_nat 0))) with true. cbv iota.
      destruct (qzero a); [done|]. cbn [not_negative].
      by apply qneg_nonneg.
    + rewrite zq_nonzero by lia. cbn [not_negative].
      apply qc_div_nonneg; [done|lia].
  - intros ->. cbn [xorb]. by rewrite (qneg_nonneg _ (zq_nonneg n)).
Qed.

(** X10. For a table in range that has ratings and embeddings of matching
    shapes, whatever floats the ratings and the embeddings hold (infinities
    and NaN included), the cost is returned and it is never negative: it is
    a number that is zero or more, the positive infinity, or NaN. Nothing
    is claimed about its being finite. *)
Theorem cost_nonnegative df U V n m k :
  df_wf df → in_range df n m → is_Some (columns df !! "rating") →
  has_shape U n k → has_shape V m k →
  ∃ x, (cost (Some df) U V).2 = Ok (Some x) ∧ not_negative x.
Proof.
  intros Hwf Hin [c Hc%column_values_rating] HU HV.
  destruct (cost_unfold df U V n m k c Hwf Hin HU HV Hc)
    as (pred & Hp & Hlen & ->).
  cbv zeta. eexists. split; [reflexivity|].
  apply fdiv_not_negative. unfold sp_sum, sp_power. cbn [stored].
  apply map_fold_fadd_not_negative. intros p v. rewrite lookup_fmap.
  destruct (merge sub_cell _ _ !! p) as [x|]; simpl; [|done].
  intros [= <-]. apply fpow2_not_negative.
Qed.

End cost_sign.

(** ** What the trainer prints and what it leaves *)

Section trainer_effects.
Variables (df : DataFrame nat) (Y : csc_matrix) (n m k : nat) (η : float).
Hypothesis Hin : in_range df n m.
Hypothesis HY : shape Y = (n, m).
Implicit Types (d : DataFrame nat) (U V : ndarray) (s : gd_state).

Lemma only_prediction_changed_trans d1 d2 d3 :
  only_prediction_changed d1 d2 → only_prediction_changed d2 d3 →
  only_prediction_changed d1 d3.
Proof.
  intros (Hu & Hm & Hc) (Hu' & Hm' & Hc'). split_and!; [congruence..|].
  intros name Hne. by rewrite Hc', Hc.
Qed.

Lemma cost_ok_value d U V :
  df_wf d → in_range d n m → is_Some (columns d !! "rating") →
  has_shape U n k → has_shape V m k →
  ∃ pred x, length pred = length (userId d)
    ∧ cost (Some d) U V = (Some (set_column d "Prediction" pred), Ok (Some x)).
Proof.
  intros Hwf Hr [c Hc%column_values_rating] HU HV.
  destruct (sparse_multiply_ok d U V n m k Hwf Hr HU HV)
    as (pred & Hp & Hlen & Hsm).
  exists pred. unfold cost. destruct HU as (HU0 & _), HV as (HV0 & _).
  rewrite HU0, HV0, (df2matrix_ok _ _ _ _ c) by done.
  rewrite Hsm. simpl. unfold sp_sub. simpl. rewrite decide_True by done.
  simpl. by eexists.
Qed.

Lemma gradient_ok_frame d U V :
  df_wf d → in_range d n m → has_shape U n k → has_shape V m k →
  ∃ pred gU gV, length pred = length (userId d)
    ∧ gradient d Y U V = (set_column d "Prediction" pred, Ok (gU, gV))
    ∧ has_shape gU n k ∧ has_shape gV m k.
Proof using HY.
  intros Hwf Hr HU HV.
  destruct (sparse_multiply_ok d U V n m k Hwf Hr HU HV)
    as (pred & Hp & Hlen & Hsm).
  exists pred. unfold gradient. rewrite Hsm. simpl.
  unfold sp_sub. rewrite HY. simpl. rewrite decide_True by done. simpl.
  unfold sp_matmul, sp_scale, sp_transpose. simpl.
  destruct HU as (HU0 & HUc & HUl), HV as (HV0 & HVc & HVl).
  rewrite HU0, HV0, !decide_True by done. simpl.
  eexists _, _. split; [done|]. split; [reflexivity|]. split.
  - rewrite HVc. apply amap_has_shape, tabulate_has_shape.
  - rewrite HUc. apply amap_has_shape, tabulate_has_shape.
Qed.

(** One pass of the loop body: the state after it, what it printed and
    what it wrote to the two frames. *)
Lemma gd_body_effects s i :
  trainer_inv df n m k s → only_prediction_changed df (st_df s) →
  ∃ s' new, gd_body Y η s i = (s', Ok ())
    ∧ trainer_inv df n m k s'
    ∧ only_prediction_changed df (st_df s')
    ∧ is_Some (columns (st_df s') !! "Prediction")
    ∧ match st_val s, st_val s' with
      | Some dv, Some dv' => only_prediction_changed dv dv'
      | None, None => True
      | _, _ => False
      end
    ∧ st_out s' = st_out s ++ new
    ∧ new.*1.*1 = (if decide (i mod 50 = 0) then [i] else [])
    ∧ Forall (report_ok (st_val s)) new.
Proof using Hin HY.
  intros (Hwf & Hu & Hm & Hrat & HU & HV & HvU & HvV & Hval) Hopc.
  pose proof (in_range_same_keys df n m Hin _ Hu Hm) as Hr.
  destruct (gradient_ok_frame (st_df s) _ _ Hwf Hr HU HV)
    as (pred & gU & gV & Hlp & Hg & HgU & HgV).
  set (df1 := set_column (st_df s) "Prediction" pred) in *.
  assert (Hwf1 : df_wf df1) by by apply set_column_wf.
  assert (Hopc1 : only_prediction_changed df df1).
  { eapply only_prediction_changed_trans; [done|].
    apply only_prediction_changed_set. }
  assert (Hrat1 : is_Some (columns df1 !! "rating")).
  { unfold df1. simpl. by rewrite lookup_insert_ne. }
  destruct (momentum_update _ _ _ _ HvU HgU) as [HmU HsU].
  destruct (momentum_update _ _ _ _ HvV HgV) as [HmV HsV].
  destruct (descend_update η _ _ _ _ HU HsU) as [HdU HeU].
  destruct (descend_update η _ _ _ _ HV HsV) as [HdV HeV].
  unfold gd_body. rewrite Hg. cbv zeta.
  rewrite HmU. cbn [rbind]. rewrite HmV. cbn [rbind].
  rewrite HdU. cbn [rbind]. rewrite HdV. cbn [rbind].
  case_decide as Hi.
  - assert (Hr1 : in_range df1 n m) by done.
    destruct (cost_ok_value df1 _ _ Hwf1 Hr1 Hrat1 HeU HeV)
      as (pred2 & x & Hlp2 & Hc).
    rewrite Hc. cbn [default].
    set (df2 := set_column df1 "Prediction" pred2) in *.
    assert (Hwf2 : df_wf df2) by by apply set_column_wf.
    assert (Hopc2 : only_prediction_changed df df2).
    { eapply only_prediction_changed_trans; [done|].
      apply only_prediction_changed_set. }
    assert (Hrat2 : is_Some (columns df2 !! "rating")).
    { unfold df2. simpl. by rewrite lookup_insert_ne. }
    assert (Hp2 : is_Some (columns df2 !! "Prediction")).
    { unfold df2. simpl. by rewrite lookup_insert_eq. }
    destruct Hopc2 as (Hu2 & Hm2 & Hc2).
    destruct (st_val s) as [dv|] eqn:Hsv.
    + destruct (Hval dv eq_refl) as (Hwfv & Hrv & Hratv).
      destruct (cost_ok_value dv _ _ Hwfv Hrv Hratv HeU HeV)
        as (predv & xv & Hlpv & Hcv).
      rewrite Hcv.
      eexists _, [_]. split; [reflexivity|]. cbn.
      split_and!; try done.
      * unfold trainer_inv. cbn.
        split_and!; try done. intros dv' Hdv. injection Hdv as <-.
        split_and!; [by apply set_column_wf|done|].
        simpl. by rewrite lookup_insert_ne.
      * apply only_prediction_changed_set.
      * constructor; [|constructor]. split; simpl; [by eexists|].
        split; by eexists.
    + cbn [cost].
      eexists _, [_]. split; [reflexivity|]. cbn.
      split_and!; try done.
      constructor; [|constructor]. split; simpl; [by eexists|].
      split; by intros [? ?].
  - eexists _, []. split; [reflexivity|]. cbn.
    destruct Hopc1 as (Hu1 & Hm1 & Hc1).
    split_and!; try done.
    + by rewrite lookup_insert_eq.
    + destruct (st_val s) as [dv|]; [|done].
      apply only_prediction_changed_refl.
    + by rewrite app_nil_r.
Qed.

(** The loop over the counters [a, ..., a + T - 1]. *)
Lemma gd_loop_effects T a s :
  trainer_inv df n m k s → only_prediction_changed df (st_df s) →
  ∃ s' new, gd_loop Y η s (seq a T) = (s', Ok ())
    ∧ trainer_inv df n m k s'
    ∧ only_prediction_changed df (st_df s')
    ∧ (0 < T → is_Some (columns (st_df s') !! "Prediction"))
    ∧ (T = 0 → s' = s)
    ∧ match st_val s, st_val s' with
      | Some dv, Some dv' => only_prediction_changed dv dv'
      | None, None => True
      | _, _ => False
      end
    ∧ st_out s' = st_out s ++ new
    ∧ new.*1.*1 = filter (λ i, i mod 50 = 0) (seq a T)
    ∧ Forall (report_ok (st_val s)) new.
Proof using Hin HY.
  revert a s. induction T as [|T IH]; intros a s Hinv Hopc;
    cbn [seq gd_loop].
  - exists s, []. split_and!; try done; try lia.
    + destruct (st_val s); [apply only_prediction_changed_refl|done].
    + by rewrite app_nil_r.
  - destruct (gd_body_effects s a Hinv Hopc)
      as (s1 & new1 & -> & Hinv1 & Hopc1 & Hp1 & Hv1 & Ho1 & Hn1 & Hf1).
    destruct (IH (S a) s1 Hinv1 Hopc1)
      as (s' & new2 & -> & Hinv' & Hopc' & Hp' & HT0 & Hv' & Ho' & Hn' & Hf').
    exists s', (new1 ++ new2). split_and!; try done.
    + intros _. destruct T as [|T']; [|apply Hp'; lia].
      by rewrite (HT0 eq_refl).
    + destruct (st_val s) as [dv|], (st_val s1) as [dv1|],
        (st_val s') as [dv'|]; try done.
      by eapply only_prediction_changed_trans.
    + by rewrite Ho', Ho1, app_assoc.
    + rewrite !fmap_app, Hn1, Hn', filter_cons. by case_decide.
    + apply Forall_app. split; [done|].
      eapply Forall_impl; [done|]. intros e [He1 He2]. split; [done|].
      rewrite He2. destruct (st_val s), (st_val s1); try done;
        split; intros [? ?]; by eexists.
Qed.

End trainer_effects.

(** X11. On a table in range (with a validation table in range, if any)
    the trainer prints at the passes 0, 50, 100, ... below the number of
    iterations and at no other pass, each time the training cost, and the
    validation cost exactly when a validation table was given. *)
Theorem gradient_descent_report_cadence df U0 V0 n m k T η df_val :
  df_wf df → in_range df n m → is_Some (columns df !! "rating") →
  has_shape U0 n k → has_shape V0 m k →
  (∀ dv, df_val = Some dv →
     df_wf dv ∧ in_range dv n m ∧ is_Some (columns dv !! "rating")) →
  let out := st_out (gradient_descent df U0 V0 T η df_val).1 in
  out.*1.*1 = filter (λ i, i mod 50 = 0) (seq 0 T)
  ∧ Forall (report_ok df_val) out.
Proof.
  intros Hwf Hin Hrat HU HV Hval.
  destruct Hrat as [c Hc]. pose proof (column_values_rating _ _ Hc) as Hcv.
  pose proof (df2matrix_ok _ _ _ _ _ Hwf Hcv Hin) as HY.
  set (s0 := mk_gd df df_val U0 V0 (Scalar (Fin 0)) (Scalar (Fin 0)) []).
  assert (Hinv : trainer_inv df n m k s0).
  { unfold trainer_inv. cbn. split_and!; first [done|by eexists]. }
  destruct (gd_loop_effects df
              (mk_csc (n, m) (foldl add_entry ∅ (triples df c)))
              n m k η Hin eq_refl T 0 s0 Hinv)
    as (s' & new & Hloop & _ & _ & _ & _ & _ & Hout & Hnew & Hrep).
  { apply only_prediction_changed_refl. }
  unfold gradient_descent.
  destruct HU as (-> & _), HV as (-> & _). rewrite HY.
  fold s0. rewrite Hloop. cbn. by rewrite Hout.
Qed.

(** X12. On such inputs the trainer returns embeddings of the shapes it
    was given, and it leaves the caller's frames with every column but
    ["Prediction"] as it was: the keys and the ratings are not touched. The
    training frame has a column ["Prediction"] as soon as one pass was
    made; with no pass the embeddings come back as they were given. *)
Theorem gradient_descent_keeps_shapes_and_tables df U0 V0 n m k T η df_val :
  df_wf df → in_range df n m → is_Some (columns df !! "rating") →
  has_shape U0 n k → has_shape V0 m k →
  (∀ dv, df_val = Some dv →
     df_wf dv ∧ in_range dv n m ∧ is_Some (columns dv !! "rating")) →
  ∃ s UT VT,
    gradient_descent df U0 V0 T η df_val = (s, Ok (UT, VT))
    ∧ has_shape UT n k ∧ has_shape VT m k
    ∧ df_wf (st_df s) ∧ only_prediction_changed df (st_df s)
    ∧ (0 < T → is_Some (columns (st_df s) !! "Prediction"))
    ∧ (T = 0 → st_df s = df ∧ UT = U0 ∧ VT = V0)
    ∧ match df_val, st_val s with
      | Some dv, Some dv' => only_prediction_changed dv dv'
      | None, None => True
      | _, _ => False
      end.
Proof.
  intros Hwf Hin Hrat HU HV Hval.
  destruct Hrat as [c Hc]. pose proof (column_values_rating _ _ Hc) as Hcv.
  pose proof (df2matrix_ok _ _ _ _ _ Hwf Hcv Hin) as HY.
  set (s0 := mk_gd df df_val U0 V0 (Scalar (Fin 0)) (Scalar (Fin 0)) []).
  assert (Hinv : trainer_inv df n m k s0).
  { unfold trainer_inv. cbn. split_and!; first [done|by eexists]. }
  destruct (gd_loop_effects df
              (mk_csc (n, m) (foldl add_entry ∅ (triples df c)))
              n m k η Hin eq_refl T 0 s0 Hinv)
    as (s' & new & Hloop & Hinv' & Hopc & Hpred & HT0 & Hv & _).
  { apply only_prediction_changed_refl. }
  exists s', (st_user s'), (st_movie s').
  destruct Hinv' as (Hwf' & _ & _ & _ & HU' & HV' & _).
  split_and!; try done.
  - unfold gradient_descent.
    destruct HU as (-> & _), HV as (-> & _). rewrite HY.
    fold s0. by rewrite Hloop.
  - intros ->. by rewrite (HT0 eq_refl).
Qed.

(** ** A perfect fit *)

Section perfect_fit.
Implicit Types (df : DataFrame nat) (U V : ndarray) (Y : csc_matrix).

Lemma tabulate_const {A} n (x : A) : tabulate n (λ _, x) = replicate n x.
Proof.
  unfold tabulate. generalize 0. induction n as [|n IH]; intros a; [done|].
  simpl. f_equal. apply IH.
Qed.

Lemma map_replicate {A B} (f : A → B) n x :
  map f (replicate n x) = replicate n (f x).
Proof. induction n as [|n IH]; [done|]. simpl. by rewrite IH. Qed.

Lemma amap_zeros f n k : f (Fin 0) = Fin 0 → amap f (zeros n k) = zeros n k.
Proof.
  intros Hf. unfold amap, zeros. simpl. f_equal.
  change (list_fmap _ _ ?g) with (map g).
  by rewrite !map_replicate, Hf.
Qed.

Lemma zeros_has_shape n k : has_shape (zeros n k) n k.
Proof.
  split_and!.
  - unfold shape0, zeros. simpl. apply length_replicate.
  - done.
  - apply Forall_forall. intros row Hr. simpl in *.
    apply elem_of_replicate in Hr as [-> _]. apply length_replicate.
Qed.

Lemma zip_with_replicate_r {A B C} (f : A → B → C) (l : list A) n z :
  length l = n → zip_with f l (replicate n z) = (λ x, f x z) <$> l.
Proof.
  revert n. induction l as [|x l IH]; intros [|n] Hn; simpl in *; try done.
  f_equal. apply IH. lia.
Qed.

Lemma zip_cells_zeros_r f a n k :
  has_shape a n k → (∀ x, f x (Fin 0) = x) → zip_cells f a (zeros n k) = a.
Proof.
  intros (H0 & Hc & Hwf) Hf. destruct a as [c rows]. unfold zip_cells, zeros.
  simpl in *. f_equal. unfold shape0 in H0. simpl in H0.
  rewrite zip_with_replicate_r by done.
  rewrite <- (list_fmap_id rows) at 2. apply list_fmap_ext.
  intros i row Hi. simpl.
  rewrite zip_with_replicate_r;
    [|rewrite <- Hc; apply (array_wf_lookup _ _ _ Hwf Hi)].
  rewrite <- (list_fmap_id row) at 2. by apply list_fmap_ext.
Qed.

Lemma zip_cells_zeros f n k :
  f (Fin 0) (Fin 0) = Fin 0 → zip_cells f (zeros n k) (zeros n k) = zeros n k.
Proof.
  intros Hf. unfold zip_cells, zeros. simpl. f_equal.
  rewrite zip_with_replicate_r by apply length_replicate.
  change (list_fmap _ _ ?g) with (map g). rewrite map_replicate. f_equal.
  rewrite zip_with_replicate_r by apply length_replicate.
  change (list_fmap _ _ ?g) with (map g). by rewrite map_replicate, Hf.
Qed.

Lemma mix_zero :
  fadd (fmul (Fin (Q2Qc (9 # 10))) (Fin 0)) (fmul (Fin (Q2Qc (1 # 10))) (Fin 0))
  = Fin 0.
Proof. simpl. apply f_equal. ring. Qed.

Lemma momentum_zero v n k :
  zero_velocity v n k → momentum v (zeros n k) = zeros n k.
Proof.
  intros [->| ->]; unfold momentum.
  - apply amap_zeros, mix_zero.
  - apply zip_cells_zeros, mix_zero.
Qed.

Lemma descend_zero e a n k :
  has_shape a n k → descend (Fin e) a (zeros n k) = a.
Proof.
  intros Ha. unfold descend. apply (zip_cells_zeros_r _ _ n k); [done|].
  intros [q|s|]; simpl; try done. f_equal. ring.
Qed.

(** Where the entries of a finite matrix are subtracted from themselves
    nothing is stored. *)
Lemma merge_sub_self (M : gmap (nat * nat) float) :
  finite_map M → merge sub_cell M M = ∅.
Proof.
  intros HM. apply map_eq. intros p. rewrite lookup_merge, lookup_empty.
  destruct (M !! p) as [v|] eqn:Hv; [|done].
  destruct (HM _ _ Hv) as [a ->]. simpl.
  assert (qzero (a + - a) = true) as ->; [|done].
  apply qzero_true. ring.
Qed.

(** The product of an empty sparse matrix with a dense array, divided by
    a positive count, is an array of zeros. *)
Lemma zero_product_cells N r c D :
  0 < N →
  amap (λ x, fdiv x (of_nat N))
    (mk_ndarray c (tabulate r (λ i, tabulate c (λ f, sp_row_dot ∅ D i f))))
  = zeros r c.
Proof.
  intros HN.
  assert (tabulate r (λ i, tabulate c (λ f, sp_row_dot ∅ D i f))
          = replicate r (replicate c (Fin 0))) as Ht.
  { rewrite <- !tabulate_const. unfold tabulate. apply list_fmap_ext.
    intros _ i _. apply list_fmap_ext. intros _ f _.
    apply sp_row_dot_empty. }
  rewrite Ht. apply amap_zeros. rewrite fdiv_fin by done. f_equal.
  unfold Qcdiv. ring.
Qed.

(** The gradient at a perfect fit is zero. *)
Lemma gradient_perfect_fit df U V n m k ratings :
  df_wf df → in_range df n m →
  has_shape U n k → has_shape V m k → 0 < length ratings →
  columns df !! "rating" = Some (Fin <$> ratings) →
  predictions df U V = Ok (Fin <$> ratings) →
  ∃ Y, df2matrix df n m "rating" = Ok Y ∧ shape Y = (n, m)
    ∧ (gradient df Y U V).2 = Ok (zeros n k, zeros m k).
Proof.
  intros Hwf Hin HU HV Hpos Hrat Hfit.
  apply column_values_rating in Hrat as Hc.
  eexists. split; [by apply (df2matrix_ok _ _ _ _ _ Hwf Hc Hin)|].
  split; [done|].
  destruct (sparse_multiply_ok df U V n m k Hwf Hin HU HV)
    as (pred & Hp & _ & Hsm).
  rewrite Hfit in Hp. injection Hp as <-.
  rewrite gradient_result, Hsm. simpl.
  unfold sp_sub. simpl. rewrite decide_True by done. simpl.
  unfold triples. rewrite merge_sub_self by apply build_finite.
  unfold sp_matmul, sp_scale, sp_transpose. simpl.
  destruct HU as (HU0 & HUc & _), HV as (HV0 & HVc & _).
  rewrite HU0, HV0, !decide_True by done. simpl.
  rewrite kmap_empty, fmap_empty, HUc, HVc.
  assert (HN : 0 < size (foldl add_entry ∅ (zip (pairs df) (Fin <$> ratings)))).
  { rewrite <- size_dom, dom_build.
    pose proof (column_values_length _ _ _ Hwf Hc) as Hl.
    rewrite length_fmap in Hl.
    rewrite fst_zip; cycle 1.
    { rewrite length_fmap. unfold pairs. rewrite length_zip.
      destruct Hwf. lia. }
    destruct (pairs df) as [|p ps] eqn:Hps.
    - apply (f_equal length) in Hps. unfold pairs in Hps.
      rewrite length_zip in Hps. simpl in Hps. destruct Hwf. lia.
    - rewrite list_to_set_cons.
      destruct (decide (size ({[p]} ∪ list_to_set ps : gset (nat * nat)) = 0))
        as [Hz|Hz]; [|lia].
      apply size_empty_inv in Hz. set_solver. }
  unfold nnz. simpl. unfold triples.
  by rewrite !(zero_product_cells _ _ _ _ HN).
Qed.

End perfect_fit.

Section perfect_fit_trainer.
Variables (df : DataFrame nat) (Y : csc_matrix) (U0 V0 : ndarray)
  (n m k : nat) (e : Qc).
Hypothesis HU : has_shape U0 n k.
Hypothesis HV : has_shape V0 m k.
Hypothesis Hgrad : (gradient df Y U0 V0).2 = Ok (zeros n k, zeros m k).

(** At a perfect fit the transitions of the trainer go nowhere. *)
Lemma momentum_steps_perfect_fit T vU vV st :
  zero_velocity vU n k → zero_velocity vV m k →
  nsteps (momentum_step df Y (Fin e)) T (U0, V0, vU, vV) st →
  st.1.1.1 = U0 ∧ st.1.1.2 = V0.
Proof using HU HV Hgrad.
  revert vU vV. induction T as [|T IH]; intros vU vV HvU HvV Hsteps.
  - inversion Hsteps; subst. done.
  - inversion Hsteps as [|? ? mid ? Hstep Hrest]; subst.
    inversion Hstep as [? ? ? ? gU gV Hg]; subst.
    rewrite Hgrad in Hg. injection Hg as <- <-.
    rewrite !momentum_zero in Hrest by done.
    rewrite !(descend_zero _ _ _ _) in Hrest by done.
    apply (IH _ _) in Hrest; [done|by right..].
Qed.

End perfect_fit_trainer.

(** X13. A perfect fit is a fixed point of the trainer: when the table has
    a row and every prediction of the initial embeddings equals the rating
    of its row, the gradients are zero and, for a finite learning rate,
    [gradient_descent] returns the embeddings it was given, whatever the
    number of iterations. *)
Theorem gradient_descent_perfect_fit df U0 V0 n m k T e df_val ratings :
  df_wf df → in_range df n m →
  columns df !! "rating" = Some (Fin <$> ratings) →
  has_shape U0 n k → has_shape V0 m k →
  (∀ dv, df_val = Some dv →
     df_wf dv ∧ in_range dv n m ∧ is_Some (columns dv !! "rating")) →
  0 < length ratings →
  predictions df U0 V0 = Ok (Fin <$> ratings) →
  (∃ Y, df2matrix df n m "rating" = Ok Y
        ∧ (gradient df Y U0 V0).2 = Ok (zeros n k, zeros m k))
  ∧ (gradient_descent df U0 V0 T (Fin e) df_val).2 = Ok (U0, V0).
Proof.
  intros Hwf Hin Hrat HU HV Hval Hpos Hfit.
  destruct (gradient_perfect_fit df U0 V0 n m k ratings)
    as (Y & HY & Hshape & Hgrad); try done.
  split; [by exists Y|].
  set (s0 := mk_gd df df_val U0 V0 (Scalar (Fin 0)) (Scalar (Fin 0)) []).
  assert (Hinv : trainer_inv df n m k s0).
  { unfold trainer_inv. cbn. split_and!; first [done|by eexists]. }
  destruct (gd_loop_steps df Y n m k (Fin e) Hin Hshape T 0 s0 Hinv)
    as (s' & Hloop & _ & Hsteps).
  apply (momentum_steps_perfect_fit df Y U0 V0 n m k e HU HV Hgrad) in Hsteps
    as [HUT HVT]; [|by left..].
  unfold gradient_descent.
  destruct HU as (HU0 & _), HV as (HV0 & _). rewrite HU0, HV0, HY.
  fold s0. rewrite Hloop. simpl in *. by rewrite HUT, HVT.
Qed.

(** ** The further statements at sample inputs *)

Lemma df_train_s_wf : df_wf df_train_s.
Proof. split; [done|]. by apply map_Forall_singleton. Defined.

Lemma df_fit_wf : df_wf df_fit.
Proof. split; [done|]. by apply map_Forall_singleton. Defined.

Lemma df_fit_in_range : in_range df_fit 2 2.
Proof.
  split; intros i Hi; simpl in Hi;
    repeat (apply elem_of_cons in Hi as [->|Hi]; [lia|]);
    by apply elem_of_nil in Hi.
Defined.

Lemma no_validation_ok n m :
  ∀ dv, (None : option (DataFrame nat)) = Some dv →
    df_wf dv ∧ in_range dv n m ∧ is_Some (columns dv !! "rating").
Proof. intros dv Hdv. discriminate Hdv. Defined.

Lemma df_two_has_rating : is_Some (columns df_two !! "rating").
Proof. eexists. reflexivity. Defined.

Lemma encode_data_in_range_witness :
  df_wf df_train_s ∧ is_ok (encode_data df_train_s).
Proof.
  split; [exact df_train_s_wf|].
  destruct (encode_data_in_range df_train_s df_train_s_wf)
    as (df' & nu & nm & Henc & _).
  eexists. exact Henc.
Defined.

Lemma sparse_multiply_index_error_witness :
  ((∃ i, i ∈ userId df_two ∧ shape0 one1 ≤ i)
   ∨ (∃ j, j ∈ movieId df_two ∧ shape0 one1 ≤ j))
  ∧ sparse_multiply df_two one1 one1 = (df_two, Err IndexError).
Proof.
  assert (Hout : (∃ i, i ∈ userId df_two ∧ shape0 one1 ≤ i)
                 ∨ (∃ j, j ∈ movieId df_two ∧ shape0 one1 ≤ j)).
  { left. exists 1. split; [|reflexivity].
    apply elem_of_cons. right. apply elem_of_cons. by left. }
  split; [exact Hout|].
  exact (proj1 (sparse_multiply_index_error df_two one1 one1 Hout)).
Defined.

Lemma sparse_multiply_factor_mismatch_witness :
  df_wf df_two ∧ in_range df_two (shape0 eye2) (shape0 wide2)
  ∧ ncol eye2 ≠ ncol wide2 ∧ ncol eye2 ≠ 1 ∧ ncol wide2 ≠ 1
  ∧ sparse_multiply df_two eye2 wide2 = (df_two, Err ShapeMismatch).
Proof.
  assert (H1 : ncol eye2 ≠ ncol wide2) by (simpl; lia).
  assert (H2 : ncol eye2 ≠ 1) by (simpl; lia).
  assert (H3 : ncol wide2 ≠ 1) by (simpl; lia).
  split; [exact df_two_wf|]. split; [exact df_two_in_range|].
  split; [exact H1|]. split; [exact H2|]. split; [exact H3|].
  exact (proj1 (sparse_multiply_factor_mismatch df_two eye2 wide2
                  df_two_wf df_two_in_range H1 H2 H3)).
Defined.

Lemma cost_missing_rating_witness :
  columns df_norating !! "rating" = None
  ∧ cost (Some df_norating) one1 one1 = (Some df_norating, Err KeyError).
Proof.
  split; [reflexivity|].
  exact (proj1 (cost_missing_rating df_norating one1 one1 eq_refl)).
Defined.

Lemma gradient_shape_mismatch_after_write_witness :
  df_wf df_two ∧ in_range df_two 2 2 ∧ has_shape eye2 2 2
  ∧ shape (mk_csc (3, 3) ∅) ≠ (2, 2)
  ∧ ∃ pred, gradient df_two (mk_csc (3, 3) ∅) eye2 eye2
            = (set_column df_two "Prediction" pred, Err ShapeMismatch).
Proof.
  assert (Hne : shape (mk_csc (3, 3) ∅) ≠ (2, 2)) by (simpl; congruence).
  split; [exact df_two_wf|]. split; [exact df_two_in_range|].
  split; [exact eye2_shape|]. split; [exact Hne|].
  destruct (gradient_shape_mismatch_after_write df_two (mk_csc (3, 3) ∅)
              eye2 eye2 2 2 2 df_two_wf df_two_in_range eye2_shape
              eye2_shape Hne) as (pred & _ & Hg).
  exists pred. exact Hg.
Defined.

Lemma cost_gradient_read_keys_and_ratings_witness :
  userId (set_column df_two "Prediction" []) = userId df_two
  ∧ movieId (set_column df_two "Prediction" []) = movieId df_two
  ∧ columns (set_column df_two "Prediction" []) !! "rating"
    = columns df_two !! "rating"
  ∧ (cost (Some (set_column df_two "Prediction" [])) eye2 eye2).2
    = (cost (Some df_two) eye2 eye2).2.
Proof.
  split; [reflexivity|]. split; [reflexivity|]. split; [reflexivity|].
  exact (proj1 (cost_gradient_read_keys_and_ratings df_two
                  (set_column df_two "Prediction" []) eye2 eye2
                  eq_refl eq_refl eq_refl)).
Defined.

Lemma df2matrix_nnz_le_rows_witness :
  df2matrix df_dup 1 1 "rating"
  = Ok (mk_csc (1, 1) (foldl add_entry ∅ (triples df_dup [fz 5; fz 3])))
  ∧ nnz (mk_csc (1, 1) (foldl add_entry ∅ (triples df_dup [fz 5; fz 3])))
    ≤ length (userId df_dup).
Proof.
  split; [reflexivity|].
  exact (proj1 (df2matrix_nnz_le_rows df_dup 1 1 "rating" _ eq_refl)).
Defined.

Lemma cost_nonnegative_witness :
  df_wf df_dup ∧ in_range df_dup 1 1
  ∧ is_Some (columns df_dup !! "rating") ∧ has_shape one1 1 1
  ∧ ∃ x, (cost (Some df_dup) one1 one1).2 = Ok (Some x) ∧ not_negative x.
Proof.
  assert (Hr : in_range df_dup 1 1).
  { split; intros i Hi; simpl in Hi;
      repeat (apply elem_of_cons in Hi as [->|Hi]; [lia|]);
      by apply elem_of_nil in Hi. }
  assert (Hrat : is_Some (columns df_dup !! "rating"))
    by (eexists; reflexivity).
  split; [exact df_dup_wf|]. split; [exact Hr|]. split; [exact Hrat|].
  split; [exact one1_shape|].
  exact (cost_nonnegative df_dup one1 one1 1 1 1 df_dup_wf Hr Hrat
           one1_shape one1_shape).
Defined.

Lemma gradient_descent_report_cadence_witness :
  df_wf df_two ∧ in_range df_two 2 2
  ∧ is_Some (columns df_two !! "rating") ∧ has_shape eye2 2 2
  ∧ (st_out (gradient_descent df_two eye2 eye2 3
               (Fin (Q2Qc (1 # 100))) None).1).*1.*1
    = filter (λ i, i mod 50 = 0) (seq 0 3).
Proof.
  split; [exact df_two_wf|]. split; [exact df_two_in_range|].
  split; [exact df_two_has_rating|]. split; [exact eye2_shape|].
  exact (proj1 (gradient_descent_report_cadence df_two eye2 eye2 2 2 2 3
                  (Fin (Q2Qc (1 # 100))) None df_two_wf df_two_in_range
                  df_two_has_rating eye2_shape eye2_shape
                  (no_validation_ok 2 2))).
Defined.

Lemma gradient_descent_keeps_shapes_and_tables_witness :
  df_wf df_two ∧ in_range df_two 2 2
  ∧ is_Some (columns df_two !! "rating") ∧ has_shape eye2 2 2
  ∧ ∃ s UT VT,
      gradient_descent df_two eye2 eye2 3 (Fin (Q2Qc (1 # 100))) None
      = (s, Ok (UT, VT))
      ∧ has_shape UT 2 2.
Proof.
  split; [exact df_two_wf|]. split; [exact df_two_in_range|].
  split; [exact df_two_has_rating|]. split; [exact eye2_shape|].
  destruct (gradient_descent_keeps_shapes_and_tables df_two eye2 eye2 2 2 2 3
              (Fin (Q2Qc (1 # 100))) None df_two_wf df_two_in_range
              df_two_has_rating eye2_shape eye2_shape (no_validation_ok 2 2))
    as (s & UT & VT & Hgd & HUT & _).
  exists s, UT, VT. split; [exact Hgd|exact HUT].
Defined.

Lemma df_fit_predictions :
  predictions df_fit eye2 eye2 = Ok (Fin <$> [zq 1; zq 1]).
Proof.
  vm_compute. apply f_equal.
  repeat (apply (f_equal2 cons); [apply f_equal; by apply Qc_is_canon|]).
  done.
Defined.

Lemma gradient_descent_perfect_fit_witness :
  df_wf df_fit ∧ in_range df_fit 2 2
  ∧ columns df_fit !! "rating" = Some (Fin <$> [zq 1; zq 1])
  ∧ has_shape eye2 2 2
  ∧ predictions df_fit eye2 eye2 = Ok (Fin <$> [zq 1; zq 1])
  ∧ (gradient_descent df_fit eye2 eye2 100 (Fin (Q2Qc (1 # 100))) None).2
    = Ok (eye2, eye2).
Proof.
  assert (Hpos : 0 < length [zq 1; zq 1]) by (simpl; lia).
  split; [exact df_fit_wf|]. split; [exact df_fit_in_range|].
  split; [reflexivity|]. split; [exact eye2_shape|].
  split; [exact df_fit_predictions|].
  exact (proj2 (gradient_descent_perfect_fit df_fit eye2 eye2 2 2 2 100
                  (Q2Qc (1 # 100)) None [zq 1; zq 1] df_fit_wf
                  df_fit_in_range eq_refl eye2_shape eye2_shape
                  (no_validation_ok 2 2) Hpos df_fit_predictions)).
Defined.

(** ** The gradient as a sum over the rows of the table *)

Section row_sums.
Implicit Types (df : DataFrame nat) (Uq Vq : list (list Qc))
  (ps : list (nat * nat)) (ts : list (nat * nat * Qc)).

Lemma qsum_cons (x : Qc) l : qsum (x :: l) = (x + qsum l)%Qc.
Proof. done. Qed.

Lemma qsum_add {A} (g h : A → Qc) (l : list A) :
  qsum ((λ a, g a + h a)%Qc <$> l) = (qsum (g <$> l) + qsum (h <$> l))%Qc.
Proof.
  induction l as [|a l IH]; [simpl; unfold qsum; simpl; ring|].
  rewrite !fmap_cons, !qsum_cons, IH. ring.
Qed.

Lemma qsum_ext {A} (g h : A → Qc) (l : list A) :
  (∀ a, a ∈ l → g a = h a) → qsum (g <$> l) = qsum (h <$> l).
Proof.
  intros Hgh. f_equal. apply list_fmap_ext. intros i a Ha.
  apply Hgh. by eapply list_elem_of_lookup_2.
Qed.

Lemma qsum_filter {A} (S : A → Prop) `{!∀ a, Decision (S a)} (g : A → Qc)
    (l : list A) :
  qsum (g <$> filter S l)
  = qsum ((λ a, if decide (S a) then g a else 0%Qc) <$> l).
Proof.
  induction l as [|a l IH]; [done|].
  rewrite filter_cons, fmap_cons, qsum_cons.
  destruct (decide (S a)); [by rewrite fmap_cons, qsum_cons, IH|].
  rewrite IH. ring.
Qed.

Lemma qsum_point_seq (a m j0 : nat) (h : nat → Qc) :
  qsum ((λ j, if decide (j = j0) then h j else 0%Qc) <$> seq a m)
  = if decide (a ≤ j0 < a + m) then h j0 else 0%Qc.
Proof.
  revert a. induction m as [|m IH]; intros a.
  { simpl. rewrite decide_False by lia. done. }
  cbn [seq]. rewrite fmap_cons, qsum_cons, IH.
  destruct (decide (a = j0)) as [->|Hne].
  - rewrite decide_False by lia. rewrite decide_True by lia. ring.
  - destruct (decide (S a ≤ j0 < S a + m)).
    + rewrite decide_True by lia. ring.
    + rewrite decide_False by lia. ring.
Qed.

Lemma foldl_fadd_fin (a : Qc) (l : list Qc) :
  foldl fadd (Fin a) (Fin <$> l) = Fin (a + qsum l).
Proof.
  revert a. induction l as [|x l IH]; intros a.
  { simpl. f_equal. unfold qsum. simpl. ring. }
  rewrite fmap_cons. cbn [foldl]. cbn [fadd]. rewrite IH, qsum_cons.
  f_equal. ring.
Qed.

Lemma values_at_fin_eq ps (qs : list Qc) p :
  values_at p (zip ps (Fin <$> qs))
  = Fin <$> (filter (λ t, t.1 = p) (zip ps qs)).*2.
Proof.
  revert qs. induction ps as [|p0 ps IH]; intros [|q qs]; try done.
  rewrite fmap_cons. cbn [zip zip_with]. rewrite values_at_cons, filter_cons.
  cbn [fst snd]. destruct (decide (p0 = p)); [|apply IH].
  rewrite !fmap_cons. cbn [snd]. f_equal. apply IH.
Qed.

(** The rational stored at a position of a matrix built from finite
    values: the sum of the values of the rows at this position. *)
Lemma qv_build ps (qs : list Qc) p :
  qv (foldl add_entry ∅ (zip ps (Fin <$> qs)) !! p)
  = qsum ((filter (λ t, t.1 = p) (zip ps qs)).*2).
Proof.
  rewrite lookup_build, lookup_empty, values_at_fin_eq.
  destruct ((filter (λ t, t.1 = p) (zip ps qs)).*2) as [|v vs]; [done|].
  rewrite fmap_cons, foldl_fadd_fin. done.
Qed.

(** A sum over the places [κ 0, ..., κ (m - 1)] of a matrix built from
    triples is a sum over the triples that lie on these places. *)
Lemma sum_places_rows ts (κ : nat → nat * nat) (π : nat * nat → nat)
    (S : nat * nat → Prop) `{!∀ p, Decision (S p)} (m : nat) (g : nat → Qc) :
  (∀ p x, p = κ x ↔ S p ∧ π p = x) →
  (∀ t, t ∈ ts → π t.1 < m) →
  qsum ((λ x, qsum ((filter (λ t, t.1 = κ x) ts).*2) * g x)%Qc <$> seq 0 m)
  = qsum ((λ t, t.2 * g (π t.1))%Qc <$> filter (λ t, S t.1) ts).
Proof.
  intros Hκ. induction ts as [|[p q] ts IH]; intros Hm.
  { simpl. apply qsum_zero. intros x _. unfold qsum. simpl. ring. }
  rewrite filter_cons. cbn [fst snd].
  rewrite (qsum_ext _ (λ x, (if decide (x = π p)
                             then (if decide (S p) then q * g x else 0)
                             else 0)
                            + qsum ((filter (λ t, t.1 = κ x) ts).*2) * g x)%Qc).
  2:{ intros x _. rewrite filter_cons. cbn [fst].
      destruct (decide (p = κ x)) as [Hp|Hp].
      - apply Hκ in Hp as [HS <-]. rewrite decide_True by done.
        rewrite decide_True by done. rewrite fmap_cons, qsum_cons. cbn [snd].
        ring.
      - destruct (decide (x = π p)) as [->|]; [|ring].
        destruct (decide (S p)) as [HS|]; [|ring].
        destruct Hp. by apply Hκ. }
  rewrite qsum_add, qsum_point_seq, IH.
  2:{ intros t Ht. apply Hm. by right. }
  rewrite decide_True.
  2:{ pose proof (Hm (p, q) ltac:(by left)) as Hlt. simpl in Hlt. lia. }
  destruct (decide (S p)); [by rewrite fmap_cons, qsum_cons|ring].
Qed.

Lemma qsum_zip_fmap {A} (G : A * Qc → Qc) (h : A → Qc) (l : list A) :
  qsum (G <$> zip l (h <$> l)) = qsum ((λ p, G (p, h p)) <$> l).
Proof.
  induction l as [|a l IH]; [done|].
  rewrite !fmap_cons. cbn [zip zip_with]. by rewrite !fmap_cons, !qsum_cons, IH.
Qed.

Lemma qsum_zip_fst {A} (H : A → Qc) (l : list A) (rs : list Qc) :
  length l = length rs →
  qsum (H <$> l) = qsum ((λ t, H t.1) <$> zip l rs).
Proof.
  revert rs. induction l as [|a l IH]; intros [|r rs] Hlen; try done.
  cbn [zip zip_with]. rewrite !fmap_cons, !qsum_cons. cbn [fst].
  rewrite (IH rs); [done|]. simpl in Hlen. lia.
Qed.

(** The sum of the residuals of a row of places, weighted, as a sum over
    the rows of the table on these places. *)
Lemma residual_sum_rows df Uq Vq (ratings : list Qc) (n' m' : nat)
    (κ : nat → nat * nat) (π : nat * nat → nat)
    (S : nat * nat → Prop) `{!∀ p, Decision (S p)} (m : nat) (g : nat → Qc) :
  length (pairs df) = length ratings →
  (∀ p x, p = κ x ↔ S p ∧ π p = x) →
  (∀ p, p ∈ pairs df → π p < m) →
  qsum ((λ x,
           residual
             (mk_csc (n', m')
                (foldl add_entry ∅ (zip (pairs df) (Fin <$> ratings))))
             (mk_csc (n', m')
                (foldl add_entry ∅
                   (zip (pairs df) (Fin <$> qpreds df Uq Vq))))
             (κ x).1 (κ x).2 * g x)%Qc <$> seq 0 m)
  = qsum ((λ t, (t.2 - qpred Uq Vq t.1) * g (π t.1))%Qc
            <$> filter (λ t, S t.1) (zip (pairs df) ratings)).
Proof.
  intros Hlen Hκ Hm.
  rewrite (qsum_ext _ (λ x,
     qsum ((filter (λ t, t.1 = κ x) (zip (pairs df) ratings)).*2) * g x
     + (- qsum ((filter (λ t, t.1 = κ x)
                   (zip (pairs df) (qpreds df Uq Vq))).*2)) * g x)%Qc).
  2:{ intros x _. unfold residual. cbn [stored].
      rewrite <- surjective_pairing, !qv_build. ring. }
  rewrite qsum_add.
  rewrite (sum_places_rows _ κ π S);
    [|done|intros [p q] Ht; apply Hm; by eapply elem_of_zip_l].
  rewrite (qsum_ext (λ x, (- _ * g x)%Qc)
             (λ x, (-(1)) * (qsum ((filter (λ t, t.1 = κ x)
                       (zip (pairs df) (qpreds df Uq Vq))).*2) * g x))%Qc)
    by (intros; ring).
  rewrite (qsum_scale (-(1))%Qc).
  rewrite (sum_places_rows _ κ π S);
    [|done|intros [p q] Ht; apply Hm; by eapply elem_of_zip_l].
  rewrite !qsum_filter. unfold qpreds.
  rewrite (qsum_zip_fmap
             (λ t, if decide (S t.1) then t.2 * g (π t.1) else 0)%Qc).
  cbn [fst snd].
  rewrite (qsum_zip_fst _ _ ratings Hlen).
  rewrite <- qsum_scale, <- qsum_add. apply qsum_ext.
  intros [p r] _. cbn [fst snd]. destruct (decide (S p)); ring.
Qed.

End row_sums.

Section gradient_rows.
Implicit Types (df : DataFrame nat) (Uq Vq : list (list Qc)).

(** The cells of the gradient on finite inputs, by the residual. *)
Lemma gradient_cells df Uq Vq n m k ratings :
  df_wf df → in_range df n m →
  columns df !! "rating" = Some (Fin <$> ratings) →
  has_shape (qarray k Uq) n k → has_shape (qarray k Vq) m k →
  let Y := mk_csc (n, m)
             (foldl add_entry ∅ (zip (pairs df) (Fin <$> ratings))) in
  let P := mk_csc (n, m)
             (foldl add_entry ∅
                (zip (pairs df) (Fin <$> qpreds df Uq Vq))) in
  0 < nnz Y →
  df2matrix df n m "rating" = Ok Y
  ∧ length (pairs df) = length ratings
  ∧ ∃ gU gV,
      (gradient df Y (qarray k Uq) (qarray k Vq)).2 = Ok (gU, gV)
      ∧ (∀ i f, i < n → f < k →
           cell gU i f
           = Fin (zq (-2)
                  * qsum ((λ j, residual Y P i j * qcell Vq j f)%Qc
                            <$> seq 0 m)
                  / zq (Z.of_nat (nnz Y))))
      ∧ (∀ j f, j < m → f < k →
           cell gV j f
           = Fin (zq (-2)
                  * qsum ((λ i, residual Y P i j * qcell Uq i f)%Qc
                            <$> seq 0 n)
                  / zq (Z.of_nat (nnz Y)))).
Proof.
  intros Hwf Hin Hrat HU HV Y P Hpos.
  apply column_values_rating in Hrat as Hc.
  pose proof (df2matrix_ok _ _ _ _ _ Hwf Hc Hin) as HY.
  split; [exact HY|]. split.
  { pose proof (column_values_length _ _ _ Hwf Hc) as Hl.
    rewrite length_fmap in Hl. unfold pairs. rewrite length_zip.
    destruct Hwf. lia. }
  destruct (sparse_multiply_ok df _ _ n m k Hwf Hin HU HV)
    as (pred & Hp & Hlen & Hsm).
  rewrite (predictions_finite df Uq Vq n m k) in Hp by done.
  injection Hp as <-. unfold triples in *.
  set (D := merge sub_cell (stored Y) (stored P)).
  assert (HD : ∀ i j, D !! (i, j) = Some (Fin (residual Y P i j))
                      ∨ (D !! (i, j) = None ∧ residual Y P i j = 0%Qc)).
  { intros i j. apply (lookup_sub_finite Y P); apply build_finite. }
  assert (HDkeys : ∀ p, is_Some (D !! p) → p ∈ pairs df).
  { intros p. unfold D. rewrite lookup_merge.
    destruct (stored Y !! p) eqn:Hy.
    { intros _. apply (build_keys _ (Fin <$> ratings)). eexists. exact Hy. }
    destruct (stored P !! p) eqn:Hq.
    { intros _. apply (build_keys _ (Fin <$> qpreds df Uq Vq)).
      eexists. exact Hq. }
    simpl. by intros [? ?]. }
  assert (Hpair : ∀ i j, (i, j) ∈ pairs df → i ∈ userId df ∧ j ∈ movieId df).
  { intros i j Hij. split; [by eapply elem_of_zip_l|by eapply elem_of_zip_r]. }
  eexists _, _. split; [|split].
  - rewrite gradient_result, Hsm. simpl.
    unfold sp_sub. simpl. rewrite decide_True by done. simpl.
    unfold sp_matmul, sp_scale, sp_transpose. simpl.
    destruct HU as (HU0 & HUc & _), HV as (HV0 & HVc & _).
    rewrite HU0, HV0. rewrite !decide_True by done. simpl.
    simpl in HUc, HVc. reflexivity.
  - intros i f Hi Hf.
    rewrite (cell_amap_shape _ _ n k) by (done || apply tabulate_has_shape).
    rewrite cell_tabulate by done. fold D.
    rewrite (scaled_row_dot D (residual Y P) Vq i f m k); try done.
    + by apply fdiv_fin.
    + intros [a b] Hab%HDkeys. simpl. destruct Hin as [_ Hm].
      apply Hm. by apply (Hpair a b).
  - intros j f Hj Hf.
    rewrite (cell_amap_shape _ _ m k) by (done || apply tabulate_has_shape).
    rewrite cell_tabulate by done. fold D.
    rewrite (scaled_row_dot (kmap prod_swap D) (λ j i, residual Y P i j)
               Uq j f n k); try done.
    + by apply fdiv_fin.
    + intros j' i'. rewrite lookup_transpose. apply HD.
    + intros [b a]. rewrite lookup_transpose. intros Hab%HDkeys. simpl.
      destruct Hin as [Hn _]. apply Hn. by apply (Hpair a b).
Qed.

(** The cells of the gradient on finite inputs, by the rows of the table. *)
Lemma gradient_rows df Uq Vq n m k ratings :
  df_wf df → in_range df n m →
  columns df !! "rating" = Some (Fin <$> ratings) →
  has_shape (qarray k Uq) n k → has_shape (qarray k Vq) m k →
  let Y := mk_csc (n, m)
             (foldl add_entry ∅ (zip (pairs df) (Fin <$> ratings))) in
  0 < nnz Y →
  ∃ gU gV,
    (gradient df Y (qarray k Uq) (qarray k Vq)).2 = Ok (gU, gV)
    ∧ (∀ u f, u < n → f < k →
         cell gU u f
         = Fin (zq (-2)
                * qsum ((λ t, (t.2 - qpred Uq Vq t.1) * qcell Vq t.1.2 f)%Qc
                          <$> filter (λ t, t.1.1 = u)
                                (zip (pairs df) ratings))
                / zq (Z.of_nat (nnz Y))))
    ∧ (∀ j f, j < m → f < k →
         cell gV j f
         = Fin (zq (-2)
                * qsum ((λ t, (t.2 - qpred Uq Vq t.1) * qcell Uq t.1.1 f)%Qc
                          <$> filter (λ t, t.1.2 = j)
                                (zip (pairs df) ratings))
                / zq (Z.of_nat (nnz Y)))).
Proof.
  intros Hwf Hin Hrat HU HV Y Hpos.
  destruct (gradient_cells df Uq Vq n m k ratings Hwf Hin Hrat HU HV Hpos)
    as (_ & Hlen & gU & gV & Hg & HgU & HgV).
  exists gU, gV. split; [exact Hg|]. split.
  - intros u f Hu Hf. rewrite (HgU u f Hu Hf). do 3 f_equal.
    refine (residual_sum_rows df Uq Vq ratings n m (λ j, (u, j)) snd
              (λ p, p.1 = u) m (λ j, qcell Vq j f) Hlen _ _).
    + intros [a b] x. simpl. split; [by intros [= -> ->]|by intros [-> ->]].
    + intros [a b] Hab. simpl. destruct Hin as [_ Hm]. apply Hm.
      by eapply elem_of_zip_r.
  - intros j f Hj Hf. rewrite (HgV j f Hj Hf). do 3 f_equal.
    refine (residual_sum_rows df Uq Vq ratings n m (λ i, (i, j)) fst
              (λ p, p.2 = j) n (λ i, qcell Uq i f) Hlen _ _).
    + intros [a b] x. simpl. split; [by intros [= -> ->]|by intros [-> ->]].
    + intros [a b] Hab. simpl. destruct Hin as [Hn _]. apply Hn.
      by eapply elem_of_zip_l.
Qed.

(** X14. On a table in range with finite ratings and finite embeddings,
    the gradient row of a user is -2 times the sum, over the rows of this
    user, of (rating - prediction) times the embedding of the rated item,
    divided by the number of stored ratings; likewise the gradient row of
    an item, over the rows of this item. Every row of the table counts,
    also when a (user, item) pair repeats, while the divisor counts a
    repeated pair once. *)
Theorem gradient_sums_over_rows df Uq Vq n m k ratings Y :
  df_wf df → in_range df n m →
  columns df !! "rating" = Some (Fin <$> ratings) →
  has_shape (qarray k Uq) n k → has_shape (qarray k Vq) m k →
  df2matrix df n m "rating" = Ok Y → 0 < nnz Y →
  nnz Y = size (list_to_set (pairs df) : gset (nat * nat))
  ∧ ∃ gU gV,
      (gradient df Y (qarray k Uq) (qarray k Vq)).2 = Ok (gU, gV)
      ∧ (∀ u f, u < n → f < k →
           cell gU u f
           = Fin (zq (-2)
                  * qsum ((λ t, (t.2 - qpred Uq Vq t.1) * qcell Vq t.1.2 f)%Qc
                            <$> filter (λ t, t.1.1 = u)
                                  (zip (pairs df) ratings))
                  / zq (Z.of_nat (nnz Y))))
      ∧ (∀ j f, j < m → f < k →
           cell gV j f
           = Fin (zq (-2)
                  * qsum ((λ t, (t.2 - qpred Uq Vq t.1) * qcell Uq t.1.1 f)%Qc
                            <$> filter (λ t, t.1.2 = j)
                                  (zip (pairs df) ratings))
                  / zq (Z.of_nat (nnz Y)))).
Proof.
  intros Hwf Hin Hrat HU HV HY Hpos.
  apply column_values_rating in Hrat as Hc.
  rewrite (df2matrix_ok _ _ _ _ _ Hwf Hc Hin) in HY. injection HY as <-.
  split.
  - unfold nnz. cbn [stored]. rewrite <- size_dom, dom_build.
    unfold triples. rewrite fst_zip; [done|].
    pose proof (column_values_length _ _ _ Hwf Hc) as Hl.
    unfold pairs. rewrite length_zip. destruct Hwf. lia.
  - by apply gradient_rows.
Qed.

End gradient_rows.

(** ** The finite difference *)

Section finite_difference_facts.
Implicit Types (df : DataFrame nat) (Uq Vq Aq : list (list Qc))
  (U V : ndarray).

(** The cost of a frame is not None. *)
Lemma cost_of_frame df U V :
  ∃ df' r, cost (Some df) U V = (Some df', r) ∧ r ≠ Ok None.
Proof.
  unfold cost. destruct (df2matrix df _ _ "rating") as [Yr|ex].
  2:{ by eexists _, _. }
  destruct (sparse_multiply df U V) as [d [P|ex]]; simpl.
  2:{ by eexists _, _. }
  destruct (sp_sub Yr P); by eexists _, _.
Qed.

(** The cost of a table without a repeated pair, by its rows. *)
Lemma cost_rows df Uq Vq n m k ratings :
  df_wf df → in_range df n m →
  columns df !! "rating" = Some (Fin <$> ratings) →
  has_shape (qarray k Uq) n k → has_shape (qarray k Vq) m k →
  NoDup (pairs df) → 0 < length ratings →
  (cost (Some df) (qarray k Uq) (qarray k Vq)).2
  = Ok (Some (Fin (qsum (sq_error Uq Vq <$> zip (pairs df) ratings)
                   / zq (Z.of_nat (length ratings))))).
Proof.
  intros Hwf Hin Hrat HU HV Hnd Hpos.
  apply column_values_rating in Hrat as Hc.
  destruct (cost_unfold df _ _ n m k _ Hwf Hin HU HV Hc)
    as (pred & Hp & Hlen & ->).
  rewrite (predictions_finite df Uq Vq n m k) in Hp by done.
  injection Hp as <-.
  assert (length (pairs df) = length ratings) as Hlp.
  { pose proof (column_values_length _ _ _ Hwf Hc) as Hl.
    rewrite length_fmap in Hl. unfold pairs. rewrite length_zip.
    destruct Hwf. lia. }
  cbv zeta. unfold triples.
  set (Ys := foldl add_entry ∅ (zip (pairs df) (Fin <$> ratings))).
  set (Ps := foldl add_entry ∅ (zip (pairs df) (Fin <$> qpreds df Uq Vq))).
  assert (size Ys = length ratings) as ->.
  { unfold Ys. rewrite <- size_dom, dom_build.
    rewrite fst_zip by (rewrite length_fmap; lia).
    rewrite size_list_to_set by done. done. }
  rewrite <- (fdiv_fin _ _ Hpos). do 3 f_equal.
  unfold sp_sum, sp_power. cbn [stored].
  rewrite (map_fold_fadd_keys _ (pairs df) Hnd); cycle 1.
  { intros p Hp. rewrite lookup_fmap, lookup_merge.
    assert (Ys !! p = None) as ->.
    { apply eq_None_not_Some. by intros ?%build_keys. }
    assert (Ps !! p = None) as ->.
    { apply eq_None_not_Some. by intros ?%build_keys. }
    done. }
  rewrite <- fsum_fin. f_equal. apply list_eq. intros r.
  rewrite !list_lookup_fmap, lookup_zip_with.
  destruct (pairs df !! r) as [p|] eqn:Hpr; simpl; [|done].
  destruct (lookup_lt_is_Some_2 ratings r) as [q Hq].
  { rewrite <- Hlp. by eapply lookup_lt_Some. }
  rewrite Hq. simpl. f_equal.
  assert (Ys !! p = Some (Fin q)) as HYp.
  { apply (lookup_build_nodup _ _ r); [done..|].
    by rewrite list_lookup_fmap, Hq. }
  assert (Ps !! p = Some (Fin (qpred Uq Vq p))) as HPp.
  { apply (lookup_build_nodup _ _ r); [done..|].
    unfold qpreds. by rewrite !list_lookup_fmap, Hpr. }
  assert (residual (mk_csc (n, m) Ys) (mk_csc (n, m) Ps) p.1 p.2
          = (q - qpred Uq Vq p)%Qc) as Hres.
  { unfold residual. simpl. rewrite <- surjective_pairing.
    by rewrite HYp, HPp. }
  rewrite lookup_fmap.
  destruct (lookup_sub_finite (mk_csc (n, m) Ys) (mk_csc (n, m) Ps) p.1 p.2)
    as [Hs|[Hs Hz]]; try apply build_finite;
    simpl in Hs; rewrite <- surjective_pairing in Hs; rewrite Hs; simpl.
  - f_equal. unfold sq_error. simpl. rewrite Hres. ring.
  - f_equal. unfold sq_error. simpl. rewrite <- Hres, Hz. ring.
Qed.

Lemma qarray_shape_inv k Aq n :
  has_shape (qarray k Aq) n k →
  length Aq = n ∧ ∀ i row, Aq !! i = Some row → length row = k.
Proof.
  intros (H0 & _ & Hwf). unfold shape0, qarray in H0. simpl in H0.
  rewrite length_fmap in H0. split; [done|]. intros i row Hi.
  pose proof (array_wf_lookup _ _ _ Hwf (qarray_row k _ _ _ Hi)) as Hl.
  by rewrite length_fmap in Hl.
Qed.

Lemma qarray_has_shape k Aq n :
  length Aq = n → (∀ i row, Aq !! i = Some row → length row = k) →
  has_shape (qarray k Aq) n k.
Proof.
  intros Hn Hrows. split_and!.
  - unfold shape0, qarray. simpl. by rewrite length_fmap.
  - done.
  - unfold array_wf, qarray. simpl. apply Forall_fmap, Forall_lookup.
    intros i row Hi. simpl. rewrite length_map. by eapply Hrows.
Qed.

Lemma bump_has_shape k Aq n u f e :
  has_shape (qarray k Aq) n k → has_shape (qarray k (bump Aq u f e)) n k.
Proof.
  intros [Hn Hrows]%qarray_shape_inv. apply qarray_has_shape.
  - unfold bump. by rewrite length_insert.
  - intros i row. unfold bump.
    intros [(<- & <- & Hlt)|[_ Hi]]%list_lookup_insert_Some;
      [|by eapply Hrows].
    rewrite length_insert. unfold qrow.
    destruct (lookup_lt_is_Some_2 Aq u Hlt) as [r Hr]. rewrite Hr. simpl.
    by eapply Hrows.
Qed.

Lemma poke_zeros n k u f e :
  u < n → f < k →
  poke (zeros n k) (Some u) (Some f) e
  = Ok (mk_ndarray k (<[u := <[f := e]> (replicate k (Fin 0))]>
                        (replicate n (replicate k (Fin 0))))).
Proof.
  intros Hu Hf. unfold poke, zeros. simpl.
  rewrite lookup_replicate_2 by done. simpl.
  rewrite length_replicate, decide_True by done. done.
Qed.

(** An embedding plus the zeros with [e] in one cell. *)
Lemma ew_fadd_bump k Aq n u f e :
  has_shape (qarray k Aq) n k → u < n → f < k →
  ew fadd (qarray k Aq)
     (mk_ndarray k (<[u := <[f := Fin e]> (replicate k (Fin 0))]>
                      (replicate n (replicate k (Fin 0)))))
  = Ok (qarray k (bump Aq u f e)).
Proof.
  intros HA Hu Hf. pose proof HA as (H0 & _ & Hwf).
  apply qarray_shape_inv in HA as [Hn Hrows].
  rewrite ew_same_shape; [|done| | |done].
  2:{ unfold array_wf. simpl. apply Forall_insert.
      - apply Forall_replicate. apply length_replicate.
      - by rewrite length_insert, length_replicate. }
  2:{ rewrite H0. unfold shape0. simpl.
      by rewrite length_insert, length_replicate. }
  unfold qarray. simpl. do 2 f_equal. apply list_eq. intros i.
  rewrite lookup_zip_with, !list_lookup_fmap. unfold bump.
  rewrite !list_lookup_insert, length_replicate.
  destruct (Aq !! i) as [row|] eqn:Hi; simpl.
  2:{ rewrite decide_False; [done|].
      intros [-> _]. apply lookup_ge_None_1 in Hi. lia. }
  assert (i < n) as Hlt by (rewrite <- Hn; by eapply lookup_lt_Some).
  pose proof (Hrows _ _ Hi) as Hlen.
  destruct (decide (u = i)) as [->|Hne].
  - rewrite !decide_True by (split; [done|lia]). simpl. f_equal.
    unfold qcell, qrow. rewrite Hi. simpl. apply list_eq. intros j.
    rewrite lookup_zip_with, !list_lookup_fmap, !list_lookup_insert.
    rewrite length_replicate.
    destruct (row !! j) as [x|] eqn:Hj; simpl.
    2:{ rewrite decide_False; [done|].
        intros [-> _]. apply lookup_ge_None_1 in Hj. lia. }
    assert (j < k) as Hjk by (rewrite <- Hlen; by eapply lookup_lt_Some).
    destruct (decide (f = j)) as [->|Hfj].
    + rewrite !decide_True by (split; [done|lia]). by rewrite Hj.
    + rewrite !decide_False by (intros [? _]; done).
      rewrite lookup_replicate_2 by done. simpl.
      do 2 f_equal. ring.
  - rewrite !decide_False by (intros [? _]; done).
    rewrite lookup_replicate_2 by done. simpl. f_equal.
    rewrite zip_with_replicate_r by (by rewrite length_map).
    apply list_eq. intros j.
    rewrite !list_lookup_fmap. destruct (row !! j); simpl; [|done].
    do 2 f_equal. ring.
Qed.

(** An embedding plus zeros. *)
Lemma ew_fadd_zeros A n k :
  has_shape A n k → ew fadd A (zeros_like A) = Ok A.
Proof.
  intros HA. pose proof HA as (H0 & Hc & Hwf). unfold zeros_like.
  rewrite H0, Hc. pose proof (zeros_has_shape n k) as (Z0 & Zc & Zwf).
  rewrite ew_same_shape; [|done|done|congruence|congruence].
  f_equal. transitivity (zip_cells fadd A (zeros n k)); [done|].
  apply zip_cells_zeros_r; [done|]. apply fadd_0_r.
Qed.

Lemma qdot_cons x u y v : qdot (x :: u) (y :: v) = (x * y + qdot u v)%Qc.
Proof. done. Qed.

Lemma qdot_comm (u v : list Qc) : qdot u v = qdot v u.
Proof.
  revert v. induction u as [|x u IH]; intros [|y v]; try done.
  rewrite !qdot_cons, IH. ring.
Qed.

Lemma qdot_insert (ur vr : list Qc) f x v e :
  ur !! f = Some x → vr !! f = Some v →
  qdot (<[f := (x + e)%Qc]> ur) vr = (qdot ur vr + e * v)%Qc.
Proof.
  revert f vr. induction ur as [|a ur IH]; intros [|f] [|b vr] Hx Hv;
    try done; simpl in *.
  - injection Hx as ->. injection Hv as ->. rewrite !qdot_cons. ring.
  - rewrite !qdot_cons, (IH f vr) by done. ring.
Qed.

(** The prediction at a pair after [e] is added to one cell of the user
    embeddings, and to one cell of the item embeddings. *)
Lemma qpred_bump_user Uq Vq n m k u f e a b :
  has_shape (qarray k Uq) n k → has_shape (qarray k Vq) m k →
  u < n → f < k → b < m →
  qpred (bump Uq u f e) Vq (a, b)
  = (qpred Uq Vq (a, b)
     + if decide (a = u) then e * qcell Vq b f else 0)%Qc.
Proof.
  intros [Hn HUr]%qarray_shape_inv [Hm HVr]%qarray_shape_inv Hu Hf Hb.
  unfold qpred, bump. cbn [fst snd].
  destruct (decide (a = u)) as [->|Hne].
  2:{ unfold qrow at 1. rewrite list_lookup_insert_ne by done.
      fold (qrow Uq a). ring. }
  destruct (lookup_lt_is_Some_2 Uq u) as [ur Hur]; [lia|].
  destruct (lookup_lt_is_Some_2 Vq b) as [vr Hvr]; [lia|].
  destruct (lookup_lt_is_Some_2 ur f) as [x Hx];
    [rewrite (HUr _ _ Hur); lia|].
  destruct (lookup_lt_is_Some_2 vr f) as [v Hv];
    [rewrite (HVr _ _ Hvr); lia|].
  assert (qrow Uq u = ur) as HrU by (unfold qrow; by rewrite Hur).
  assert (qrow Vq b = vr) as HrV by (unfold qrow; by rewrite Hvr).
  assert (qcell Uq u f = x) as -> by (unfold qcell; by rewrite HrU, Hx).
  assert (qcell Vq b f = v) as -> by (unfold qcell; by rewrite HrV, Hv).
  unfold qrow at 1. rewrite list_lookup_insert_eq by lia.
  rewrite HrU, HrV. cbn [default from_option id].
  by apply qdot_insert.
Qed.

Lemma qpred_swap Uq Vq a b : qpred Uq Vq (a, b) = qpred Vq Uq (b, a).
Proof. unfold qpred. cbn [fst snd]. apply qdot_comm. Qed.

Lemma qpred_bump_item Uq Vq n m k j f e a b :
  has_shape (qarray k Uq) n k → has_shape (qarray k Vq) m k →
  j < m → f < k → a < n →
  qpred Uq (bump Vq j f e) (a, b)
  = (qpred Uq Vq (a, b)
     + if decide (b = j) then e * qcell Uq a f else 0)%Qc.
Proof.
  intros HU HV Hj Hf Ha. rewrite !(qpred_swap Uq).
  by apply (qpred_bump_user Vq Uq m n k).
Qed.

Lemma zq_minus_two : zq (-2) = (- (1 + 1))%Qc.
Proof. by apply Qc_is_canon. Qed.

(** The sum of the squared errors after the predictions on the pairs in
    [S] moved by [e w]. *)
Lemma sq_error_sum_shift Uq Vq Uq' Vq' (S : nat * nat → Prop)
    `{!∀ p, Decision (S p)} (w : nat * nat → Qc) (e : Qc)
    (ts : list (nat * nat * Qc)) :
  (∀ t, t ∈ ts →
     qpred Uq' Vq' t.1
     = (qpred Uq Vq t.1 + if decide (S t.1) then e * w t.1 else 0)%Qc) →
  qsum (sq_error Uq' Vq' <$> ts)
  = (qsum (sq_error Uq Vq <$> ts)
     + (zq (-2) * e
        * qsum ((λ t, (t.2 - qpred Uq Vq t.1) * w t.1)%Qc
                  <$> filter (λ t, S t.1) ts)
        + e * e * qsum ((λ t, w t.1 * w t.1)%Qc
                          <$> filter (λ t, S t.1) ts)))%Qc.
Proof.
  rewrite zq_minus_two. induction ts as [|t ts IH]; intros Hq.
  { unfold qsum. simpl. ring. }
  rewrite filter_cons, !fmap_cons, !qsum_cons, IH.
  2:{ intros t' Ht'. apply Hq. by right. }
  unfold sq_error at 1 3. cbv zeta. rewrite (Hq t) by left.
  destruct (decide (S t.1)).
  - rewrite !fmap_cons, !qsum_cons. ring.
  - ring.
Qed.

Lemma fd_step_nonzero : fd_step ≠ 0%Qc.
Proof. intros H. by apply qzero_true in H. Qed.

Lemma fd_quotient (s a b c e : Qc) :
  e ≠ 0%Qc → c ≠ 0%Qc →
  (((s + (zq (-2) * e * a + e * e * b)) / c - s / c) / e
   = zq (-2) * a / c + e * b / c)%Qc.
Proof. intros He Hc. field. by split. Qed.

Lemma qsum_filter_fst {A} (S : A → Prop) `{!∀ a, Decision (S a)}
    (h : A → Qc) (l : list A) (rs : list Qc) :
  length l = length rs →
  qsum ((λ t, h t.1) <$> filter (λ t, S t.1) (zip l rs))
  = qsum (h <$> filter S l).
Proof.
  intros Hlen. rewrite !qsum_filter.
  by rewrite (qsum_zip_fst (λ a, if decide (S a) then h a else 0%Qc)
                _ rs Hlen).
Qed.

(** What [finite_difference] returns when the perturbed embeddings are
    [U'] and [V']. *)
Lemma finite_difference_unfold df U V U' V' n m k ind_u ind_m kk :
  df_wf df → in_range df n m → is_Some (columns df !! "rating") →
  has_shape U n k → has_shape V m k →
  has_shape U' n k → has_shape V' m k →
  perturbed U V ind_u ind_m kk (Fin fd_step) = Ok (U', V') →
  ∃ c1 c2,
    (cost (Some df) U V).2 = Ok (Some c1)
    ∧ (cost (Some df) U' V').2 = Ok (Some c2)
    ∧ (finite_difference df U V ind_u ind_m kk).2
      = Ok (fdiv (fsub c2 c1) (Fin fd_step))
    ∧ only_prediction_changed df (finite_difference df U V ind_u ind_m kk).1.
Proof.
  intros Hwf Hin Hrat HU HV HU' HV' Hpert.
  destruct (cost_ok df U V n m k Hwf Hin Hrat HU HV)
    as (df1 & c & Hc1 & Hwf1 & Hopc).
  destruct (cost_of_frame df U V) as (? & ? & Heq & Hnn).
  rewrite Hc1 in Heq. injection Heq as <- <-.
  destruct c as [c1|]; [|done].
  pose proof Hopc as (Hu1 & Hm1 & Hcols).
  assert (in_range df1 n m) as Hin1 by by apply (in_range_same_keys df).
  assert (columns df1 !! "rating" = columns df !! "rating") as Hr1
    by by apply Hcols.
  destruct (cost_ok df1 U' V' n m k Hwf1 Hin1) as (df2 & c & Hc2 & _ & Hopc2);
    [by rewrite Hr1|done..|].
  destruct (cost_of_frame df1 U' V') as (? & ? & Heq & Hnn2).
  rewrite Hc2 in Heq. injection Heq as <- <-.
  destruct c as [c2|]; [|done].
  exists c1, c2. split_and!.
  - by rewrite Hc1.
  - rewrite <- (cost_same_keys_and_rating df1 df) by done. by rewrite Hc2.
  - unfold finite_difference. by rewrite Hc1, Hpert, Hc2.
  - unfold finite_difference. rewrite Hc1, Hpert, Hc2. simpl.
    by eapply only_prediction_changed_trans.
Qed.

(** The value of the difference quotient of the cost when the predictions
    on the pairs in [S] move by [fd_step] times [w]. *)
Lemma fd_value df Uq Vq Uq' Vq' n m k ratings (S : nat * nat → Prop)
    `{!∀ p, Decision (S p)} (w : nat * nat → Qc) c1 c2 :
  df_wf df → in_range df n m →
  columns df !! "rating" = Some (Fin <$> ratings) →
  has_shape (qarray k Uq) n k → has_shape (qarray k Vq) m k →
  has_shape (qarray k Uq') n k → has_shape (qarray k Vq') m k →
  NoDup (pairs df) → 0 < length ratings →
  (∀ p, p ∈ pairs df →
     qpred Uq' Vq' p
     = (qpred Uq Vq p + if decide (S p) then fd_step * w p else 0)%Qc) →
  (cost (Some df) (qarray k Uq) (qarray k Vq)).2 = Ok (Some c1) →
  (cost (Some df) (qarray k Uq') (qarray k Vq')).2 = Ok (Some c2) →
  fdiv (fsub c2 c1) (Fin fd_step)
  = Fin (zq (-2)
         * qsum ((λ t, (t.2 - qpred Uq Vq t.1) * w t.1)%Qc
                   <$> filter (λ t, S t.1) (zip (pairs df) ratings))
         / zq (Z.of_nat (length ratings))
         + fd_step * qsum ((λ p, w p * w p)%Qc <$> filter S (pairs df))
           / zq (Z.of_nat (length ratings))).
Proof.
  intros Hwf Hin Hrat HU HV HU' HV' Hnd Hpos Hq Hc1 Hc2.
  rewrite (cost_rows df Uq Vq n m k ratings) in Hc1 by done.
  rewrite (cost_rows df Uq' Vq' n m k ratings) in Hc2 by done.
  injection Hc1 as <-. injection Hc2 as <-.
  assert (length (pairs df) = length ratings) as Hlp.
  { apply column_values_rating in Hrat.
    pose proof (column_values_length _ _ _ Hwf Hrat) as Hl.
    rewrite length_fmap in Hl. unfold pairs. rewrite length_zip.
    destruct Hwf. lia. }
  rewrite (sq_error_sum_shift Uq Vq Uq' Vq' S w fd_step).
  2:{ intros [p r] Ht. apply Hq. by eapply elem_of_zip_l. }
  rewrite (qsum_filter_fst S (λ p, w p * w p)%Qc _ ratings Hlp).
  cbn [fsub fneg fadd fdiv].
  assert (qzero fd_step = false) as -> by done.
  f_equal. apply fd_quotient; [apply fd_step_nonzero|].
  intros Hz. apply qzero_true in Hz. by rewrite zq_nonzero in Hz.
Qed.

Lemma perturbed_user Uq Vq n m k u f ind_m :
  has_shape (qarray k Uq) n k → has_shape (qarray k Vq) m k →
  u < n → f < k →
  perturbed (qarray k Uq) (qarray k Vq) (Some u) ind_m (Some f) (Fin fd_step)
  = Ok (qarray k (bump Uq u f fd_step), qarray k Vq).
Proof.
  intros HU HV Hu Hf. unfold perturbed. cbv beta iota zeta.
  unfold zeros_like at 1. pose proof HU as (-> & _ & _).
  change (ncol (qarray k Uq)) with k.
  rewrite poke_zeros by done. cbn [rbind fst snd].
  rewrite (ew_fadd_bump k Uq n) by done. cbn [rbind].
  by rewrite (ew_fadd_zeros _ m k).
Qed.

Lemma perturbed_item Uq Vq n m k j f :
  has_shape (qarray k Uq) n k → has_shape (qarray k Vq) m k →
  j < m → f < k →
  perturbed (qarray k Uq) (qarray k Vq) None (Some j) (Some f) (Fin fd_step)
  = Ok (qarray k Uq, qarray k (bump Vq j f fd_step)).
Proof.
  intros HU HV Hj Hf. unfold perturbed. cbv beta iota zeta.
  unfold zeros_like at 1. pose proof HV as (-> & _ & _).
  change (ncol (qarray k Vq)) with k.
  rewrite poke_zeros by done. cbn [rbind fst snd].
  rewrite (ew_fadd_zeros _ n k) by done. cbn [rbind].
  by rewrite (ew_fadd_bump k Vq m).
Qed.

(** X15. The gradient check. For a table in range without a repeated pair,
    with finite ratings and at least one row, and finite embeddings:
    [finite_difference] at the cell (u, f) of the user embeddings returns
    the cell (u, f) of the user gradient plus the step 0.000000001 times
    the sum of the squares of V[item][f] over the rows of user u, divided
    by the number of rows; and likewise at a cell (j, f) of the item
    embeddings, with the squares of U[user][f] over the rows of item j. *)
Theorem finite_difference_gradient_gap df Uq Vq n m k ratings Y :
  df_wf df → in_range df n m →
  columns df !! "rating" = Some (Fin <$> ratings) →
  has_shape (qarray k Uq) n k → has_shape (qarray k Vq) m k →
  NoDup (pairs df) → 0 < length ratings →
  df2matrix df n m "rating" = Ok Y →
  ∃ gU gV,
    (gradient df Y (qarray k Uq) (qarray k Vq)).2 = Ok (gU, gV)
    ∧ (∀ u f ind_m, u < n → f < k →
         ∃ g, cell gU u f = Fin g
           ∧ (finite_difference df (qarray k Uq) (qarray k Vq)
                (Some u) ind_m (Some f)).2
             = Ok (Fin (g + fd_step
                            * qsum ((λ p, qcell Vq p.2 f * qcell Vq p.2 f)%Qc
                                      <$> filter (λ p, p.1 = u) (pairs df))
                            / zq (Z.of_nat (length ratings)))))
    ∧ (∀ j f, j < m → f < k →
         ∃ g, cell gV j f = Fin g
           ∧ (finite_difference df (qarray k Uq) (qarray k Vq)
                None (Some j) (Some f)).2
             = Ok (Fin (g + fd_step
                            * qsum ((λ p, qcell Uq p.1 f * qcell Uq p.1 f)%Qc
                                      <$> filter (λ p, p.2 = j) (pairs df))
                            / zq (Z.of_nat (length ratings))))).
Proof.
  intros Hwf Hin Hrat HU HV Hnd Hpos HY.
  apply column_values_rating in Hrat as Hc.
  rewrite (df2matrix_ok _ _ _ _ _ Hwf Hc Hin) in HY. injection HY as <-.
  assert (length (pairs df) = length ratings) as Hlp.
  { pose proof (column_values_length _ _ _ Hwf Hc) as Hl.
    rewrite length_fmap in Hl. unfold pairs. rewrite length_zip.
    destruct Hwf. lia. }
  assert (nnz (mk_csc (n, m) (foldl add_entry ∅ (triples df (Fin <$> ratings))))
          = length ratings) as Hnnz.
  { unfold nnz, triples. cbn [stored]. rewrite <- size_dom, dom_build.
    rewrite fst_zip by (rewrite length_fmap; lia).
    by rewrite size_list_to_set. }
  assert (is_Some (columns df !! "rating")) as Hsome by by eexists.
  destruct (gradient_rows df Uq Vq n m k ratings Hwf Hin Hrat HU HV)
    as (gU & gV & Hg & HgU & HgV).
  { unfold triples in Hnnz. rewrite Hnnz. done. }
  unfold triples in *. rewrite Hnnz in HgU, HgV.
  exists gU, gV. split; [exact Hg|]. split.
  - intros u f ind_m Hu Hf. eexists. split; [exact (HgU u f Hu Hf)|].
    destruct (finite_difference_unfold df _ _ _ _ n m k (Some u) ind_m
                (Some f) Hwf Hin Hsome HU HV
                (bump_has_shape k Uq n u f fd_step HU) HV
                (perturbed_user Uq Vq n m k u f ind_m HU HV Hu Hf))
      as (c1 & c2 & Hc1 & Hc2 & -> & _).
    assert (Hq : ∀ p, p ∈ pairs df →
              qpred (bump Uq u f fd_step) Vq p
              = (qpred Uq Vq p
                 + if decide (p.1 = u) then fd_step * qcell Vq p.2 f
                   else 0)%Qc).
    { intros [a b] Hab. cbn [fst snd].
      apply (qpred_bump_user Uq Vq n m k u f fd_step a b HU HV Hu Hf).
      destruct Hin as [_ Hm]. apply Hm. eapply elem_of_zip_r. exact Hab. }
    pose proof (fd_value df Uq Vq (bump Uq u f fd_step) Vq n m k ratings
                  (λ p, p.1 = u) (λ p, qcell Vq p.2 f) c1 c2 Hwf Hin Hrat
                  HU HV (bump_has_shape k Uq n u f fd_step HU) HV Hnd Hpos
                  Hq Hc1 Hc2) as Hv.
    cbv beta in Hv. rewrite Hv. reflexivity.
  - intros j f Hj Hf. eexists. split; [exact (HgV j f Hj Hf)|].
    destruct (finite_difference_unfold df _ _ _ _ n m k None (Some j)
                (Some f) Hwf Hin Hsome HU HV HU
                (bump_has_shape k Vq m j f fd_step HV)
                (perturbed_item Uq Vq n m k j f HU HV Hj Hf))
      as (c1 & c2 & Hc1 & Hc2 & -> & _).
    assert (Hq : ∀ p, p ∈ pairs df →
              qpred Uq (bump Vq j f fd_step) p
              = (qpred Uq Vq p
                 + if decide (p.2 = j) then fd_step * qcell Uq p.1 f
                   else 0)%Qc).
    { intros [a b] Hab. cbn [fst snd].
      apply (qpred_bump_item Uq Vq n m k j f fd_step a b HU HV Hj Hf).
      destruct Hin as [Hn _]. apply Hn. eapply elem_of_zip_l. exact Hab. }
    pose proof (fd_value df Uq Vq Uq (bump Vq j f fd_step) n m k ratings
                  (λ p, p.2 = j) (λ p, qcell Uq p.1 f) c1 c2 Hwf Hin Hrat
                  HU HV HU (bump_has_shape k Vq m j f fd_step HV) Hnd Hpos
                  Hq Hc1 Hc2) as Hv.
    cbv beta in Hv. rewrite Hv. reflexivity.
Qed.

Lemma poke_zeros_in_bounds n k i f e :
  poke_in_bounds n k i f →
  ∃ x, poke (zeros n k) i f e = Ok x ∧ has_shape x n k.
Proof.
  destruct i as [r|], f as [c|]; cbn [poke_in_bounds].
  - intros [Hr Hc]. rewrite poke_zeros by done. eexists. split; [done|].
    split_and!.
    + unfold shape0. simpl. by rewrite length_insert, length_replicate.
    + done.
    + unfold array_wf. simpl. apply Forall_insert.
      * apply Forall_replicate. apply length_replicate.
      * by rewrite length_insert, length_replicate.
  - intros Hr. unfold poke, zeros. simpl.
    rewrite lookup_replicate_2 by done. simpl. eexists. split; [done|].
    split_and!.
    + unfold shape0. simpl. by rewrite length_insert, length_replicate.
    + done.
    + unfold array_wf. simpl. apply Forall_insert.
      * apply Forall_replicate. apply length_replicate.
      * by rewrite !length_replicate.
  - intros ->. eexists. split; [done|].
    apply amap_has_shape, zeros_has_shape.
  - intros _. eexists. split; [done|].
    apply amap_has_shape, zeros_has_shape.
Qed.

Lemma poke_zeros_out_of_bounds n k i f e :
  ¬ poke_in_bounds n k i f → poke (zeros n k) i f e = Err IndexError.
Proof.
  destruct i as [r|], f as [c|]; cbn [poke_in_bounds]; intros Hno.
  - unfold poke, zeros. simpl. destruct (decide (r < n)) as [Hr|Hr].
    + rewrite lookup_replicate_2 by done. simpl.
      rewrite length_replicate, decide_False; [done|]. intros Hc.
      by apply Hno.
    + rewrite (lookup_ge_None_2 (replicate n _) r); [done|].
      rewrite length_replicate. lia.
  - unfold poke, zeros. simpl.
    rewrite (lookup_ge_None_2 (replicate n _) r); [done|].
    rewrite length_replicate. lia.
  - destruct c; [done|done].
  - done.
Qed.

Lemma ew_fadd_shape U x n k :
  has_shape U n k → has_shape x n k →
  ∃ U', ew fadd U x = Ok U' ∧ has_shape U' n k.
Proof.
  intros HU Hx. pose proof HU as (H0 & Hc & Hwf).
  pose proof Hx as (X0 & Xc & Xwf).
  rewrite ew_same_shape; [|done|done|congruence|congruence].
  eexists. split; [done|]. by apply (zip_cells_has_shape fadd U x).
Qed.

(** The perturbed embeddings exist, with the shapes of the embeddings,
    exactly when the indices are in bounds. *)
Lemma perturbed_in_bounds U V n m k ind_u ind_m f e :
  has_shape U n k → has_shape V m k →
  fd_in_bounds n m k ind_u ind_m f →
  ∃ U' V', perturbed U V ind_u ind_m f e = Ok (U', V')
           ∧ has_shape U' n k ∧ has_shape V' m k.
Proof.
  intros HU HV Hb. unfold perturbed. cbv zeta. unfold zeros_like.
  pose proof HU as (-> & -> & _). pose proof HV as (-> & -> & _).
  unfold fd_in_bounds in Hb. destruct ind_u as [u|].
  - destruct (poke_zeros_in_bounds n k (Some u) f e Hb) as (x & -> & Hx).
    cbn [rbind fst snd].
    destruct (ew_fadd_shape U x n k HU Hx) as (U' & -> & HU').
    destruct (ew_fadd_shape V _ m k HV (zeros_has_shape m k))
      as (V' & -> & HV').
    cbn [rbind]. by eexists _, _.
  - destruct (poke_zeros_in_bounds m k ind_m f e Hb) as (y & -> & Hy).
    cbn [rbind fst snd].
    destruct (ew_fadd_shape U _ n k HU (zeros_has_shape n k))
      as (U' & -> & HU').
    destruct (ew_fadd_shape V y m k HV Hy) as (V' & -> & HV').
    cbn [rbind]. by eexists _, _.
Qed.

Lemma perturbed_out_of_bounds U V n m k ind_u ind_m f e :
  has_shape U n k → has_shape V m k →
  ¬ fd_in_bounds n m k ind_u ind_m f →
  perturbed U V ind_u ind_m f e = Err IndexError.
Proof.
  intros HU HV Hb. unfold perturbed. cbv zeta. unfold zeros_like.
  pose proof HU as (-> & -> & _). pose proof HV as (-> & -> & _).
  unfold fd_in_bounds in Hb. destruct ind_u as [u|].
  - by rewrite (poke_zeros_out_of_bounds n k (Some u) f e Hb).
  - by rewrite (poke_zeros_out_of_bounds m k ind_m f e Hb).
Qed.

(** The frame and the value of a call of [cost] that raises nothing. *)
Lemma cost_writes_predictions df U V n m k :
  df_wf df → in_range df n m → is_Some (columns df !! "rating") →
  has_shape U n k → has_shape V m k →
  ∃ pred x, predictions df U V = Ok pred
    ∧ cost (Some df) U V
      = (Some (set_column df "Prediction" pred), Ok (Some x)).
Proof.
  intros Hwf Hr [c Hc%column_values_rating] HU HV.
  destruct (sparse_multiply_ok df U V n m k Hwf Hr HU HV)
    as (pred & Hp & Hlen & Hsm).
  exists pred. unfold cost. destruct HU as (HU0 & _), HV as (HV0 & _).
  rewrite HU0, HV0, (df2matrix_ok _ _ _ _ c) by done.
  rewrite Hsm. simpl. unfold sp_sub. simpl. rewrite decide_True by done.
  simpl. by eexists.
Qed.

(** X16. On a table in range with ratings and embeddings U (n by k) and V
    (m by k), [finite_difference] raises exactly when its indices are out
    of bounds. In bounds (a row and a factor; a row alone; no row and the
    factor 0 or none) it returns a float and leaves a frame in which only
    the column ["Prediction"] changed. Out of bounds it raises IndexError
    after its first call of [cost]: the frame is left with the predictions
    of the given embeddings. The item index is looked at only when there
    is no user index. *)
Theorem finite_difference_index_bounds df U V n m k ind_u ind_m f :
  df_wf df → in_range df n m → is_Some (columns df !! "rating") →
  has_shape U n k → has_shape V m k →
  (fd_in_bounds n m k ind_u ind_m f →
     ∃ x, (finite_difference df U V ind_u ind_m f).2 = Ok x
          ∧ only_prediction_changed df
              (finite_difference df U V ind_u ind_m f).1)
  ∧ (¬ fd_in_bounds n m k ind_u ind_m f →
     ∃ pred, predictions df U V = Ok pred
             ∧ finite_difference df U V ind_u ind_m f
               = (set_column df "Prediction" pred, Err IndexError))
  ∧ (∀ u ind_m', finite_difference df U V (Some u) ind_m' f
                 = finite_difference df U V (Some u) ind_m f).
Proof.
  intros Hwf Hin Hrat HU HV. split; [|split].
  - intros Hb.
    destruct (perturbed_in_bounds U V n m k ind_u ind_m f (Fin fd_step)
                HU HV Hb) as (U' & V' & Hpert & HU' & HV').
    destruct (finite_difference_unfold df U V U' V' n m k ind_u ind_m f
                Hwf Hin Hrat HU HV HU' HV' Hpert)
      as (c1 & c2 & _ & _ & Hfd & Hopc).
    eexists. split; [exact Hfd|exact Hopc].
  - intros Hb.
    destruct (cost_writes_predictions df U V n m k Hwf Hin Hrat HU HV)
      as (pred & x & Hp & Hc).
    exists pred. split; [exact Hp|]. unfold finite_difference.
    rewrite Hc. cbv beta iota.
    by rewrite (perturbed_out_of_bounds U V n m k ind_u ind_m f _ HU HV Hb).
  - intros u ind_m'. reflexivity.
Qed.

End finite_difference_facts.

(** ** The statements on the gradient check at a sample input *)

Lemma df_two_nodup : NoDup (pairs df_two).
Proof.
  apply NoDup_cons. split; [|apply NoDup_singleton].
  intros [=]%list_elem_of_singleton.
Defined.

Lemma df_two_matrix :
  df2matrix df_two 2 2 "rating"
  = Ok (mk_csc (2, 2) (foldl add_entry ∅ (triples df_two [fz 5; fz 3]))).
Proof. reflexivity. Defined.

Lemma gradient_sums_over_rows_witness :
  df_wf df_two ∧ in_range df_two 2 2
  ∧ columns df_two !! "rating" = Some (Fin <$> [zq 5; zq 3])
  ∧ has_shape (qarray 2 [[zq 1; zq 0]; [zq 0; zq 1]]) 2 2
  ∧ 0 < nnz (mk_csc (2, 2)
               (foldl add_entry ∅ (triples df_two [fz 5; fz 3])))
  ∧ nnz (mk_csc (2, 2) (foldl add_entry ∅ (triples df_two [fz 5; fz 3])))
    = size (list_to_set (pairs df_two) : gset (nat * nat)).
Proof.
  assert (Hpos : 0 < nnz (mk_csc (2, 2)
                    (foldl add_entry ∅ (triples df_two [fz 5; fz 3]))))
    by (vm_compute; lia).
  split; [exact df_two_wf|]. split; [exact df_two_in_range|].
  split; [reflexivity|]. split; [exact eye2_shape|]. split; [exact Hpos|].
  exact (proj1 (gradient_sums_over_rows df_two
                  [[zq 1; zq 0]; [zq 0; zq 1]] [[zq 1; zq 0]; [zq 0; zq 1]]
                  2 2 2 [zq 5; zq 3] _ df_two_wf df_two_in_range eq_refl
                  eye2_shape eye2_shape df_two_matrix Hpos)).
Defined.

Lemma finite_difference_gradient_gap_witness :
  df_wf df_two ∧ in_range df_two 2 2
  ∧ columns df_two !! "rating" = Some (Fin <$> [zq 5; zq 3])
  ∧ has_shape (qarray 2 [[zq 1; zq 0]; [zq 0; zq 1]]) 2 2
  ∧ NoDup (pairs df_two) ∧ 0 < length [zq 5; zq 3]
  ∧ ∃ gU gV,
      (gradient df_two
         (mk_csc (2, 2) (foldl add_entry ∅ (triples df_two [fz 5; fz 3])))
         (qarray 2 [[zq 1; zq 0]; [zq 0; zq 1]])
         (qarray 2 [[zq 1; zq 0]; [zq 0; zq 1]])).2 = Ok (gU, gV).
Proof.
  assert (Hpos : 0 < length [zq 5; zq 3]) by (simpl; lia).
  split; [exact df_two_wf|]. split; [exact df_two_in_range|].
  split; [reflexivity|]. split; [exact eye2_shape|].
  split; [exact df_two_nodup|]. split; [exact Hpos|].
  destruct (finite_difference_gradient_gap df_two
              [[zq 1; zq 0]; [zq 0; zq 1]] [[zq 1; zq 0]; [zq 0; zq 1]]
              2 2 2 [zq 5; zq 3] _ df_two_wf df_two_in_range eq_refl
              eye2_shape eye2_shape df_two_nodup Hpos df_two_matrix)
    as (gU & gV & Hg & _).
  exists gU, gV. exact Hg.
Defined.

Lemma finite_difference_index_bounds_witness :
  df_wf df_two ∧ in_range df_two 2 2
  ∧ is_Some (columns df_two !! "rating") ∧ has_shape eye2 2 2
  ∧ ∃ pred, predictions df_two eye2 eye2 = Ok pred
            ∧ finite_difference df_two eye2 eye2 (Some 2) None (Some 0)
              = (set_column df_two "Prediction" pred, Err IndexError).
Proof.
  assert (Hout : ¬ fd_in_bounds 2 2 2 (Some 2) None (Some 0))
    by (simpl; lia).
  split; [exact df_two_wf|]. split; [exact df_two_in_range|].
  split; [exact df_two_has_rating|]. split; [exact eye2_shape|].
  exact (proj1 (proj2 (finite_difference_index_bounds df_two eye2 eye2
                         2 2 2 (Some 2) None (Some 0) df_two_wf
                         df_two_in_range df_two_has_rating eye2_shape
                         eye2_shape)) Hout).
Defined.

(** ** The empty table and the dtype of its key columns *)

Section empty_dtype.
Implicit Types (df : DataFrame nat) (kf : keyed_frame) (U V : ndarray)
  (Y : csc_matrix).

(** On integer key columns the functions on a keyed frame are the
    functions on the frame. *)
Lemma sparse_multiply_dt_int df U V :
  sparse_multiply_dt (mk_keyed df Int64 Int64) U V
  = (mk_keyed (sparse_multiply df U V).1 Int64 Int64,
     (sparse_multiply df U V).2).
Proof.
  unfold sparse_multiply_dt, sparse_multiply, predictions_dt, predictions.
  cbn [kf_user kf_movie kf_frame gather_dt].
  by destruct (_ ←r gather U (userId df); _).
Qed.

Lemma cost_dt_int df U V :
  cost_dt (Some (mk_keyed df Int64 Int64)) U V
  = ((λ d, mk_keyed d Int64 Int64) <$> (cost (Some df) U V).1,
     (cost (Some df) U V).2).
Proof.
  unfold cost_dt, cost. cbn [kf_frame].
  destruct (df2matrix df _ _ "rating") as [Yr|e]; [|done].
  rewrite sparse_multiply_dt_int.
  by destruct (sparse_multiply df U V).
Qed.

Lemma gradient_dt_int df Y U V :
  gradient_dt (mk_keyed df Int64 Int64) Y U V
  = (mk_keyed (gradient df Y U V).1 Int64 Int64, (gradient df Y U V).2).
Proof.
  unfold gradient_dt, gradient. rewrite sparse_multiply_dt_int.
  by destruct (sparse_multiply df U V).
Qed.

(** A float64 key column stops the predictor at the indexing of the
    embeddings, before anything is written. *)
Lemma sparse_multiply_dt_float kf U V :
  kf_user kf = Float64 ∨ kf_movie kf = Float64 →
  sparse_multiply_dt kf U V = (kf, Err IndexError).
Proof.
  intros Hdt. unfold sparse_multiply_dt.
  assert (predictions_dt kf U V = Err IndexError) as ->; [|done].
  unfold predictions_dt. destruct (kf_user kf); [|done].
  destruct Hdt as [?| ->]; [done|]. cbn [gather_dt]. unfold gather.
  by destruct (gather_rows_total (data U) (userId (kf_frame kf)))
    as [[g ->]| ->].
Qed.

(** C2, as the program has it. On a table with no observed rating there is
    no EmptyDataset condition. When the two key columns are integer arrays
    the cost and the gradient raise nothing: the division by the zero count
    is carried out, the cost is NaN and every cell of the two gradients is
    NaN. When a key column is a float64 array, both raise IndexError at the
    indexing of the embeddings, before any division, and leave the frame as
    it was. The empty table that [encode_data] returns is of this second
    kind. *)
Theorem cost_gradient_nan_on_empty :
  (∀ kf U V n m k Y,
     has_shape U n k → has_shape V m k →
     df2matrix (kf_frame kf) n m "rating" = Ok Y → nnz Y = 0 →
     match kf_user kf, kf_movie kf with
     | Int64, Int64 =>
         (cost_dt (Some kf) U V).2 = Ok (Some NaN)
         ∧ ∃ gU gV, (gradient_dt kf Y U V).2 = Ok (gU, gV)
             ∧ has_shape gU n k ∧ has_shape gV m k
             ∧ (∀ i j, i < n → j < k → cell gU i j = NaN)
             ∧ (∀ i j, i < m → j < k → cell gV i j = NaN)
     | _, _ =>
         cost_dt (Some kf) U V = (Some kf, Err IndexError)
         ∧ gradient_dt kf Y U V = (kf, Err IndexError)
     end)
  ∧ (∀ `{Countable K} (df : DataFrame K),
       userId df = [] → movieId df = [] →
       encode_data_dt df
       = Ok (mk_keyed (mk_df [] [] (columns df)) Float64 Float64, 0, 0)).
Proof.
  split.
  - intros [df du dm] U V n m k Y HU HV HY Hnnz. cbn [kf_frame] in HY.
    cbn [kf_user kf_movie].
    assert (∀ kf, kf_frame kf = df →
              kf_user kf = Float64 ∨ kf_movie kf = Float64 →
              cost_dt (Some kf) U V = (Some kf, Err IndexError)
              ∧ gradient_dt kf Y U V = (kf, Err IndexError)) as Hfloat.
    { intros kf Hkf Hdt. split.
      - unfold cost_dt. destruct HU as (-> & _), HV as (-> & _).
        rewrite Hkf, HY. by rewrite sparse_multiply_dt_float.
      - unfold gradient_dt. by rewrite sparse_multiply_dt_float. }
    destruct du, dm; try (apply Hfloat; [done|]; cbn; tauto).
    rewrite cost_dt_int, gradient_dt_int. cbn [snd].
    by apply (cost_gradient_nan_int_keys df U V n m k Y).
  - intros K ? ? df Hu Hm. unfold encode_data_dt. by rewrite Hu, Hm.
Qed.

End empty_dtype.

Lemma cost_gradient_nan_on_empty_witness :
  has_shape eye2 2 2
  ∧ df2matrix (kf_frame kf_empty) 2 2 "rating" = Ok (mk_csc (2, 2) ∅)
  ∧ nnz (mk_csc (2, 2) ∅) = 0
  ∧ cost_dt (Some kf_empty) eye2 eye2 = (Some kf_empty, Err IndexError)
  ∧ gradient_dt kf_empty (mk_csc (2, 2) ∅) eye2 eye2
    = (kf_empty, Err IndexError)
  ∧ (cost_dt (Some (mk_keyed df_empty Int64 Int64)) eye2 eye2).2
    = Ok (Some NaN).
Proof.
  split; [exact eye2_shape|]. split; [reflexivity|]. split; [reflexivity|].
  split; [|split].
  - exact (proj1 (proj1 cost_gradient_nan_on_empty kf_empty eye2 eye2 2 2 2
                    (mk_csc (2, 2) ∅) eye2_shape eye2_shape eq_refl
                    eq_refl)).
  - exact (proj2 (proj1 cost_gradient_nan_on_empty kf_empty eye2 eye2 2 2 2
                    (mk_csc (2, 2) ∅) eye2_shape eye2_shape eq_refl
                    eq_refl)).
  - exact (proj1 (proj1 cost_gradient_nan_on_empty
                    (mk_keyed df_empty Int64 Int64) eye2 eye2 2 2 2
                    (mk_csc (2, 2) ∅) eye2_shape eye2_shape eq_refl
                    eq_refl)).
Defined.
